(** * Timing probe (timing-probe.js): statistics, autocorrelation, spectrum

    A shallow embedding of [runTimingProbe] and of the helpers under it,
    followed by the properties the design document states about them.

    Numbers.  A JavaScript Number is modelled by [num]: a real number, one of
    the two infinities, or NaN.  Arithmetic on finite values is exact (the
    rounding error and the overflow of binary64 are not modelled, and the two
    zeros are one); the special values follow IEEE 754, so that division by
    zero, [Number.isFinite] and the truthiness tests of the source keep their
    meaning.  Array lengths, loop counters and lags are [nat] or [Z]; the
    32-bit shifts of the spectral engine wrap as in the source.  Where the
    rounding of a product decides which array entry is read, in the rank of
    [percentile], the function is also given with that product rounded to
    binary64 ([percentile64]).

    Effects.  The sampling phase is driven by browser callbacks; a run of it
    is represented by the clock readings of its calls of [stamp()].  The
    typed arrays the FFT updates in place are passed through the loops as
    values.  A function that may throw or loop for ever returns an [option],
    [None] meaning that the call returns no value. *)

From Stdlib Require Import Reals RList Lra Lia ZArith List Bool.
From Stdlib Require Import Sorting.Permutation Sorting.Sorted.
From Stdlib Require Strings.Byte.
Import ListNotations.
Open Scope R_scope.

(** ** The number model *)

Inductive num : Type :=
| Fin (x : R)
| PInf
| NInf
| NaN.

Definition Rltb (x y : R) : bool := if Rlt_dec x y then true else false.
Definition Rzerob (x : R) : bool := if Req_dec_T x 0 then true else false.

Definition of_nat (n : nat) : num := Fin (INR n).
Definition of_Z (z : Z) : num := Fin (IZR z).

(** [a + b] *)
Definition add (a b : num) : num :=
  match a, b with
  | NaN, _ | _, NaN => NaN
  | Fin x, Fin y => Fin (x + y)
  | PInf, NInf | NInf, PInf => NaN
  | PInf, _ | _, PInf => PInf
  | NInf, _ | _, NInf => NInf
  end.

(** [a - b] *)
Definition sub (a b : num) : num :=
  match a, b with
  | NaN, _ | _, NaN => NaN
  | Fin x, Fin y => Fin (x - y)
  | PInf, PInf | NInf, NInf => NaN
  | PInf, _ | _, NInf => PInf
  | NInf, _ | _, PInf => NInf
  end.

(** An infinity of sign [pos] times the finite [x]. *)
Definition inf_times (pos : bool) (x : R) : num :=
  if Rzerob x then NaN
  else if Bool.eqb pos (Rltb 0 x) then PInf else NInf.

(** [a * b] *)
Definition mul (a b : num) : num :=
  match a, b with
  | NaN, _ | _, NaN => NaN
  | Fin x, Fin y => Fin (x * y)
  | PInf, Fin y | Fin y, PInf => inf_times true y
  | NInf, Fin y | Fin y, NInf => inf_times false y
  | PInf, PInf | NInf, NInf => PInf
  | PInf, NInf | NInf, PInf => NInf
  end.

(** [a / b]; a zero divisor is read as +0. *)
Definition div (a b : num) : num :=
  match a, b with
  | NaN, _ | _, NaN => NaN
  | Fin x, Fin y =>
      if Rzerob y
      then (if Rzerob x then NaN else if Rltb 0 x then PInf else NInf)
      else Fin (x / y)
  | Fin _, _ => Fin 0
  | PInf, Fin y => if Rltb y 0 then NInf else PInf
  | NInf, Fin y => if Rltb y 0 then PInf else NInf
  | _, _ => NaN
  end.

(** [a < b]; every comparison with NaN is false. *)
Definition lt (a b : num) : bool :=
  match a, b with
  | NaN, _ | _, NaN => false
  | Fin x, Fin y => Rltb x y
  | _, NInf => false
  | NInf, _ => true
  | PInf, _ => false
  | Fin _, PInf => true
  end.

(** [a > b] *)
Definition gt (a b : num) : bool := lt b a.

(** Truthiness of a number: [0] and NaN are falsy. *)
Definition truthy (a : num) : bool :=
  match a with
  | Fin x => negb (Rzerob x)
  | NaN => false
  | _ => true
  end.

(** [a || b] on numbers. *)
Definition or_else (a b : num) : num := if truthy a then a else b.

(** [Number.isFinite] *)
Definition isFinite (a : num) : bool :=
  match a with Fin _ => true | _ => false end.

(** [Math.max(a, b)], [Math.min(a, b)]: NaN if either argument is. *)
Definition Math_max (a b : num) : num :=
  match a, b with
  | NaN, _ | _, NaN => NaN
  | _, _ => if lt a b then b else a
  end.

Definition Math_min (a b : num) : num :=
  match a, b with
  | NaN, _ | _, NaN => NaN
  | _, _ => if lt b a then b else a
  end.

(** [Math.floor] *)
Definition Math_floor (a : num) : num :=
  match a with
  | Fin x => Fin (IZR (Zfloor x))
  | _ => a
  end.

(** [Math.sqrt] *)
Definition Math_sqrt (a : num) : num :=
  match a with
  | Fin x => if Rltb x 0 then NaN else Fin (sqrt x)
  | PInf => PInf
  | _ => NaN
  end.

(** [Math.cos], [Math.sin] *)
Definition Math_cos (a : num) : num :=
  match a with Fin x => Fin (cos x) | _ => NaN end.

Definition Math_sin (a : num) : num :=
  match a with Fin x => Fin (sin x) | _ => NaN end.

(** [Math.hypot(a, b)]: an infinite argument wins over NaN. *)
Definition Math_hypot (a b : num) : num :=
  match a, b with
  | PInf, _ | NInf, _ | _, PInf | _, NInf => PInf
  | NaN, _ | _, NaN => NaN
  | Fin x, Fin y => Fin (sqrt (x * x + y * y))
  end.

(** ** Rounding to binary64 *)

(** [Zrne y]: the integer nearest to [y], a tie going to the even one. *)
Definition Zrne (y : R) : Z :=
  let f := Zfloor y in
  if Rltb (y - IZR f) (1 / 2) then f
  else if Rltb (1 / 2) (y - IZR f) then (f + 1)%Z
  else if Z.even f then f else (f + 1)%Z.

(** The least exponent [e' >= e] with [|x| < 2^e'], looked for in [fuel]
    steps. *)
Fixpoint binade_from (fuel : nat) (e : Z) (x : R) : Z :=
  match fuel with
  | O => e
  | S f => if Rltb (Rabs x) (powerRZ 2 e) then e else binade_from f (e + 1)%Z x
  end.

(** The exponent [e] with [2^(e-1) <= |x| < 2^e], between the exponent
    -1021 of the least normal numbers and the exponent 1024 of the greatest. *)
Definition binade (x : R) : Z := binade_from 2045 (-1021) x.

(** The binary64 number nearest to [x], a tie going to the even significand:
    53 significant bits, the last bit worth at least [2^-1074].  (Beyond the
    greatest binary64 number the engine gives an infinity; that overflow is
    not modelled.) *)
Definition b64 (x : R) : R :=
  let c := Z.max (binade x - 53) (-1074) in
  IZR (Zrne (x * powerRZ 2 (- c))) * powerRZ 2 c.

(** [a * b] with the product of two finite numbers rounded to binary64, as
    the engine computes it. *)
Definition mul64 (a b : num) : num :=
  match mul a b with
  | Fin x => Fin (b64 x)
  | v => v
  end.

(** ** Arrays and loops *)

(** [arr[i]] inside arithmetic: a read past the end is [undefined], which the
    arithmetic operators turn into NaN. *)
Definition get (arr : list num) (i : nat) : num := nth i arr NaN.

(** [arr[i] = v] on an array of fixed length (a write past the end of a typed
    array is dropped; the plain arrays of the source are never written past
    their end). *)
Fixpoint upd (arr : list num) (i : nat) (v : num) : list num :=
  match arr, i with
  | [], _ => []
  | _ :: t, O => v :: t
  | h :: t, S j => h :: upd t j v
  end.

(** [arr.push(v)] *)
Definition push (arr : list num) (v : num) : list num := arr ++ [v].

(** [arr[i]] for a Number [i]: an element when [i] is an index of the array,
    [undefined] ([None]) otherwise. *)
Definition index (arr : list num) (i : num) : option num :=
  match i with
  | Fin r =>
      if Rzerob (r - IZR (Zfloor r)) && negb (Rltb r 0)
      then nth_error arr (Z.to_nat (Zfloor r))
      else None
  | _ => None
  end.

(** [for (let i = lo; i < hi; i++) s = body i s] *)
Definition for_range {S : Type} (lo hi : nat) (body : nat -> S -> S) (s : S) : S :=
  fold_left (fun s i => body i s) (seq lo (hi - lo)) s.

(** [[...arr].sort(cmp)].  The language fixes the outcome for a consistent
    comparator (ordered by [cmp], equal elements in their original order) and
    reads a NaN returned by the comparator as 0; a stable insertion sort
    produces that outcome.  (With a NaN among the elements [a - b] is not a
    consistent comparator and the order is left to the engine; the model
    then gives the order of the insertion sort.) *)
Fixpoint insert_by (cmp : num -> num -> num) (x : num) (l : list num) : list num :=
  match l with
  | [] => [x]
  | y :: l' => if lt (Fin 0) (cmp x y) then y :: insert_by cmp x l' else x :: l
  end.

Definition sort_by (cmp : num -> num -> num) (l : list num) : list num :=
  fold_right (insert_by cmp) [] l.

(** ** Small math helpers *)

Definition diffs (arr : list num) : list num :=
  for_range 1 (length arr)
    (fun i out => push out (sub (get arr i) (get arr (i - 1)))) [].

Definition mean (arr : list num) : num :=
  if (length arr =? 0)%nat then Fin 0
  else div (fold_left (fun s x => add s x) arr (Fin 0)) (of_nat (length arr)).

Definition median (arr : list num) : num :=
  if (length arr =? 0)%nat then Fin 0
  else
    let tmp := sort_by (fun a b => sub a b) arr in
    let m := (length tmp / 2)%nat in
    if (length tmp mod 2 =? 0)%nat
    then div (add (get tmp (m - 1)) (get tmp m)) (Fin 2)
    else get tmp m.

Definition variance (arr : list num) : num :=
  if (length arr <? 2)%nat then Fin 0
  else
    let m := mean arr in
    let s := fold_left (fun s x => add s (mul (sub x m) (sub x m))) arr (Fin 0) in
    div s (sub (of_nat (length arr)) (Fin 1)).

Definition stddev (arr : list num) : num :=
  Math_sqrt (Math_max (Fin 0) (variance arr)).

(** The result is an optional number: [tmp[idx]] is [undefined] when [idx] is
    NaN. *)
Definition percentile (arr : list num) (p : num) : option num :=
  if (length arr =? 0)%nat then Some (Fin 0)
  else
    let tmp := sort_by (fun a b => sub a b) arr in
    let last := sub (of_nat (length tmp)) (Fin 1) in
    let idx := Math_min last (Math_max (Fin 0) (Math_floor (mul p last))) in
    index tmp idx.

(** [percentile] with the product [p * (tmp.length - 1)] rounded to
    binary64: the rounding of that product decides which entry is read.
    ([tmp.length - 1] is an integer and exact; the sign of [a - b] in the
    comparator is the same with or without rounding.) *)
Definition percentile64 (arr : list num) (p : num) : option num :=
  if (length arr =? 0)%nat then Some (Fin 0)
  else
    let tmp := sort_by (fun a b => sub a b) arr in
    let last := sub (of_nat (length tmp)) (Fin 1) in
    let idx := Math_min last (Math_max (Fin 0) (Math_floor (mul64 p last))) in
    index tmp idx.

Definition arraySub (a b : list num) : list num :=
  let n := Nat.min (length a) (length b) in
  (* [new Array(n)]: n holes, each of them assigned by the loop *)
  for_range 0 n (fun i out => upd out i (sub (get a i) (get b i))) (repeat NaN n).

Record Summary : Type := mkSummary {
  s_mean : num;
  s_median : num;
  s_std : num;
  s_p90 : option num
}.

Definition summarize (arr : list num) : Summary :=
  {| s_mean := mean arr;
     s_median := median arr;
     s_std := stddev arr;
     s_p90 := percentile arr (Fin (9 / 10)) |}.

Definition centerZ (arr : list num) : list num :=
  let m := mean arr in
  map (fun x => sub x m) arr.

Definition autocorr (arr : list num) (maxLag : nat) : list num :=
  let n := length arr in
  let varX := or_else (variance arr) (Fin (1 / 10 ^ 12)) in
  for_range 0 (maxLag + 1)
    (fun lag out =>
       let s := for_range lag n
                  (fun i s => add s (mul (get arr i) (get arr (i - lag)))) (Fin 0) in
       upd out lag (div s (mul (sub (of_nat n) (of_nat lag)) varX)))
    (repeat (Fin 0) (maxLag + 1)).

(** ** 32-bit integer operators *)

(** [ToInt32] *)
Definition to_int32 (z : Z) : Z :=
  let m := (z mod 2 ^ 32)%Z in
  if (m <? 2 ^ 31)%Z then m else (m - 2 ^ 32)%Z.

(** [a << k] *)
Definition shl32 (a k : Z) : Z := to_int32 (Z.shiftl (to_int32 a) (k mod 32)).

(** [a >> k] *)
Definition sar32 (a k : Z) : Z := Z.shiftr (to_int32 a) (k mod 32).

(** [Math.ceil(Math.log2(m))] for an integer [m >= 1], with [Math.log2]
    taken as exact. *)
Definition ceil_log2 (m : Z) : Z := Z.log2_up m.

(** ** Spectral engine *)

Definition swap (a : list num) (i j : nat) : list num :=
  upd (upd a i (get a j)) j (get a i).

(** [while (m >= 1 && j >= m) { j -= m; m >>= 1; }].  [m] is a non-negative
    32-bit integer that halves at every turn, so 32 turns always reach the
    exit (lemma [rev_while_exit]). *)
Fixpoint rev_while (fuel : nat) (j m : Z) : Z * Z :=
  match fuel with
  | O => (j, m)
  | S f =>
      if ((1 <=? m) && (m <=? j))%Z
      then rev_while f (j - m)%Z (sar32 m 1)
      else (j, m)
  end.

Definition bit_reversal (re im : list num) : list num * list num :=
  let n := Z.of_nat (length re) in
  let '(re, im, _) :=
    for_range 0 (length re)
      (fun i '(re, im, j) =>
         let '(re, im) :=
           if (Z.of_nat i <? j)%Z
           then (swap re i (Z.to_nat j), swap im i (Z.to_nat j))
           else (re, im) in
         let '(j, m) := rev_while 32 j (sar32 n 1) in
         (re, im, (j + m)%Z))
      (re, im, 0%Z) in
  (re, im).

(** The body of [for (let len = 2; ...)] for one positive [len]: the loop
    [for (let i = 0; i < n; i += len)] runs for [i = 0, len, 2 len, ...]. *)
Definition stage (n len : Z) (st : list num * list num) : list num * list num :=
  let ang := div (Fin (-2 * PI)) (of_Z len) in
  let wlenRe := Math_cos ang in
  let wlenIm := Math_sin ang in
  let half := Z.to_nat (len / 2) in
  for_range 0 (Z.to_nat ((n + len - 1) / len))
    (fun q '(re, im) =>
       let i := (q * Z.to_nat len)%nat in
       let '(re, im, _, _) :=
         for_range 0 half
           (fun j '(re, im, wRe, wIm) =>
              let uRe := get re (i + j) in
              let uIm := get im (i + j) in
              let vRe := sub (mul (get re (i + j + half)) wRe)
                             (mul (get im (i + j + half)) wIm) in
              let vIm := add (mul (get re (i + j + half)) wIm)
                             (mul (get im (i + j + half)) wRe) in
              let re := upd re (i + j) (add uRe vRe) in
              let im := upd im (i + j) (add uIm vIm) in
              let re := upd re (i + j + half) (sub uRe vRe) in
              let im := upd im (i + j + half) (sub uIm vIm) in
              let tRe := sub (mul wRe wlenRe) (mul wIm wlenIm) in
              let tIm := add (mul wRe wlenIm) (mul wIm wlenRe) in
              (re, im, tRe, tIm))
           (re, im, Fin 1, Fin 0) in
       (re, im))
    st.

(** [for (let len = 2; len <= n; len <<= 1) stage].  [len] is a 32-bit
    integer: doubling 2^30 gives -2^31, and with a [len <= 0] the loop over
    [i] never reaches [n].  [None] stands for a call that does not return;
    31 doublings exhaust the positive values, so the fuel 32 of [fft] is
    never the reason for it. *)
Fixpoint butterflies (fuel : nat) (n len : Z) (st : list num * list num)
  : option (list num * list num) :=
  match fuel with
  | O => None
  | S f =>
      if (len <=? n)%Z
      then if (len <=? 0)%Z then None
           else butterflies f n (shl32 len 1) (stage n len st)
      else Some st
  end.

(** Cooley-Tukey iterative FFT; the arrays are updated in place, the model
    returns their final contents. *)
Definition fft (re im : list num) : option (list num * list num) :=
  butterflies 32 (Z.of_nat (length re)) 2 (bit_reversal re im).

(** [re.set(arr)] for [arr] no longer than [re]. *)
Definition typed_set (re arr : list num) : list num :=
  arr ++ skipn (length arr) re.

(** [None]: the call does not return a spectrum.  [new Float64Array(n)] throws
    a RangeError for a negative [n], [re.set(arr)] throws one when [arr] is
    longer than [re], and [fft] may not return. *)
Definition magnitudeFFT (arr : list num) : option (list num) :=
  let n := shl32 1 (ceil_log2 (Z.max 2 (Z.of_nat (length arr)))) in
  if ((n <? 0) || (n <? Z.of_nat (length arr)))%Z then None
  else
    let re := typed_set (repeat (Fin 0) (Z.to_nat n)) arr in
    let im := repeat (Fin 0) (Z.to_nat n) in
    match fft re im with
    | None => None
    | Some (re, im) =>
        Some (for_range 1 (Z.to_nat (n / 2))
                (fun k mag => upd mag k (Math_hypot (get re k) (get im k)))
                (repeat (Fin 0) (Z.to_nat (n / 2))))
    end.

Record Peak : Type := mkPeak {
  peakFreqHz : num;
  peakStrength : num
}.

(** The loop of [dominantFrequency]: the pair [(bestK, best)] after it. *)
Definition peak_search (mag : list num) : nat * num :=
  for_range 1 (length mag)
    (fun k '(bestK, best) =>
       if gt (get mag k) best then (k, get mag k) else (bestK, best))
    (O, Fin 0).

Definition dominantFrequency (mag : list num) (nominalFps : num) : Peak :=
  let N := (length mag * 2)%nat in
  let sampleRate := or_else nominalFps (Fin 30) in
  let '(bestK, best) := peak_search mag in
  let freq := div (mul (of_nat bestK) sampleRate) (of_nat N) in
  let norm := div best (add (fold_left (fun s x => add s x) mag (Fin 0))
                            (Fin (1 / 10 ^ 9))) in
  {| peakFreqHz := freq; peakStrength := norm |}.

(** ** Rounding, safe division, argmax *)

(** The value of the decimal string [x.toFixed(d)] for a finite [x]: the
    multiple of [10^-d] nearest to [x], a tie going away from zero.  (From
    [10^21] on [toFixed] prints the number itself; a binary64 number that
    large is an integer, on which the formula below is the identity too.) *)
Definition toFixed (x : R) (d : nat) : R :=
  let n := Zfloor (Rabs x * 10 ^ d + 1 / 2) in
  if Rltb x 0 then - (IZR n / 10 ^ d) else IZR n / 10 ^ d.

Definition round (x : num) (d : nat) : num :=
  match x with
  | Fin r => Fin (toFixed r d)
  | _ => Fin 0
  end.

(** [round] applied to a value that may be [undefined]:
    [Number.isFinite(undefined)] is false. *)
Definition round_val (v : option num) (d : nat) : num :=
  match v with
  | Some x => round x d
  | None => Fin 0
  end.

Definition safeDiv (a b : num) : num :=
  if truthy b then div a b else Fin 0.

Definition argmax (arr : list num) : nat :=
  for_range 1 (length arr)
    (fun i maxIndex => if gt (get arr i) (get arr maxIndex) then i else maxIndex)
    O.

(** ** The probe *)

(** The options object; [None] is a property left [undefined]. *)
Record Options : Type := mkOptions {
  opt_durationMs : option num;
  opt_targetFps : option num
}.

(** [const { durationMs = 5000, targetFps = 30 } = opts].  [durationMs] sets
    the deadline of the sampling phase and is not read after it. *)
Definition durationMs_of (opts : Options) : num :=
  match opt_durationMs opts with Some v => v | None => Fin 5000 end.

Definition targetFps_of (opts : Options) : num :=
  match opt_targetFps opts with Some v => v | None => Fin 30 end.

(** What one call of [stamp()] reads: [performance.now()] and
    [video.currentTime]. *)
Record Reading : Type := mkReading {
  now : num;
  currentTime : num
}.

(** [stamp()] on the two arrays [samples] and [vtimes]. *)
Definition stamp (r : Reading) (st : list num * list num) : list num * list num :=
  let '(samples, vtimes) := st in
  (push samples (now r), push vtimes (or_else (currentTime r) (Fin 0))).

(** The sampling phase.  Which callbacks fire, and when, is up to the
    browser; either sampler does nothing to the arrays but call [stamp()],
    so a run of it is given by the readings of its calls, in order. *)
Definition sampling (trace : list Reading) : list num * list num :=
  fold_left (fun st r => stamp r st) trace ([], []).

Inductive Sampler : Type := rVFC | rAF.

Record AcfReport : Type := mkAcf {
  bestLag : nat;
  bestCorr : num
}.

Record IfiReport : Type := mkIfi {
  meanMs : num;
  medianMs : num;
  stdMs : num;
  cv : num;
  p90Ms : num;
  p99Ms : num;
  dropRate : num;
  acf : AcfReport;
  spectrum : Peak
}.

Record DriftReport : Type := mkDrift {
  meanMsPerFrame : num;
  medianMsPerFrame : num;
  stdMsPerFrame : num;
  p90MsPerFrame : num
}.

Record RawReport : Type := mkRaw {
  raw_samples : list num;
  ifiCount : nat
}.

Record Report : Type := mkReport {
  sampler : Sampler;
  nFrames : nat;
  durationMs : num;
  fpsEst : num;
  ifi : IfiReport;
  drift : DriftReport;
  raw : RawReport
}.

(** The [const]s of the metrics part, each as a function of what it is
    computed from. *)
Definition ifis_of (samples : list num) : list num := diffs samples.

Definition fpsEst_of (meanIfi : num) : num :=
  if gt meanIfi (Fin 0) then div (Fin 1000) meanIfi else Fin 0.

Definition vdt_of (vtimes : list num) : list num :=
  map (fun s => mul s (Fin 1000)) (diffs vtimes).

Definition driftPerFrame_of (ifis vtimes : list num) : list num :=
  let vdt := vdt_of vtimes in
  let sdt := ifis in
  arraySub sdt vdt.

Definition acf_of (ifis : list num) : list num :=
  autocorr (centerZ ifis) (Nat.min 60 (length ifis / 2)).

Definition acfMaxLag_of (acf : list num) : nat := (argmax (skipn 1 acf) + 1)%nat.

Definition acfMax_of (acf : list num) : num :=
  match nth_error acf (acfMaxLag_of acf) with
  | Some v => v
  | None => Fin 0
  end.

Definition bigGapMs_of (targetFps : num) : num :=
  mul (div (Fin 1000) (Math_max (Fin 10) targetFps)) (Fin 3).

Definition dropCount_of (ifis : list num) (targetFps : num) : nat :=
  length (filter (fun x => gt x (bigGapMs_of targetFps)) ifis).

Definition dropRate_of (ifis : list num) (targetFps : num) : num :=
  safeDiv (of_nat (dropCount_of ifis targetFps)) (of_nat (length ifis)).

Definition duration_of (samples : list num) : num :=
  if (length samples =? 0)%nat then Fin 0
  else sub (get samples (length samples - 1)) (get samples 0).

(** [runTimingProbe(video, opts)] for a run whose sampling phase made the
    calls of [stamp()] listed in [trace]; [useRVFC] is the capability test.
    [None]: the call does not return a report. *)
Definition runTimingProbe (useRVFC : bool) (opts : Options) (trace : list Reading)
  : option Report :=
  let targetFps := targetFps_of opts in
  let '(samples, vtimes) := sampling trace in
  let ifis := ifis_of samples in
  let medIfi := median ifis in
  let meanIfi := mean ifis in
  let stdIfi := stddev ifis in
  let cvIfi := safeDiv stdIfi meanIfi in
  let p90Ifi := percentile ifis (Fin (9 / 10)) in
  let p99Ifi := percentile ifis (Fin (99 / 100)) in
  let fpsEst := fpsEst_of meanIfi in
  let driftStats := summarize (driftPerFrame_of ifis vtimes) in
  let ifiCentered := centerZ ifis in
  let acf := acf_of ifis in
  let acfMaxLag := acfMaxLag_of acf in
  let acfMax := acfMax_of acf in
  match magnitudeFFT ifiCentered with
  | None => None
  | Some spectrum =>
      let pk := dominantFrequency spectrum (if truthy fpsEst then fpsEst else Fin 30) in
      let dropRate := dropRate_of ifis targetFps in
      Some
        {| sampler := if useRVFC then rVFC else rAF;
           nFrames := length samples;
           durationMs := duration_of samples;
           fpsEst := fpsEst;
           ifi :=
             {| meanMs := round meanIfi 3;
                medianMs := round medIfi 3;
                stdMs := round stdIfi 3;
                cv := round cvIfi 6;
                p90Ms := round_val p90Ifi 3;
                p99Ms := round_val p99Ifi 3;
                dropRate := round dropRate 6;
                acf := {| bestLag := acfMaxLag; bestCorr := round acfMax 6 |};
                spectrum :=
                  {| peakFreqHz := round (peakFreqHz pk) 4;
                     peakStrength := round (peakStrength pk) 6 |} |};
           drift :=
             {| meanMsPerFrame := round (s_mean driftStats) 3;
                medianMsPerFrame := round (s_median driftStats) 3;
                stdMsPerFrame := round (s_std driftStats) 3;
                p90MsPerFrame := round_val (s_p90 driftStats) 3 |};
           raw := {| raw_samples := firstn 5 samples; ifiCount := length ifis |} |}
  end.

(** ** The sampling strategies *)

(** [a >= b]; false when either side is NaN. *)
Definition ge (a b : num) : bool :=
  match a, b with
  | NaN, _ | _, NaN => false
  | _, _ => negb (lt a b)
  end.

(** What the browser supplies to one frame callback: the timestamp passed
    to the callback, what [stamp()] reads if the callback calls it, and what
    the test for going on reads ([performance.now()], [video.ended],
    [document.visibilityState === 'visible']). *)
Record Callback : Type := mkCallback {
  cb_now : num;
  cb_reading : Reading;
  cb_clock : num;
  cb_ended : bool;
  cb_visible : bool
}.

(** [sampleWithRVFC]: [step] is run by each frame callback in turn; it
    stamps, then registers itself again or resolves.  [stamps] are the
    calls of [stamp()] made so far.  [None]: the callbacks end before the
    promise is resolved, and the probe stays pending. *)
Fixpoint sampleWithRVFC (endBy : num) (cbs : list Callback) (stamps : list Reading)
  : option (list Reading) :=
  match cbs with
  | [] => None
  | c :: rest =>
      let stamps := stamps ++ [cb_reading c] in
      if lt (cb_clock c) endBy && negb (cb_ended c)
      then sampleWithRVFC endBy rest stamps
      else Some stamps
  end.

(** [sampleWithRAF]: [step] stamps only when [last] is falsy or the
    callback timestamp is at least [(1000 / targetFps) * 0.8] past it. *)
Fixpoint sampleWithRAF (endBy targetFps : num) (cbs : list Callback) (last : num)
         (stamps : list Reading) : option (list Reading) :=
  match cbs with
  | [] => None
  | c :: rest =>
      let now := cb_now c in
      let '(stamps, last) :=
        if negb (truthy last)
           || ge (sub now last) (mul (div (Fin 1000) targetFps) (Fin (8 / 10)))
        then (stamps ++ [cb_reading c], now)
        else (stamps, last) in
      if lt (cb_clock c) endBy && negb (cb_ended c) && cb_visible c
      then sampleWithRAF endBy targetFps rest last stamps
      else Some stamps
  end.

(** [runTimingProbe] with its sampling phase: [start] is the value of
    [performance.now()] from which [endBy] is computed, [cbs] the frame
    callbacks the browser delivers. *)
Definition runTimingProbe_driven (useRVFC : bool) (opts : Options) (start : num)
           (cbs : list Callback) : option Report :=
  let endBy := add start (durationMs_of opts) in
  match (if useRVFC then sampleWithRVFC endBy cbs []
         else sampleWithRAF endBy (targetFps_of opts) cbs (Fin 0) []) with
  | None => None
  | Some stamps => runTimingProbe useRVFC opts stamps
  end.

(** ** Average hash and Hamming distance (main.js) *)

(** [px[k]] of a [Uint8ClampedArray] inside arithmetic: a read past the end
    is [undefined], which arithmetic turns into NaN. *)
Definition px_at (px : list Byte.byte) (k : nat) : num :=
  match nth_error px k with
  | Some v => of_Z (Z.of_N (Byte.to_N v))
  | None => NaN
  end.

(** [0.2126 * r + 0.7152 * g + 0.0722 * b] for pixel [i]. *)
Definition luminance (px : list Byte.byte) (i : nat) : num :=
  let r := px_at px (i * 4) in
  let g := px_at px (i * 4 + 1) in
  let b := px_at px (i * 4 + 2) in
  add (add (mul (Fin (2126 / 10000)) r) (mul (Fin (7152 / 10000)) g))
      (mul (Fin (722 / 10000)) b).

(** [aHash(imageData, w, h)] ([w] and [h] default to 8); [px] is
    [imageData.data], the result a BigInt. *)
Definition aHash (px : list Byte.byte) (w h : nat) : Z :=
  let '(vals, sum) :=
    for_range 0 (w * h)
      (fun i '(vals, sum) =>
         let lum := luminance px i in (push vals lum, add sum lum))
      ([], Fin 0) in
  let mean := div sum (of_nat (w * h)) in
  for_range 0 (length vals)
    (fun i hash =>
       if ge (get vals i) mean
       then Z.lor hash (Z.shiftl 1 (Z.of_nat i)) else hash)
    0%Z.

(** The loop of [hamming] on the BigInt [x]: [while (x) { count +=
    Number(x & 1n); x >>= 1n; }].  [None]: the loop has not ended within
    [fuel] turns. *)
Fixpoint hamming_loop (fuel : nat) (x : Z) (count : nat) : option nat :=
  match fuel with
  | O => None
  | S f =>
      if (x =? 0)%Z then Some count
      else hamming_loop f (Z.shiftr x 1) (count + Z.to_nat (Z.land x 1))
  end.

Definition hamming (fuel : nat) (a b : Z) : option nat :=
  hamming_loop fuel (Z.lxor a b) 0.

(** ** Reference definitions

    The statements below speak about sequences of real numbers; [fins]
    turns one into an array of the program. *)

Definition fins (l : list R) : list num := map Fin l.

Definition Rsum (l : list R) : R := fold_right Rplus 0 l.

(** The arithmetic mean of a non-empty sequence. *)
Definition mean_R (l : list R) : R := Rsum l / INR (length l).

(** The sample variance as the design document words it: the sum of the
    squared deviations from the mean, divided by [n - 1]. *)
Definition sample_variance (l : list R) : R :=
  Rsum (map (fun x => (x - mean_R l) * (x - mean_R l)) l) / (INR (length l) - 1).

(** [clamp z lo hi]: [z] brought into [lo .. hi]. *)
Definition clamp (z lo hi : Z) : Z := Z.min hi (Z.max lo z).

(** The nearest-rank index as the design document words it:
    [clamp(floor(p (n - 1)), 0, n - 1)]. *)
Definition rank_index (n : nat) (p : R) : nat :=
  Z.to_nat (clamp (Zfloor (p * (INR n - 1))) 0 (Z.of_nat n - 1)).

(** The nearest-rank index with the product rounded to binary64:
    [clamp(floor(fl(p (n - 1))), 0, n - 1)]. *)
Definition rank_index64 (n : nat) (p : R) : nat :=
  Z.to_nat (clamp (Zfloor (b64 (p * (INR n - 1)))) 0 (Z.of_nat n - 1)).

(** The binary64 number nearest to 0.99: the value of the literal [0.99]. *)
Definition double_0_99 : R := 8917127262193582 / 9007199254740992.

(** The padded length as the design document words it: the next power of
    two at or above [max(2, N)]. *)
Definition padded_size (N : nat) : Z := (2 ^ Z.log2_up (Z.max 2 (Z.of_nat N)))%Z.

(** Both arrays of a state of the FFT have kept their lengths. *)
Definition same_lengths (re im : list num) (st : list num * list num) : Prop :=
  length (fst st) = length re /\ length (snd st) = length im.



(** [rounded d v y]: the report value [y] is [v] rounded to [d] decimals.
    [y] is a multiple of [10^-d]; it lies within half a unit of the last
    digit of a finite [v], and is 0 for a [v] that is not a finite number
    ([None] is [undefined]). *)
Definition rounded (d : nat) (v : option num) (y : num) : Prop :=
  exists k : Z,
    y = Fin (IZR k / 10 ^ d) /\
    match v with
    | Some (Fin x) => Rabs (IZR k / 10 ^ d - x) <= / 2 / 10 ^ d
    | _ => k = 0%Z
    end.

(** The number of bit positions below [n] in which [a] and [b] differ. *)
Definition differing_bits (a b : Z) (n : nat) : nat :=
  length (filter (fun i => xorb (Z.testbit a (Z.of_nat i)) (Z.testbit b (Z.of_nat i)))
                 (seq 0 n)).

(** The callbacks a sampler gets through before it resolves: those up to
    and including the first one whose test for going on fails. *)
Fixpoint until_stop (go_on : Callback -> bool) (cbs : list Callback)
  : option (list Callback) :=
  match cbs with
  | [] => None
  | c :: rest =>
      if go_on c
      then match until_stop go_on rest with
           | Some l => Some (c :: l)
           | None => None
           end
      else Some [c]
  end.

(** [subseq k l]: [k] is [l] with some entries left out. *)
Inductive subseq {A : Type} : list A -> list A -> Prop :=
| subseq_nil : subseq [] []
| subseq_skip : forall x k l, subseq k l -> subseq k (x :: l)
| subseq_keep : forall x k l, subseq k l -> subseq (x :: k) (x :: l).

(** Every callback of [kept] after the first has a timestamp at least [thr]
    past the one before it, unless that one is falsy (0 or NaN). *)
Fixpoint spaced (thr : num) (last : num) (kept : list Callback) : Prop :=
  match kept with
  | [] => True
  | c :: rest =>
      (truthy last = false \/ ge (sub (cb_now c) last) thr = true) /\
      spaced thr (cb_now c) rest
  end.

(** The median of an ascending sequence: the middle entry, or the mean of
    the two middle entries of a sequence of even length. *)
Definition median_of_sorted (T : list R) : R :=
  if (length T mod 2 =? 0)%nat
  then (nth (length T / 2 - 1) T 0 + nth (length T / 2) T 0) / 2
  else nth (length T / 2) T 0.

(** The number of bits of [x] set below position [n]. *)
Definition popcount (x : Z) (n : nat) : nat :=
  length (filter (fun i => Z.testbit x (Z.of_nat i)) (seq 0 n)).

(** [sum / (w * h)] of [aHash], for [n = w * h] pixels. *)
Definition mean_luminance (px : list Byte.byte) (n : nat) : num :=
  div (fold_left (fun s x => add s x) (map (luminance px) (seq 0 n)) (Fin 0))
      (of_nat n).

(** Complex numbers as pairs of reals, for the statement of what the FFT
    computes. *)
Definition cplx : Type := (R * R)%type.

Definition Cadd (a b : cplx) : cplx := (fst a + fst b, snd a + snd b).
Definition Csub (a b : cplx) : cplx := (fst a - fst b, snd a - snd b).
Definition Cmul (a b : cplx) : cplx :=
  (fst a * fst b - snd a * snd b, fst a * snd b + snd a * fst b).

(** [cis t] is [cos t + i sin t]. *)
Definition cis (t : R) : cplx := (cos t, sin t).

(** [Csum f m] is [f 0 + ... + f (m - 1)]. *)
Fixpoint Csum (f : nat -> cplx) (m : nat) : cplx :=
  match m with
  | O => (0, 0)
  | S m' => Cadd (Csum f m') (f m')
  end.

(** Bin [k] of the discrete Fourier transform of the [n]-point sequence
    [x]: the sum of [x t * exp(-2 pi i k t / n)] over [t < n]. *)
Definition dft (x : nat -> cplx) (n k : nat) : cplx :=
  Csum (fun t => Cmul (x t) (cis (- 2 * PI * (INR k * INR t) / INR n))) n.

(** The entry [t] of a pair of arrays of reals, as a complex number. *)
Definition centry (xr xi : list R) (t : nat) : cplx := (nth t xr 0, nth t xi 0).

(** [bitrev e i]: the [e] low bits of [i] in reverse order. *)
Fixpoint bitrev (e : nat) (i : nat) : nat :=
  match e with
  | O => O
  | S e' => (2 ^ e' * (i mod 2) + bitrev e' (i / 2))%nat
  end.

(** The loop [while (m >= 1 && j >= m) { j -= m; m >>= 1; } j += m] when
    [m] starts at [2^(d-1)] ([0] for [d = 0]): the value of [j] after it. *)
Fixpoint rev_inc (d : nat) (j : nat) : nat :=
  match d with
  | O => j
  | S d' => if (j <? 2 ^ d')%nat then (j + 2 ^ d')%nat else rev_inc d' (j - 2 ^ d')
  end.

(** What one pass of butterflies of span [2 * half] with the twiddle angle
    [theta] makes of the sequence [f]. *)
Definition bfly (half : nat) (theta : R) (f : nat -> cplx) (k : nat) : cplx :=
  let j := (k mod (2 * half))%nat in
  if (j <? half)%nat
  then Cadd (f k) (Cmul (f (k + half)%nat) (cis (INR j * theta)))
  else Csub (f (k - half)%nat) (Cmul (f k) (cis (INR (j - half) * theta))).

(** The arrays [re] and [im] hold the [n] complex numbers [f 0 .. f (n-1)]. *)
Definition holds (re im : list num) (n : nat) (f : nat -> cplx) : Prop :=
  length re = n /\ length im = n /\
  forall k, (k < n)%nat -> get re k = Fin (fst (f k)) /\ get im k = Fin (snd (f k)).

(** The contents of the arrays after the passes of span [2, 4, .., 2^s] on
    [2^e] entries: block [b] of [2^s] entries holds the [2^s]-point transform
    of the entries of [x] at the indices [t * 2^(e-s) + bitrev (e-s) b]. *)
Definition sub_dft (x : nat -> cplx) (e s : nat) (i : nat) : cplx :=
  let b := (i / 2 ^ s)%nat in
  let k := (i mod 2 ^ s)%nat in
  Csum (fun t => Cmul (x (t * 2 ^ (e - s) + bitrev (e - s) b)%nat)
                      (cis (- 2 * PI * (INR k * INR t) / INR (2 ^ s))))
       (2 ^ s).

(** The modulus of a complex number. *)
Definition Cabs (z : cplx) : R := sqrt (fst z * fst z + snd z * snd z).

(** A real series followed by zeros, as a complex sequence. *)
Definition padded (l : list R) (t : nat) : cplx := (nth t l 0, 0).

(** [n] samples of a sinusoid of amplitude [A] and phase [phi] that makes
    [k0] whole cycles over the [n] samples. *)
Definition tone (A phi : R) (k0 n : nat) : list R :=
  map (fun t => A * cos (2 * PI * INR k0 * INR t / INR n + phi)) (seq 0 n).

(** * Properties *)

(** ** Decisions on reals *)

Lemma Rltb_true (x y : R) : x < y -> Rltb x y = true.
Proof. intros H; unfold Rltb; destruct (Rlt_dec x y); [reflexivity | contradiction]. Qed.

Lemma Rltb_false (x y : R) : y <= x -> Rltb x y = false.
Proof. intros H; unfold Rltb; destruct (Rlt_dec x y); [lra | reflexivity]. Qed.

Lemma Rltb_spec (x y : R) : Rltb x y = true <-> x < y.
Proof. unfold Rltb; destruct (Rlt_dec x y); split; (easy || lra). Qed.

Lemma Rzerob_true (x : R) : x = 0 -> Rzerob x = true.
Proof. intros H; unfold Rzerob; destruct (Req_dec_T x 0); [reflexivity | contradiction]. Qed.

Lemma Rzerob_false (x : R) : x <> 0 -> Rzerob x = false.
Proof. intros H; unfold Rzerob; destruct (Req_dec_T x 0); [contradiction | reflexivity]. Qed.

Lemma Fin_inj (x y : R) : Fin x = Fin y -> x = y.
Proof. intros H; injection H; trivial. Qed.

Lemma div_Fin (x y : R) : y <> 0 -> div (Fin x) (Fin y) = Fin (x / y).
Proof. intros H; simpl; rewrite Rzerob_false by assumption; reflexivity. Qed.

Lemma INR_pos_nonzero (n : nat) : (0 < n)%nat -> INR n <> 0.
Proof. intros H; apply not_0_INR; lia. Qed.

(** Decides the comparisons of closed real expressions left in a goal. *)
Ltac decide_reals :=
  repeat match goal with
    | |- context [Rltb ?a ?b] =>
        first [ rewrite (Rltb_true a b) by lra | rewrite (Rltb_false a b) by lra ]
    | |- context [Rzerob ?a] =>
        first [ rewrite (Rzerob_true a) by lra | rewrite (Rzerob_false a) by lra ]
    end.

(** ** Loops and arrays *)

Section Loops.
Context {S : Type}.
Variable body : nat -> S -> S.

Lemma for_range_empty (lo hi : nat) (s : S) :
  (hi <= lo)%nat -> for_range lo hi body s = s.
Proof.
  intros H; unfold for_range.
  replace (hi - lo)%nat with O by lia; reflexivity.
Qed.

Lemma for_range_last (lo hi : nat) (s : S) :
  (lo <= hi)%nat ->
  for_range lo (Datatypes.S hi) body s = body hi (for_range lo hi body s).
Proof.
  intros H; unfold for_range.
  replace (Datatypes.S hi - lo)%nat with (Datatypes.S (hi - lo)) by lia.
  rewrite seq_S, fold_left_app; simpl.
  replace (lo + (hi - lo))%nat with hi by lia; reflexivity.
Qed.

(** The invariant rule of the [for] loop. *)
Lemma for_range_inv (P : nat -> S -> Prop) (lo hi : nat) (s : S) :
  (lo <= hi)%nat ->
  P lo s ->
  (forall i t, (lo <= i < hi)%nat -> P i t -> P (Datatypes.S i) (body i t)) ->
  P hi (for_range lo hi body s).
Proof.
  intros Hle H0 Hstep.
  induction hi as [|hi IH].
  - replace lo with O in * by lia. rewrite for_range_empty by lia; assumption.
  - destruct (Nat.eq_dec lo (Datatypes.S hi)) as [->|Hne].
    + rewrite for_range_empty by lia; assumption.
    + rewrite for_range_last by lia.
      apply Hstep; [lia|].
      apply IH; [lia|].
      intros i t Hi; apply Hstep; lia.
Qed.
End Loops.

Lemma for_range_ext {S : Type} (b1 b2 : nat -> S -> S) (lo hi : nat) (s : S) :
  (forall i t, (lo <= i < hi)%nat -> b1 i t = b2 i t) ->
  for_range lo hi b1 s = for_range lo hi b2 s.
Proof.
  intros Hext.
  destruct (Nat.le_gt_cases lo hi) as [Hle|Hgt];
    [|now rewrite !for_range_empty by lia].
  induction hi as [|hi IH].
  - now rewrite !for_range_empty by lia.
  - destruct (Nat.eq_dec lo (Datatypes.S hi)) as [->|Hne].
    + now rewrite !for_range_empty by lia.
    + rewrite !for_range_last by lia.
      rewrite IH; [apply Hext; lia | | lia].
      intros i t Hi; apply Hext; lia.
Qed.

Lemma length_upd (arr : list num) (i : nat) (v : num) :
  length (upd arr i v) = length arr.
Proof.
  revert i; induction arr as [|h t IH]; intros [|i]; simpl; auto.
Qed.

Lemma upd_app_here (l1 l2 : list num) (x v : num) (k : nat) :
  k = length l1 -> upd (l1 ++ x :: l2) k v = l1 ++ v :: l2.
Proof.
  intros ->; induction l1 as [|h t IH]; simpl; [reflexivity | now rewrite IH].
Qed.

Lemma get_upd_same (arr : list num) (i : nat) (v : num) :
  (i < length arr)%nat -> get (upd arr i v) i = v.
Proof.
  unfold get; revert i; induction arr as [|h t IH]; intros [|i] H; simpl in *;
    try lia; [reflexivity | apply IH; lia].
Qed.

Lemma get_upd_other (arr : list num) (i j : nat) (v : num) :
  i <> j -> get (upd arr i v) j = get arr j.
Proof.
  unfold get; revert i j; induction arr as [|h t IH]; intros [|i] [|j] H; simpl;
    try reflexivity; try lia.
  apply IH; lia.
Qed.

Lemma skipn_cons_nth (l : list num) (k : nat) :
  (k < length l)%nat -> skipn k l = get l k :: skipn (Datatypes.S k) l.
Proof.
  unfold get; revert k; induction l as [|h t IH]; intros [|k] H; simpl in *;
    try lia; [reflexivity | apply IH; lia].
Qed.

(** A loop that assigns [out[i] = f i] for [i = 0 .. n-1] to an array of
    length [n] builds [[f 0; ...; f (n-1)]]. *)
Lemma for_range_upd_map (f : nat -> num) (n : nat) (init : list num) :
  length init = n ->
  for_range 0 n (fun i out => upd out i (f i)) init = map f (seq 0 n).
Proof.
  intros Hlen.
  assert (H : forall k, (k <= n)%nat ->
            for_range 0 k (fun i out => upd out i (f i)) init
            = map f (seq 0 k) ++ skipn k init).
  { induction k as [|k IH]; intros Hk.
    - rewrite for_range_empty by lia; reflexivity.
    - rewrite for_range_last by lia. rewrite IH by lia.
      rewrite (skipn_cons_nth init k) by lia.
      rewrite upd_app_here by now rewrite length_map, length_seq.
      rewrite seq_S, map_app; simpl.
      now rewrite <- app_assoc. }
  rewrite H by lia.
  rewrite skipn_all2 by lia. apply app_nil_r.
Qed.

(** A loop that pushes [f i] for [i = lo .. hi-1]. *)
Lemma for_range_push_map (f : nat -> num) (lo hi : nat) (init : list num) :
  for_range lo hi (fun i out => push out (f i)) init
  = init ++ map f (seq lo (hi - lo)).
Proof.
  unfold for_range. generalize (seq lo (hi - lo)) as l. intros l; revert init.
  induction l as [|i l IH]; intros init; simpl.
  - now rewrite app_nil_r.
  - rewrite IH; unfold push; now rewrite <- app_assoc.
Qed.

(** ** Sums of finite values *)

Lemma fold_add_fins (g : R -> R) (l : list R) (a : R) (f : num -> num) :
  (forall x, f (Fin x) = Fin (g x)) ->
  fold_left (fun s x => add s (f x)) (fins l) (Fin a) = Fin (a + Rsum (map g l)).
Proof.
  intros Hf; revert a; induction l as [|x l IH]; intros a; simpl.
  - f_equal; lra.
  - rewrite Hf; simpl; rewrite IH; f_equal; lra.
Qed.

Lemma sum_fins (l : list R) :
  fold_left (fun s x => add s x) (fins l) (Fin 0) = Fin (Rsum l).
Proof.
  rewrite (fold_add_fins (fun x => x) l 0 (fun x => x)) by reflexivity.
  rewrite map_id; f_equal; lra.
Qed.

Lemma length_fins (l : list R) : length (fins l) = length l.
Proof. apply length_map. Qed.

Lemma get_fins (l : list R) (i : nat) :
  (i < length l)%nat -> get (fins l) i = Fin (nth i l 0).
Proof.
  intros H; unfold get, fins.
  rewrite (nth_indep _ NaN (Fin 0)) by now rewrite length_map.
  apply (map_nth Fin).
Qed.

(** ** Statistics kernel *)

Lemma mean_fins (l : list R) :
  l <> [] -> mean (fins l) = Fin (mean_R l).
Proof.
  intros Hne; unfold mean, mean_R.
  rewrite length_fins.
  destruct l as [|x l]; [contradiction|].
  change (length (x :: l) =? 0)%nat with false; cbv iota.
  rewrite sum_fins. unfold of_nat.
  apply div_Fin, INR_pos_nonzero; simpl; lia.
Qed.

Lemma Rsum_squares_nonneg (g : R -> R) (l : list R) :
  0 <= Rsum (map (fun x => g x * g x) l).
Proof.
  induction l as [|x l IH]; simpl; [lra|].
  pose proof (Rle_0_sqr (g x)) as H; unfold Rsqr in H; lra.
Qed.

Lemma sample_variance_nonneg (l : list R) :
  (2 <= length l)%nat -> 0 <= sample_variance l.
Proof.
  intros H; unfold sample_variance.
  apply Rmult_le_pos.
  - apply (Rsum_squares_nonneg (fun x => x - mean_R l)).
  - apply Rlt_le, Rinv_0_lt_compat.
    apply le_INR in H; simpl in H; lra.
Qed.

Lemma variance_short (arr : list num) :
  (length arr < 2)%nat -> variance arr = Fin 0.
Proof.
  intros H; unfold variance.
  destruct (Nat.ltb_spec (length arr) 2); [reflexivity | lia].
Qed.

Lemma variance_fins (l : list R) :
  (2 <= length l)%nat -> variance (fins l) = Fin (sample_variance l).
Proof.
  intros H; unfold variance, sample_variance.
  rewrite length_fins.
  destruct (Nat.ltb_spec (length l) 2); [lia|].
  rewrite mean_fins by (destruct l; simpl in *; [lia | discriminate]).
  rewrite (fold_add_fins (fun x => (x - mean_R l) * (x - mean_R l))) by reflexivity.
  unfold of_nat; simpl sub.
  rewrite div_Fin.
  - f_equal; f_equal; lra.
  - apply le_INR in H; simpl in H; lra.
Qed.

Lemma sqrt_max0_Fin (v : R) :
  0 <= v -> Math_sqrt (Math_max (Fin 0) (Fin v)) = Fin (sqrt v).
Proof.
  intros Hv; simpl.
  destruct (Rlt_dec 0 v) as [Hlt|Hge].
  - rewrite Rltb_true by assumption; simpl. now rewrite Rltb_false.
  - rewrite Rltb_false by lra; simpl. rewrite Rltb_false by lra.
    f_equal; f_equal; lra.
Qed.

(** C9.  On every sequence of reals the variance is a real [v >= 0], the
    standard deviation is its square root, [v] is 0 for fewer than two
    elements and the sample variance (squared deviations summed, divided by
    [n - 1]) from two elements on. *)
Theorem variance_stddev_spec (l : list R) :
  exists v : R,
    variance (fins l) = Fin v /\
    0 <= v /\
    stddev (fins l) = Fin (sqrt v) /\
    stddev (fins l) = Math_sqrt (variance (fins l)) /\
    ((length l < 2)%nat -> v = 0) /\
    ((2 <= length l)%nat -> v = sample_variance l).
Proof.
  destruct (Nat.lt_ge_cases (length l) 2) as [Hs|Hl].
  - exists 0. unfold stddev.
    rewrite variance_short by now rewrite length_fins.
    rewrite sqrt_max0_Fin by lra.
    repeat split; try lra; try lia.
    simpl. now rewrite Rltb_false by lra.
  - exists (sample_variance l). unfold stddev.
    rewrite variance_fins by assumption.
    pose proof (sample_variance_nonneg l Hl) as Hv.
    rewrite sqrt_max0_Fin by assumption.
    repeat split; try assumption; try lia.
    simpl. now rewrite Rltb_false by lra.
Qed.

(** ** Autocorrelation engine *)

(** [autocorr] as the list of its entries. *)
Lemma autocorr_entries (arr : list num) (maxLag : nat) :
  autocorr arr maxLag
  = map (fun lag =>
           div (for_range lag (length arr)
                  (fun i s => add s (mul (get arr i) (get arr (i - lag)))) (Fin 0))
               (mul (sub (of_nat (length arr)) (of_nat lag))
                    (or_else (variance arr) (Fin (1 / 10 ^ 12)))))
        (seq 0 (maxLag + 1)).
Proof.
  unfold autocorr. apply for_range_upd_map, repeat_length.
Qed.

Lemma length_autocorr (arr : list num) (maxLag : nat) :
  length (autocorr arr maxLag) = (maxLag + 1)%nat.
Proof. now rewrite autocorr_entries, length_map, length_seq. Qed.

Lemma fold_indices_sum (g : R -> R -> R) (pre c : list R) (a : R) :
  fold_left
    (fun s i => add s (Fin (g (nth i (pre ++ c) 0) (nth (i - 0) (pre ++ c) 0))))
    (seq (length pre) (length c)) (Fin a)
  = Fin (a + Rsum (map (fun x => g x x) c)).
Proof.
  revert pre a; induction c as [|x c IH]; intros pre a.
  - simpl. f_equal; lra.
  - cbn [length seq fold_left map].
    rewrite Nat.sub_0_r, nth_middle. cbn [add].
    replace (pre ++ x :: c) with ((pre ++ [x]) ++ c) by now rewrite <- app_assoc.
    replace (S (length pre)) with (length (pre ++ [x]))
      by (rewrite length_app; simpl; lia).
    rewrite IH. simpl. f_equal; lra.
Qed.

Lemma lag0_sum_fins (c : list R) :
  for_range 0 (length (fins c))
    (fun i s => add s (mul (get (fins c) i) (get (fins c) (i - 0)))) (Fin 0)
  = Fin (Rsum (map (fun x => x * x) c)).
Proof.
  rewrite length_fins.
  rewrite (for_range_ext _
             (fun i s => add s (Fin (nth i c 0 * nth (i - 0) c 0)))).
  - unfold for_range. rewrite Nat.sub_0_r.
    transitivity (Fin (0 + Rsum (map (fun x => x * x) c)));
      [exact (fold_indices_sum Rmult [] c 0) | f_equal; lra].
  - intros i s Hi. rewrite !get_fins by lia. reflexivity.
Qed.

(** What the code computes at lag 0: on a series of [n >= 2] reals with mean
    0 and a non-zero variance the entry of index 0 is [(n - 1) / n]. *)
Lemma autocorr_lag0_centered (c : list R) (maxLag : nat) :
  (2 <= length c)%nat -> mean_R c = 0 -> sample_variance c <> 0 ->
  get (autocorr (fins c) maxLag) 0 = Fin ((INR (length c) - 1) / INR (length c)).
Proof.
  intros Hn Hmean Hvar.
  rewrite autocorr_entries, Nat.add_1_r. cbn [seq map get nth].
  rewrite lag0_sum_fins, variance_fins by assumption.
  unfold or_else, truthy. rewrite Rzerob_false by assumption. cbn [negb].
  rewrite length_fins. unfold of_nat. cbn [sub mul INR].
  assert (Hpos : 2 <= INR (length c)) by (apply le_INR in Hn; simpl in Hn; lra).
  assert (Hss : sample_variance c
                = Rsum (map (fun x => x * x) c) / (INR (length c) - 1)).
  { unfold sample_variance. rewrite Hmean. f_equal. f_equal.
    apply map_ext. intros x. lra. }
  assert (Hs : Rsum (map (fun x => x * x) c) <> 0).
  { intros E. apply Hvar. rewrite Hss, E. lra. }
  rewrite div_Fin by (apply Rmult_integral_contrapositive_currified; lra).
  f_equal. rewrite Hss. field. lra.
Qed.

Lemma sample_variance_pm1 : sample_variance [1; -1] = 2.
Proof. unfold sample_variance, mean_R; simpl. field. Qed.

(** C1, evaluated.  The series [1, -1] has mean 0 and variance 2, and for
    every maximum lag the entry of index 0 of its autocorrelation is 1/2:
    the lag-0 sum of squares is divided by [n] times the sample variance,
    which divides by [n - 1]. *)
Theorem autocorr_lag0_is_half :
  mean (fins [1; -1]) = Fin 0 /\
  variance (fins [1; -1]) = Fin 2 /\
  (forall L : nat, get (autocorr (fins [1; -1]) L) 0 = Fin (1 / 2)) /\
  Fin (1 / 2) <> Fin 1.
Proof.
  assert (Hv : variance (fins [1; -1]) = Fin 2).
  { rewrite variance_fins by (simpl; lia). now rewrite sample_variance_pm1. }
  repeat split.
  - rewrite mean_fins by discriminate. unfold mean_R; simpl. f_equal; lra.
  - exact Hv.
  - intros L. rewrite autocorr_entries, Hv, Nat.add_1_r.
    unfold or_else, truthy. decide_reals.
    cbn [negb length fins map Nat.add seq for_range Nat.sub fold_left get nth
         mul add sub of_nat INR].
    rewrite div_Fin by lra. f_equal; lra.
  - intros H; apply Fin_inj in H; lra.
Qed.

(** ** Sorting and percentiles *)

Lemma insert_by_fins (x : R) (T : list R) :
  Sorted Rle T ->
  exists T',
    insert_by (fun a b => sub a b) (Fin x) (fins T) = fins T' /\
    Permutation T' (x :: T) /\
    Sorted Rle T' /\
    (forall a, a <= x -> HdRel Rle a T -> HdRel Rle a T').
Proof.
  induction T as [|y T IH]; intros HS.
  - exists [x]; simpl; repeat split; auto.
  - apply Sorted_inv in HS as [HS Hhd].
    destruct (IH HS) as (T' & Heq & Hperm & HS' & Hrel).
    simpl. destruct (Rlt_dec 0 (x - y)) as [Hlt|Hge].
    + rewrite Rltb_true by assumption.
      exists (y :: T'); repeat split.
      * simpl; now rewrite Heq.
      * rewrite Hperm; apply perm_swap.
      * constructor; [assumption | apply Hrel; [lra | assumption]].
      * intros a _ Ha; inversion Ha; subst; now constructor.
    + rewrite Rltb_false by lra.
      exists (x :: y :: T); repeat split.
      * reflexivity.
      * constructor; [constructor; assumption | constructor; lra].
      * intros a Ha _; now constructor.
Qed.

(** Sorting numbers with the comparator [(a, b) => a - b] gives the ascending
    arrangement. *)
Lemma sort_by_fins (l : list R) :
  exists T,
    sort_by (fun a b => sub a b) (fins l) = fins T /\
    Permutation T l /\ Sorted Rle T.
Proof.
  induction l as [|x l (T & Heq & Hperm & HS)].
  - exists []; simpl; auto.
  - destruct (insert_by_fins x T HS) as (T' & Heq' & Hperm' & HS' & _).
    exists T'; repeat split; [| | assumption].
    + change (sort_by (fun a b => sub a b) (fins (x :: l)))
        with (insert_by (fun a b => sub a b) (Fin x)
                (sort_by (fun a b => sub a b) (fins l))).
      now rewrite Heq.
    + rewrite Hperm'. now constructor.
Qed.

Lemma Math_max_Z (a b : Z) :
  Math_max (Fin (IZR a)) (Fin (IZR b)) = Fin (IZR (Z.max a b)).
Proof.
  simpl. destruct (Z.max_spec a b) as [[H ->]|[H ->]].
  - now rewrite Rltb_true by (apply IZR_lt; lia).
  - now rewrite Rltb_false by (apply IZR_le; lia).
Qed.

Lemma Math_min_Z (a b : Z) :
  Math_min (Fin (IZR a)) (Fin (IZR b)) = Fin (IZR (Z.min a b)).
Proof.
  simpl. destruct (Z.min_spec a b) as [[H ->]|[H ->]].
  - now rewrite Rltb_false by (apply IZR_le; lia).
  - destruct (Z.eq_dec a b) as [->|Hne]; [now rewrite Rltb_false by lra|].
    now rewrite Rltb_true by (apply IZR_lt; lia).
Qed.

Lemma index_Z (arr : list num) (k : Z) :
  (0 <= k)%Z -> index arr (Fin (IZR k)) = nth_error arr (Z.to_nat k).
Proof.
  intros Hk; unfold index. rewrite ZfloorZ.
  rewrite Rzerob_true by lra.
  rewrite Rltb_false by (apply IZR_le; lia). reflexivity.
Qed.

Lemma nth_error_fins (l : list R) (i : nat) :
  (i < length l)%nat -> nth_error (fins l) i = Some (Fin (nth i l 0)).
Proof.
  intros H. unfold fins. rewrite nth_error_map.
  now rewrite (nth_error_nth' l 0 H).
Qed.

Lemma INR_pred (n : nat) : INR n - 1 = IZR (Z.of_nat n - 1).
Proof. now rewrite minus_IZR, <- INR_IZR_INZ. Qed.

(** [percentile] on reals: the entry of rank [rank_index] of the sorted
    copy. *)
Lemma percentile_fins (l : list R) (p : R) (T : list R) :
  l <> [] ->
  sort_by (fun a b => sub a b) (fins l) = fins T ->
  length T = length l ->
  percentile (fins l) (Fin p) = Some (Fin (nth (rank_index (length l) p) T 0)).
Proof.
  intros Hne Hsort Hlen. unfold percentile.
  rewrite length_fins.
  destruct l as [|x l']; [contradiction|].
  change (length (x :: l') =? 0)%nat with false; cbv iota zeta.
  rewrite Hsort, length_fins, Hlen.
  set (n := length (x :: l')).
  assert (Hn : (0 < n)%nat) by (subst n; simpl; lia).
  unfold of_nat; cbn [sub mul Math_floor].
  rewrite INR_pred.
  rewrite Math_max_Z, Math_min_Z.
  rewrite index_Z by lia.
  rewrite nth_error_fins.
  - unfold rank_index, clamp. now rewrite INR_pred.
  - rewrite Hlen; fold n. lia.
Qed.

Lemma MinRlist_In (l : list R) : l <> [] -> In (MinRlist l) l.
Proof.
  induction l as [|a l IH]; [contradiction|]; intros _.
  destruct l as [|b l]; [now left|].
  change (MinRlist (a :: b :: l)) with (Rmin a (MinRlist (b :: l))).
  unfold Rmin; destruct (Rle_dec a (MinRlist (b :: l))); [now left|].
  right; apply IH; discriminate.
Qed.

Lemma sorted_first_is_min (T l : list R) :
  l <> [] -> Permutation T l -> Sorted Rle T -> nth 0 T 0 = MinRlist l.
Proof.
  intros Hne Hperm HS.
  destruct T as [|t T].
  { apply Permutation_nil in Hperm; contradiction. }
  simpl. apply Rle_antisym.
  - apply Sorted_StronglySorted in HS; [|intros a b c; apply Rle_trans].
    apply StronglySorted_inv in HS as [_ Hall].
    pose proof (MinRlist_In l Hne) as Hin.
    apply (Permutation_in _ (Permutation_sym Hperm)) in Hin.
    destruct Hin as [<-|Hin]; [lra|].
    rewrite Forall_forall in Hall; now apply Hall.
  - apply MinRlist_P1, (Permutation_in _ Hperm); now left.
Qed.

Lemma sorted_last_is_max (T l : list R) :
  l <> [] -> Permutation T l -> Sorted Rle T ->
  nth (length l - 1) T 0 = MaxRlist l.
Proof.
  intros Hne Hperm HS.
  rewrite <- (Permutation_length Hperm).
  assert (HT : T <> []).
  { intros ->; apply Permutation_nil in Hperm; contradiction. }
  apply Rle_antisym.
  - apply MaxRlist_P1, (Permutation_in _ Hperm), nth_In.
    destruct T; [contradiction | simpl; lia].
  - assert (Hin : In (MaxRlist l) T).
    { apply (Permutation_in _ (Permutation_sym Hperm)), MaxRlist_P2.
      destruct l as [|a l]; [contradiction | exists a; now left]. }
    clear Hperm Hne. revert Hin. generalize (MaxRlist l) as m.
    induction T as [|t T IH]; [contradiction|]; intros m Hin.
    destruct T as [|u T].
    + destruct Hin as [<-|[]]; simpl; lra.
    + apply Sorted_StronglySorted in HS as HSS; [|intros a b c; apply Rle_trans].
      apply StronglySorted_inv in HSS as [_ Hall].
      apply Sorted_inv in HS as [HS _].
      replace (length (t :: u :: T) - 1)%nat with (S (length (u :: T) - 1))
        by (simpl; lia).
      assert (Hk : (length (u :: T) - 1 < length (u :: T))%nat) by (simpl; lia).
      set (k := (length (u :: T) - 1)%nat) in *.
      change (nth (S k) (t :: u :: T) 0) with (nth k (u :: T) 0).
      destruct Hin as [<-|Hin].
      * rewrite Forall_forall in Hall. now apply Hall, nth_In.
      * apply IH; [assumption | discriminate | assumption].
Qed.

Lemma rank_index_0 (n : nat) : (0 < n)%nat -> rank_index n 0 = O.
Proof.
  intros Hn; unfold rank_index, clamp.
  rewrite Rmult_0_l, (ZfloorZ 0). lia.
Qed.

Lemma rank_index_1 (n : nat) : (0 < n)%nat -> rank_index n 1 = (n - 1)%nat.
Proof.
  intros Hn; unfold rank_index, clamp.
  rewrite Rmult_1_l, INR_pred, ZfloorZ. lia.
Qed.

(** Two ascending arrangements of the same entries are equal. *)
Lemma sorted_perm_unique (T1 T2 : list R) :
  Sorted Rle T1 -> Sorted Rle T2 -> Permutation T1 T2 -> T1 = T2.
Proof.
  revert T2; induction T1 as [|a T1 IH]; intros T2 H1 H2 Hp.
  - apply Permutation_nil in Hp. now subst.
  - destruct T2 as [|b T2].
    { apply Permutation_sym, Permutation_nil in Hp. discriminate. }
    assert (Hab : a = b).
    { apply Sorted_StronglySorted in H1 as S1; [|intros x y z; apply Rle_trans].
      apply Sorted_StronglySorted in H2 as S2; [|intros x y z; apply Rle_trans].
      apply StronglySorted_inv in S1 as [_ A1].
      apply StronglySorted_inv in S2 as [_ A2].
      rewrite Forall_forall in A1, A2.
      assert (Ia : In a (b :: T2)) by (apply (Permutation_in _ Hp); now left).
      assert (Ib : In b (a :: T1))
        by (apply (Permutation_in _ (Permutation_sym Hp)); now left).
      apply Rle_antisym.
      - destruct Ib as [->|Ib]; [lra | now apply A1].
      - destruct Ia as [->|Ia]; [lra | now apply A2]. }
    subst b. f_equal.
    apply IH.
    + now apply Sorted_inv in H1.
    + now apply Sorted_inv in H2.
    + eapply Permutation_cons_inv; eassumption.
Qed.

(** *** The product of [percentile], rounded *)

Lemma Zrne_near (y : R) (k : Z) : Rabs (y - IZR k) < 1 / 2 -> Zrne y = k.
Proof.
  intros H. apply Rabs_def2 in H. destruct H as [H1 H2].
  unfold Zrne.
  destruct (Rle_dec (IZR k) y) as [Hle|Hlt].
  - rewrite (Zfloor_eq k) by lra. now rewrite Rltb_true by lra.
  - assert (Hf : Zfloor y = (k - 1)%Z).
    { apply Zfloor_eq. rewrite minus_IZR. lra. }
    rewrite Hf, minus_IZR.
    rewrite Rltb_false by lra. rewrite Rltb_true by lra. lia.
Qed.

Lemma Zrne_IZR (k : Z) : Zrne (IZR k) = k.
Proof. apply Zrne_near. rewrite Rminus_diag, Rabs_R0. lra. Qed.

Lemma Zrne_error (y : R) : Rabs (IZR (Zrne y) - y) <= 1 / 2.
Proof.
  pose proof (Zfloor_bound y) as [H1 H2]. unfold Zrne.
  destruct (Rlt_dec (y - IZR (Zfloor y)) (1 / 2)) as [Hlo|Hlo].
  - rewrite Rltb_true by assumption. apply Rabs_le. lra.
  - rewrite Rltb_false by lra.
    destruct (Rlt_dec (1 / 2) (y - IZR (Zfloor y))) as [Hhi|Hhi].
    + rewrite Rltb_true by assumption. rewrite plus_IZR. apply Rabs_le. lra.
    + rewrite Rltb_false by lra.
      destruct (Z.even (Zfloor y)); rewrite ?plus_IZR; apply Rabs_le; lra.
Qed.

Lemma powerRZ2_pos (e : Z) : 0 < powerRZ 2 e.
Proof. apply powerRZ_lt. lra. Qed.

Lemma powerRZ2_nat (k : Z) : (0 <= k)%Z -> powerRZ 2 k = IZR (2 ^ k).
Proof.
  intros Hk. rewrite <- (Z2Nat.id k) at 1 by assumption.
  rewrite <- pow_powerRZ, pow_IZR. now rewrite Z2Nat.id.
Qed.

Lemma powerRZ2_le (a b : Z) : (a <= b)%Z -> powerRZ 2 a <= powerRZ 2 b.
Proof.
  intros Hab. replace b with (a + (b - a))%Z by lia.
  rewrite powerRZ_add by lra.
  pose proof (powerRZ2_pos a).
  assert (1 <= powerRZ 2 (b - a)).
  { rewrite powerRZ2_nat by lia. apply IZR_le.
    pose proof (Z.pow_pos_nonneg 2 (b - a)). lia. }
  nra.
Qed.

Lemma powerRZ2_cancel (c : Z) : powerRZ 2 (- c) * powerRZ 2 c = 1.
Proof.
  rewrite <- powerRZ_add by lra. now replace (- c + c)%Z with 0%Z by lia.
Qed.

(** [binade_from] finds the binade of [x]. *)
Lemma binade_from_exact (fuel : nat) (e0 e : Z) (x : R) :
  (e0 <= e <= e0 + Z.of_nat fuel)%Z ->
  powerRZ 2 (e - 1) <= Rabs x < powerRZ 2 e ->
  binade_from fuel e0 x = e.
Proof.
  revert e0; induction fuel as [|f IH]; intros e0 He Hx.
  - simpl. lia.
  - cbn [binade_from]. unfold Rltb.
    destruct (Rlt_dec (Rabs x) (powerRZ 2 e0)) as [Hlt|Hge].
    + destruct (Z.eq_dec e0 e) as [|Hne]; [assumption|].
      pose proof (powerRZ2_le e0 (e - 1) ltac:(lia)). lra.
    + destruct (Z.eq_dec e0 e) as [->|Hne]; [lra|].
      apply IH; [lia | assumption].
Qed.

Lemma binade_from_upper (fuel : nat) (e0 e : Z) (x : R) :
  (e0 <= e)%Z -> Rabs x < powerRZ 2 e -> (e0 <= binade_from fuel e0 x <= e)%Z.
Proof.
  revert e0; induction fuel as [|f IH]; intros e0 He Hx.
  - simpl. lia.
  - cbn [binade_from]. unfold Rltb.
    destruct (Rlt_dec (Rabs x) (powerRZ 2 e0)) as [Hlt|Hge]; [lia|].
    destruct (Z.eq_dec e0 e) as [->|Hne]; [lra|].
    pose proof (IH (e0 + 1)%Z ltac:(lia) Hx). lia.
Qed.

Lemma binade_exact (x : R) (e : Z) :
  (-1021 <= e <= 1024)%Z -> powerRZ 2 (e - 1) <= Rabs x < powerRZ 2 e ->
  binade x = e.
Proof. intros He Hx. unfold binade. apply binade_from_exact; [lia | assumption]. Qed.

(** The rounding error is at most half the worth of the last bit. *)
Lemma b64_error (x : R) :
  Rabs (b64 x - x) <= powerRZ 2 (Z.max (binade x - 53) (-1074)) / 2.
Proof.
  unfold b64. set (c := Z.max (binade x - 53) (-1074)).
  pose proof (powerRZ2_pos c) as Hc.
  pose proof (Zrne_error (x * powerRZ 2 (- c))) as He.
  replace (IZR (Zrne (x * powerRZ 2 (- c))) * powerRZ 2 c - x)
    with ((IZR (Zrne (x * powerRZ 2 (- c))) - x * powerRZ 2 (- c)) * powerRZ 2 c).
  - rewrite Rabs_mult, (Rabs_pos_eq (powerRZ 2 c)) by lra. nra.
  - rewrite Rmult_minus_distr_r, Rmult_assoc, powerRZ2_cancel. ring.
Qed.

(** Integers of less than 54 bits are binary64 numbers. *)
Lemma b64_integer (k : Z) : (Z.abs k < 2 ^ 53)%Z -> b64 (IZR k) = IZR k.
Proof.
  intros Hk. unfold b64.
  assert (Hm : (binade (IZR k) <= 53)%Z).
  { unfold binade. apply binade_from_upper; [lia|].
    rewrite <- abs_IZR, powerRZ2_nat by lia. now apply IZR_lt. }
  set (c := Z.max (binade (IZR k) - 53) (-1074)).
  assert (Hc : (c <= 0)%Z) by (unfold c; lia).
  rewrite (powerRZ2_nat (- c)) by lia.
  rewrite <- mult_IZR, Zrne_IZR, mult_IZR, <- powerRZ2_nat by lia.
  rewrite Rmult_assoc, powerRZ2_cancel. ring.
Qed.

(** The rounding of a number whose binade and nearest significand are
    known. *)
Lemma b64_eval (x : R) (e k : Z) :
  (-1021 <= e <= 1024)%Z -> powerRZ 2 (e - 1) <= Rabs x < powerRZ 2 e ->
  Rabs (x * powerRZ 2 (- Z.max (e - 53) (-1074)) - IZR k) < 1 / 2 ->
  b64 x = IZR k * powerRZ 2 (Z.max (e - 53) (-1074)).
Proof.
  intros He Hx Hk. unfold b64. rewrite (binade_exact x e He Hx).
  cbv zeta. now rewrite (Zrne_near _ k Hk).
Qed.

(** [percentile64] on reals: the entry of rank [rank_index64] of the sorted
    copy. *)
Lemma percentile64_fins (l : list R) (p : R) (T : list R) :
  l <> [] ->
  sort_by (fun a b => sub a b) (fins l) = fins T ->
  length T = length l ->
  percentile64 (fins l) (Fin p) = Some (Fin (nth (rank_index64 (length l) p) T 0)).
Proof.
  intros Hne Hsort Hlen. unfold percentile64.
  rewrite length_fins.
  destruct l as [|x l']; [contradiction|].
  change (length (x :: l') =? 0)%nat with false; cbv iota zeta.
  rewrite Hsort, length_fins, Hlen.
  set (n := length (x :: l')).
  assert (Hn : (0 < n)%nat) by (subst n; simpl; lia).
  unfold of_nat, mul64; cbn [sub mul Math_floor].
  rewrite (INR_pred n) at 1.
  rewrite Math_max_Z, Math_min_Z.
  rewrite index_Z by lia.
  rewrite nth_error_fins.
  - unfold rank_index64, clamp. reflexivity.
  - rewrite Hlen; fold n. lia.
Qed.

Lemma rank_index64_0 (n : nat) : (0 < n)%nat -> rank_index64 n 0 = O.
Proof.
  intros Hn; unfold rank_index64, clamp.
  rewrite Rmult_0_l, (b64_integer 0) by (simpl; lia).
  rewrite (ZfloorZ 0). lia.
Qed.

Lemma rank_index64_1 (n : nat) :
  (0 < n)%nat -> (Z.of_nat n < 2 ^ 32)%Z -> rank_index64 n 1 = (n - 1)%nat.
Proof.
  intros Hn Hb; unfold rank_index64, clamp.
  rewrite Rmult_1_l, INR_pred, b64_integer by lia.
  rewrite ZfloorZ. lia.
Qed.

(** Where rounding the product does not change its floor, the two models
    of [percentile] return the same entry. *)
Lemma percentile64_agrees (l : list R) (p : R) :
  Zfloor (b64 (p * (INR (length l) - 1))) = Zfloor (p * (INR (length l) - 1)) ->
  percentile64 (fins l) (Fin p) = percentile (fins l) (Fin p).
Proof.
  intros Hfl. destruct l as [|x l]; [reflexivity|].
  destruct (sort_by_fins (x :: l)) as (T & Hsort & Hperm & _).
  pose proof (Permutation_length Hperm) as Hlen.
  rewrite (percentile64_fins _ p T), (percentile_fins _ p T)
    by (assumption || discriminate).
  unfold rank_index64, rank_index. now rewrite Hfl.
Qed.

(** C5, as amended.  On a non-empty sequence of reals (of fewer than 2^32
    entries, the limit of an array) and a real [p], [percentile], with the
    product [p (n - 1)] rounded to binary64 as the engine computes it,
    returns the entry of index [clamp(floor(fl(p (n - 1))), 0, n - 1)] of the
    ascending arrangement of the sequence; for [p = 0] that is the minimum
    and for [p = 1] the maximum. *)
Theorem percentile_nearest_rank (l : list R) (p : R) :
  l <> [] -> (Z.of_nat (length l) < 2 ^ 32)%Z ->
  exists T : list R,
    Permutation T l /\ Sorted Rle T /\
    percentile64 (fins l) (Fin p)
      = Some (Fin (nth (rank_index64 (length l) p) T 0)) /\
    percentile64 (fins l) (Fin 0) = Some (Fin (MinRlist l)) /\
    percentile64 (fins l) (Fin 1) = Some (Fin (MaxRlist l)).
Proof.
  intros Hne Hb.
  destruct (sort_by_fins l) as (T & Hsort & Hperm & HS).
  pose proof (Permutation_length Hperm) as Hlen.
  assert (Hn : (0 < length l)%nat) by (destruct l; [contradiction | simpl; lia]).
  exists T; repeat split; try assumption.
  - now apply percentile64_fins.
  - rewrite (percentile64_fins l 0 T), rank_index64_0 by assumption.
    now rewrite (sorted_first_is_min T l).
  - rewrite (percentile64_fins l 1 T), rank_index64_1 by assumption.
    now rewrite (sorted_last_is_max T l).
Qed.

Lemma percentile_nearest_rank_witness :
  exists T : list R,
    Permutation T [3; 1; 2] /\ Sorted Rle T /\
    percentile64 (fins [3; 1; 2]) (Fin (1 / 2))
      = Some (Fin (nth (rank_index64 (length [3; 1; 2]) (1 / 2)) T 0)) /\
    percentile64 (fins [3; 1; 2]) (Fin 0) = Some (Fin (MinRlist [3; 1; 2])) /\
    percentile64 (fins [3; 1; 2]) (Fin 1) = Some (Fin (MaxRlist [3; 1; 2])).
Proof.
  apply (percentile_nearest_rank [3; 1; 2] (1 / 2)); [discriminate | simpl; lia].
Defined.

Lemma Sorted_INR_seq (a k : nat) : Sorted Rle (map INR (seq a k)).
Proof.
  revert a; induction k as [|k IH]; intros a; [constructor|].
  cbn [seq map]. constructor; [apply IH|].
  destruct k; cbn [seq map]; constructor.
  apply le_INR. lia.
Qed.

Lemma nth_INR_seq (k n : nat) : (k < n)%nat -> nth k (map INR (seq 0 n)) 0 = INR k.
Proof.
  intros Hk. change 0 with (INR 0) at 1.
  now rewrite map_nth, seq_nth.
Qed.

(** The literal [0.99] denotes [double_0_99]. *)
Lemma b64_0_99 : b64 (99 / 100) = double_0_99.
Proof.
  rewrite (b64_eval (99 / 100) 0 8917127262193582).
  - change (Z.max (0 - 53) (-1074)) with (- (53))%Z.
    rewrite powerRZ_neg', powerRZ2_nat by lia.
    change (2 ^ 53)%Z with 9007199254740992%Z. reflexivity.
  - lia.
  - change (0 - 1)%Z with (- (1))%Z. rewrite powerRZ_neg'.
    rewrite !powerRZ2_nat by lia.
    change (2 ^ 1)%Z with 2%Z. change (2 ^ 0)%Z with 1%Z.
    rewrite Rabs_pos_eq by lra. lra.
  - change (- Z.max (0 - 53) (-1074))%Z with 53%Z.
    rewrite powerRZ2_nat by lia.
    change (2 ^ 53)%Z with 9007199254740992%Z.
    apply Rabs_def1; lra.
Qed.

(** The product [0.99 * 100] is rounded up to 99. *)
Lemma b64_0_99_times_100 : b64 (double_0_99 * 100) = 99.
Proof.
  unfold double_0_99.
  rewrite (b64_eval _ 7 6966505673588736).
  - change (Z.max (7 - 53) (-1074)) with (- (46))%Z.
    rewrite powerRZ_neg', powerRZ2_nat by lia.
    change (2 ^ 46)%Z with 70368744177664%Z. lra.
  - lia.
  - change (7 - 1)%Z with 6%Z. rewrite !powerRZ2_nat by lia.
    change (2 ^ 6)%Z with 64%Z. change (2 ^ 7)%Z with 128%Z.
    rewrite Rabs_pos_eq by lra. lra.
  - change (- Z.max (7 - 53) (-1074))%Z with 46%Z.
    rewrite powerRZ2_nat by lia.
    change (2 ^ 46)%Z with 70368744177664%Z.
    apply Rabs_def1; lra.
Qed.

(** The claim as worded fails on the p99 of 101 values: for the sequence
    0, 1, .., 100 and the Number [0.99] the exact product is just below 99
    and the worded index is 98, but the product is computed as 99 and
    [percentile] returns the entry of index 99. *)
Lemma percentile_p99_reads_rank_99 :
  let S := map INR (seq 0 101) in
  Sorted Rle S /\
  b64 (99 / 100) = double_0_99 /\
  Zfloor (double_0_99 * (INR (length S) - 1)) = 98%Z /\
  nth (rank_index (length S) double_0_99) S 0 = 98 /\
  percentile64 (fins S) (Fin double_0_99) = Some (Fin 99).
Proof.
  intros S.
  assert (HS : Sorted Rle S) by apply Sorted_INR_seq.
  assert (Hlen : length S = 101%nat) by reflexivity.
  assert (H100 : INR 101 - 1 = 100).
  { rewrite INR_IZR_INZ. change (Z.of_nat 101) with 101%Z. lra. }
  assert (Hfloor : Zfloor (double_0_99 * 100) = 98%Z).
  { apply Zfloor_eq. unfold double_0_99. lra. }
  split; [exact HS|]. split; [exact b64_0_99|].
  rewrite Hlen, H100. split; [exact Hfloor|]. split.
  - unfold rank_index, clamp. rewrite H100, Hfloor.
    change (Z.to_nat (Z.min (Z.of_nat 101 - 1) (Z.max 0 98))) with 98%nat.
    unfold S. rewrite nth_INR_seq by lia.
    rewrite INR_IZR_INZ. reflexivity.
  - assert (Hsort : sort_by (fun a b => sub a b) (fins S) = fins S).
    { destruct (sort_by_fins S) as (T & -> & Hp & Hs).
      f_equal. now apply sorted_perm_unique. }
    rewrite (percentile64_fins S double_0_99 S) by (auto; discriminate).
    unfold rank_index64, clamp. rewrite Hlen, H100, b64_0_99_times_100.
    rewrite (ZfloorZ 99).
    change (Z.to_nat (Z.min (Z.of_nat 101 - 1) (Z.max 0 99))) with 99%nat.
    unfold S. rewrite nth_INR_seq by lia.
    rewrite INR_IZR_INZ. reflexivity.
Qed.

(** ** 32-bit operators inside their range *)

Lemma to_int32_small (z : Z) : (0 <= z < 2 ^ 31)%Z -> to_int32 z = z.
Proof.
  intros H; unfold to_int32.
  rewrite Z.mod_small by lia.
  destruct (Z.ltb_spec z (2 ^ 31)); [reflexivity | lia].
Qed.

Lemma shl32_double (len : Z) : (0 <= len < 2 ^ 30)%Z -> shl32 len 1 = (2 * len)%Z.
Proof.
  intros H; unfold shl32.
  rewrite (to_int32_small len) by lia.
  change (1 mod 32)%Z with 1%Z.
  rewrite Z.shiftl_mul_pow2 by lia.
  rewrite to_int32_small; lia.
Qed.

Lemma shl32_one (k : Z) : (0 <= k <= 30)%Z -> shl32 1 k = (2 ^ k)%Z.
Proof.
  intros H; unfold shl32.
  rewrite (to_int32_small 1) by lia.
  rewrite Z.mod_small by lia.
  rewrite Z.shiftl_mul_pow2, Z.mul_1_l by lia.
  apply to_int32_small. split; [lia|].
  apply Z.pow_lt_mono_r; lia.
Qed.

Lemma sar32_half (m : Z) : (0 <= m < 2 ^ 31)%Z -> sar32 m 1 = (m / 2)%Z.
Proof.
  intros H; unfold sar32.
  rewrite to_int32_small by lia.
  change (1 mod 32)%Z with 1%Z.
  now rewrite Z.shiftr_div_pow2 by lia.
Qed.

(** ** The FFT returns, on arrays of fewer than 2^30 entries *)

(** The fuel of the carry loop is enough: the loop condition is false in
    the state [rev_while] returns. *)
Lemma rev_while_exit (fuel : nat) (j m : Z) :
  (0 <= m < 2 ^ Z.of_nat fuel)%Z -> (m < 2 ^ 31)%Z ->
  let '(j', m') := rev_while fuel j m in
  ((1 <=? m') && (m' <=? j'))%Z = false.
Proof.
  revert j m; induction fuel as [|f IH]; intros j m Hm H31.
  - simpl in *. destruct (Z.leb_spec 1 m); [lia | reflexivity].
  - cbn [rev_while].
    destruct ((1 <=? m) && (m <=? j))%Z eqn:Hc; [|exact Hc].
    rewrite sar32_half by lia.
    apply IH.
    + rewrite Nat2Z.inj_succ, Z.pow_succ_r in Hm by lia.
      split; [apply Z.div_pos; lia | apply Z.div_lt_upper_bound; lia].
    + apply Z.le_lt_trans with m; [|assumption].
      apply Z.div_le_upper_bound; lia.
Qed.

Lemma length_swap (a : list num) (i j : nat) : length (swap a i j) = length a.
Proof. unfold swap; now rewrite !length_upd. Qed.

Lemma bit_reversal_lengths (re im : list num) :
  same_lengths re im (bit_reversal re im).
Proof.
  unfold bit_reversal.
  match goal with
  | |- context [for_range ?lo ?hi ?b ?s] =>
      pose proof (for_range_inv b
        (fun _ t => same_lengths re im (fst t)) lo hi s) as H
  end.
  cbv beta in H.
  destruct (for_range _ _ _ _) as [[re' im'] j'].
  apply H; [lia | split; reflexivity |].
  intros i [[r1 i1] j1] _ [Hr Hi]; simpl in Hr, Hi.
  destruct (Z.of_nat i <? j1)%Z; destruct (rev_while _ _ _);
    split; simpl; now rewrite ?length_swap.
Qed.

Lemma stage_lengths (n len : Z) (re im : list num) (st : list num * list num) :
  same_lengths re im st -> same_lengths re im (stage n len st).
Proof.
  intros Hst; unfold stage.
  apply (for_range_inv _ (fun _ t => same_lengths re im t)); [lia | assumption |].
  intros q [r1 i1] _ Hq.
  match goal with
  | |- context [for_range ?lo ?hi ?b ?s] =>
      pose proof (for_range_inv b
        (fun _ t => same_lengths re im (fst (fst t))) lo hi s) as H
  end.
  cbv beta in H.
  destruct (for_range _ _ _ _) as [[[r2 i2] w1] w2].
  apply H; [lia | exact Hq |].
  intros j [[[r3 i3] w3] w4] _ [Hr Hi]; simpl in Hr, Hi.
  split; simpl; now rewrite !length_upd.
Qed.

Lemma butterflies_returns (fuel : nat) (n len : Z) (re im : list num)
      (st : list num * list num) :
  (0 < len)%Z -> (n < 2 ^ 30)%Z -> (n < len * 2 ^ Z.of_nat fuel)%Z ->
  same_lengths re im st ->
  exists st', butterflies (S fuel) n len st = Some st' /\ same_lengths re im st'.
Proof.
  revert len st; induction fuel as [|f IH]; intros len st Hlen Hn Hfuel Hst.
  - cbn [butterflies]. simpl in Hfuel.
    destruct (Z.leb_spec len n); [lia|]. now exists st.
  - remember (S f) as f'. cbn [butterflies]. subst f'.
    destruct (Z.leb_spec len n) as [Hle|Hgt]; [|now exists st].
    destruct (Z.leb_spec len 0); [lia|].
    rewrite shl32_double by lia.
    apply IH.
    + lia.
    + lia.
    + rewrite Nat2Z.inj_succ, Z.pow_succ_r in Hfuel by lia. lia.
    + now apply stage_lengths.
Qed.

Lemma fft_returns (re im : list num) :
  (Z.of_nat (length re) < 2 ^ 30)%Z ->
  exists re' im',
    fft re im = Some (re', im') /\
    length re' = length re /\ length im' = length im.
Proof.
  intros Hn; unfold fft.
  destruct (butterflies_returns 31 (Z.of_nat (length re)) 2 re im
              (bit_reversal re im)) as ([re' im'] & Heq & Hr & Hi).
  - lia.
  - assumption.
  - change (2 ^ Z.of_nat 31)%Z with (2 ^ 31)%Z. lia.
  - apply bit_reversal_lengths.
  - exists re', im'. split; [exact Heq | split; assumption].
Qed.

(** ** Magnitude spectrum *)

Lemma upd_out_of_range (arr : list num) (i : nat) (v : num) :
  (length arr <= i)%nat -> upd arr i v = arr.
Proof.
  revert i; induction arr as [|h t IH]; intros [|i] H; simpl in *;
    try reflexivity; try lia.
  f_equal; apply IH; lia.
Qed.

(** A loop that assigns [out[i] = f i] for [i = lo .. hi-1]: the entries it
    leaves and the entries it sets. *)
Lemma for_range_upd_get (f : nat -> num) (lo hi : nat) (init : list num) :
  (lo <= hi)%nat ->
  length (for_range lo hi (fun i out => upd out i (f i)) init) = length init /\
  forall k,
    get (for_range lo hi (fun i out => upd out i (f i)) init) k
    = if ((lo <=? k) && (k <? hi) && (k <? length init))%nat
      then f k else get init k.
Proof.
  intros Hle.
  apply (for_range_inv (fun i out => upd out i (f i))
           (fun i out =>
              length out = length init /\
              forall k, get out k
                        = if ((lo <=? k) && (k <? i) && (k <? length init))%nat
                          then f k else get init k)); [assumption | |].
  - split; [reflexivity|]. intros k.
    destruct (Nat.leb_spec lo k), (Nat.ltb_spec k lo); simpl; try reflexivity; lia.
  - intros i out Hi [Hlen Hget]. split; [now rewrite length_upd|].
    intros k. destruct (Nat.eq_dec i k) as [<-|Hne].
    + destruct (Nat.ltb_spec i (length init)) as [Hin|Hout].
      * rewrite get_upd_same by lia.
        destruct (Nat.leb_spec lo i), (Nat.ltb_spec i (S i)); simpl;
          try reflexivity; lia.
      * rewrite upd_out_of_range by lia. rewrite Hget.
        destruct (Nat.ltb_spec i (length init)); [lia|].
        now rewrite !andb_false_r.
    + rewrite get_upd_other by assumption. rewrite Hget.
      destruct (Nat.ltb_spec k i), (Nat.ltb_spec k (S i)); try reflexivity; lia.
Qed.

Lemma skipn_repeat_zeros (x : num) (k n : nat) :
  skipn k (repeat x n) = repeat x (n - k).
Proof.
  revert k; induction n as [|n IH]; intros [|k]; simpl; try reflexivity.
  apply IH.
Qed.

Lemma get_repeat (x : num) (n k : nat) : (k < n)%nat -> get (repeat x n) k = x.
Proof.
  unfold get; revert k; induction n as [|n IH]; intros [|k] H; simpl;
    try lia; [reflexivity | apply IH; lia].
Qed.

Lemma padded_size_bounds (N : nat) :
  (Z.of_nat N <= 2 ^ 29)%Z ->
  (1 <= Z.log2_up (Z.max 2 (Z.of_nat N)) <= 29)%Z /\
  (Z.max 2 (Z.of_nat N) <= padded_size N <= 2 ^ 29)%Z.
Proof.
  intros HN. unfold padded_size.
  set (m := Z.max 2 (Z.of_nat N)).
  assert (Hm : (1 < m)%Z) by lia.
  pose proof (Z.log2_up_pos m Hm) as Hpos.
  assert (Hup : (Z.log2_up m <= 29)%Z) by (apply Z.log2_up_le_pow2; lia).
  destruct (Z.log2_up_spec m Hm) as [_ Hspec].
  repeat split; try lia.
  apply Z.pow_le_mono_r; lia.
Qed.

(** Within 2^29 entries [magnitudeFFT] returns: the input is padded with
    zeros to [padded_size] entries, the imaginary part is zero, and the
    magnitudes of the bins [1 .. n/2 - 1] of the transform are stored above a
    zero in bin 0. *)
Lemma magnitudeFFT_returns (arr : list num) :
  (Z.of_nat (length arr) <= 2 ^ 29)%Z ->
  let n := Z.to_nat (padded_size (length arr)) in
  exists re' im' mag,
    fft (arr ++ repeat (Fin 0) (n - length arr)) (repeat (Fin 0) n)
      = Some (re', im') /\
    magnitudeFFT arr = Some mag /\
    length mag = (n / 2)%nat /\
    get mag 0 = Fin 0 /\
    forall k, (1 <= k < n / 2)%nat -> get mag k = Math_hypot (get re' k) (get im' k).
Proof.
  intros HN n.
  destruct (padded_size_bounds (length arr) HN) as [Hk Hp].
  assert (Hshl : shl32 1 (ceil_log2 (Z.max 2 (Z.of_nat (length arr))))
                 = padded_size (length arr)).
  { unfold ceil_log2, padded_size. apply shl32_one; lia. }
  assert (Hn : Z.of_nat n = padded_size (length arr)) by (subst n; lia).
  assert (Heven : (2 <= n)%nat) by lia.
  set (re := arr ++ repeat (Fin 0) (n - length arr)).
  set (im := repeat (Fin 0) n).
  assert (Hlen : length re = n).
  { subst re. rewrite length_app, repeat_length. lia. }
  destruct (fft_returns re im) as (re' & im' & Hfft & Hr & Hi).
  { rewrite Hlen. lia. }
  assert (Hhalf : Z.to_nat (padded_size (length arr) / 2) = (n / 2)%nat).
  { rewrite <- Hn. change 2%Z with (Z.of_nat 2).
    now rewrite <- Nat2Z.inj_div, Nat2Z.id. }
  assert (H1 : (1 <= n / 2)%nat).
  { apply Nat.div_le_lower_bound; lia. }
  destruct (for_range_upd_get (fun k => Math_hypot (get re' k) (get im' k))
              1 (n / 2) (repeat (Fin 0) (n / 2)) H1) as [Hmlen Hmget].
  rewrite repeat_length in Hmlen, Hmget.
  eexists re', im', _. split; [exact Hfft|]. split; [|split; [|split]].
  - unfold magnitudeFFT. rewrite Hshl.
    destruct (Z.ltb_spec (padded_size (length arr)) 0); [lia|].
    destruct (Z.ltb_spec (padded_size (length arr)) (Z.of_nat (length arr))); [lia|].
    cbv [orb]. unfold typed_set. rewrite skipn_repeat_zeros.
    fold n. fold re. fold im. rewrite Hfft, Hhalf. reflexivity.
  - exact Hmlen.
  - rewrite Hmget. cbn [Nat.leb andb]. apply get_repeat; lia.
  - intros k Hk'. rewrite Hmget.
    destruct (Nat.leb_spec 1 k), (Nat.ltb_spec k (n / 2)); try lia. reflexivity.
Qed.

(** Shifting 1 never gives more than 2^30. *)
Lemma shl32_one_le (k : Z) : (shl32 1 k <= 2 ^ 30)%Z.
Proof.
  unfold shl32. rewrite (to_int32_small 1) by lia.
  pose proof (Z.mod_pos_bound k 32 ltac:(lia)) as Hj.
  set (j := (k mod 32)%Z) in *.
  destruct (Z.le_gt_cases j 30) as [Hle|Hgt].
  - rewrite Z.shiftl_mul_pow2, Z.mul_1_l by lia.
    assert (Hp : (0 < 2 ^ j <= 2 ^ 30)%Z).
    { split; [apply Z.pow_pos_nonneg; lia | apply Z.pow_le_mono_r; lia]. }
    rewrite to_int32_small; lia.
  - replace j with 31%Z by lia. vm_compute. discriminate.
Qed.


(** With 2^30 entries the doubling of [len] wraps before [len] exceeds
    [n], and the FFT does not return. *)
Lemma butterflies_wraps (fuel : nat) (j : Z) (st : list num * list num) :
  (1 <= j <= 30)%Z -> butterflies fuel (2 ^ 30) (2 ^ j) st = None.
Proof.
  revert j st; induction fuel as [|f IH]; intros j st Hj; [reflexivity|].
  cbn [butterflies].
  assert (Hp : (0 < 2 ^ j <= 2 ^ 30)%Z).
  { split; [apply Z.pow_pos_nonneg; lia | apply Z.pow_le_mono_r; lia]. }
  destruct (Z.leb_spec (2 ^ j) (2 ^ 30)); [|lia].
  destruct (Z.leb_spec (2 ^ j) 0); [lia|].
  destruct (Z.eq_dec j 30) as [->|Hne].
  - change (shl32 (2 ^ 30) 1) with (- 2 ^ 31)%Z.
    destruct f as [|f]; reflexivity.
  - assert (Hlt : (2 ^ j < 2 ^ 30)%Z) by (apply Z.pow_lt_mono_r; lia).
    rewrite shl32_double by lia.
    rewrite <- Z.pow_succ_r by lia.
    apply IH. lia.
Qed.

(** Beyond 2^29 entries [magnitudeFFT] returns no spectrum. *)
Lemma magnitudeFFT_out_of_range (arr : list num) :
  (2 ^ 29 < Z.of_nat (length arr))%Z -> magnitudeFFT arr = None.
Proof.
  intros HN. unfold magnitudeFFT.
  set (m := Z.max 2 (Z.of_nat (length arr))) in *.
  assert (Hm : (1 < m)%Z) by lia.
  destruct (Z.log2_up_spec m Hm) as [Hlow Hup].
  pose proof (shl32_one_le (ceil_log2 m)) as Hle.
  destruct (Z.ltb_spec (shl32 1 (ceil_log2 m)) 0) as [|Hnn]; [reflexivity|].
  destruct (Z.ltb_spec (shl32 1 (ceil_log2 m)) (Z.of_nat (length arr)))
    as [|HnN]; [reflexivity|].
  cbv [orb].
  assert (Hk : Z.log2_up m = 30%Z).
  { assert (H30 : (Z.log2_up m <= 30)%Z) by (apply Z.log2_up_le_pow2; lia).
    assert (H29 : ~ (Z.log2_up m <= 29)%Z).
    { intros H. apply Z.log2_up_le_pow2 in H; lia. }
    lia. }
  unfold ceil_log2 in *. rewrite Hk in *.
  rewrite shl32_one in * by lia.
  unfold fft, typed_set.
  rewrite length_app, length_skipn, repeat_length.
  replace (Z.of_nat (length arr + (Z.to_nat (2 ^ 30) - length arr)))
    with (2 ^ 30)%Z by lia.
  now rewrite (butterflies_wraps 32 1).
Qed.

(** ** Peak search *)

Lemma lt_irrefl (a : num) : lt a a = false.
Proof. destruct a; simpl; try reflexivity. apply Rltb_false; lra. Qed.

(** If [b] is above [a] and [c] is not, then [c] is not above [b]. *)
Lemma lt_above (a b c : num) :
  lt a b = true -> lt a c = false -> lt b c = false.
Proof.
  destruct a, b, c; simpl; try reflexivity; try discriminate.
  unfold Rltb.
  destruct (Rlt_dec x x0), (Rlt_dec x x1), (Rlt_dec x0 x1);
    try reflexivity; try discriminate; lra.
Qed.

(** What the loop of [dominantFrequency] leaves in [(bestK, best)]: either
    nothing was found and they are still [(0, 0)], or [bestK] is a bin from
    1 on and [best] its magnitude; no bin from 1 on is above [best]. *)
Lemma peak_search_spec (mag : list num) :
  let bestK := fst (peak_search mag) in
  let best := snd (peak_search mag) in
  (bestK = O /\ best = Fin 0 \/ (1 <= bestK < length mag)%nat /\ best = get mag bestK) /\
  forall k, (1 <= k < length mag)%nat -> gt (get mag k) best = false.
Proof.
  unfold peak_search.
  destruct (Nat.le_gt_cases 1 (length mag)) as [Hle|Hgt].
  2:{ rewrite for_range_empty by lia. simpl. split; [now left | intros; lia]. }
  apply (for_range_inv _
    (fun i (t : nat * num) =>
       (fst t = O /\ snd t = Fin 0 \/ (1 <= fst t < i)%nat /\ snd t = get mag (fst t)) /\
       forall k, (1 <= k < i)%nat -> gt (get mag k) (snd t) = false));
    [assumption | | ].
  - simpl. split; [now left | intros; lia].
  - intros i [bk b] Hi [Hshape Hmax]; simpl in Hshape, Hmax.
    destruct (gt (get mag i) b) eqn:Hgti; simpl.
    + split; [right; split; [lia | reflexivity]|].
      intros k Hk. destruct (Nat.eq_dec k i) as [->|Hne].
      * apply lt_irrefl.
      * unfold gt in *. apply (lt_above b); [assumption | apply Hmax; lia].
    + split.
      * destruct Hshape as [H0|[Hr Hb]]; [now left | right; split; [lia | assumption]].
      * intros k Hk. destruct (Nat.eq_dec k i) as [->|Hne]; [assumption|].
        apply Hmax; lia.
Qed.









(** ** Sampling and the derived series *)

Lemma sampling_arrays (trace : list Reading) :
  sampling trace
  = (map now trace, map (fun r => or_else (currentTime r) (Fin 0)) trace).
Proof.
  unfold sampling.
  assert (H : forall s v,
             fold_left (fun st r => stamp r st) trace (s, v)
             = (s ++ map now trace,
                v ++ map (fun r => or_else (currentTime r) (Fin 0)) trace)).
  { induction trace as [|r t IH]; intros s v; simpl.
    - now rewrite !app_nil_r.
    - rewrite IH. unfold push. now rewrite <- !app_assoc. }
  apply H.
Qed.

Lemma length_diffs (arr : list num) : length (diffs arr) = (length arr - 1)%nat.
Proof.
  unfold diffs. rewrite for_range_push_map.
  now rewrite length_app, length_map, length_seq.
Qed.

Lemma length_arraySub (a b : list num) :
  length (arraySub a b) = Nat.min (length a) (length b).
Proof.
  unfold arraySub. rewrite for_range_upd_map by apply repeat_length.
  now rewrite length_map, length_seq.
Qed.

Lemma diffs_entries (arr : list num) :
  diffs arr
  = map (fun i => sub (get arr i) (get arr (i - 1))) (seq 1 (length arr - 1)).
Proof. unfold diffs. now rewrite for_range_push_map. Qed.

Lemma arraySub_entries (a b : list num) :
  arraySub a b
  = map (fun i => sub (get a i) (get b i)) (seq 0 (Nat.min (length a) (length b))).
Proof. unfold arraySub. apply for_range_upd_map, repeat_length. Qed.

(** C6.  After a sampling phase of [N] stamps both arrays hold [N] entries,
    and the inter-frame intervals (differences of consecutive system
    timestamps), the scaled media-time deltas and the drift series
    (interval minus scaled media delta, entry by entry) each hold [N - 1]
    entries; they are empty for [N] of 0 or 1. *)
Theorem derived_series_lengths (trace : list Reading) :
  let N := length trace in
  let samples := fst (sampling trace) in
  let vtimes := snd (sampling trace) in
  let ifis := ifis_of samples in
  length samples = N /\ length vtimes = N /\
  length ifis = (N - 1)%nat /\
  length (vdt_of vtimes) = (N - 1)%nat /\
  length (driftPerFrame_of ifis vtimes) = (N - 1)%nat /\
  ifis = map (fun i => sub (get samples i) (get samples (i - 1))) (seq 1 (N - 1)) /\
  driftPerFrame_of ifis vtimes
  = map (fun i => sub (get ifis i) (get (vdt_of vtimes) i)) (seq 0 (N - 1)) /\
  ((N <= 1)%nat ->
   ifis = [] /\ vdt_of vtimes = [] /\ driftPerFrame_of ifis vtimes = []).
Proof.
  cbv zeta. rewrite sampling_arrays; cbn [fst snd].
  unfold ifis_of, driftPerFrame_of.
  assert (Hv : length (vdt_of (map (fun r => or_else (currentTime r) (Fin 0)) trace))
               = (length trace - 1)%nat).
  { unfold vdt_of. now rewrite length_map, length_diffs, length_map. }
  assert (Hi : length (diffs (map now trace)) = (length trace - 1)%nat).
  { now rewrite length_diffs, length_map. }
  assert (Hd : length (arraySub (diffs (map now trace))
                         (vdt_of (map (fun r => or_else (currentTime r) (Fin 0)) trace)))
               = (length trace - 1)%nat).
  { rewrite length_arraySub, Hv, Hi. lia. }
  rewrite !length_map.
  split; [reflexivity|]. split; [reflexivity|].
  split; [exact Hi|]. split; [exact Hv|]. split; [exact Hd|].
  split; [|split].
  - rewrite diffs_entries at 1. now rewrite length_map.
  - rewrite arraySub_entries, Hv, Hi. now rewrite Nat.min_id.
  - intros HN. repeat split; apply length_zero_iff_nil; rewrite ?Hi, ?Hv, ?Hd; lia.
Qed.

(** ** The report *)

Lemma length_centerZ (arr : list num) : length (centerZ arr) = length arr.
Proof. unfold centerZ. apply length_map. Qed.

(** Within 2^29 stamps the spectrum of the centred intervals is returned. *)
Lemma probe_spectrum_returns (trace : list Reading) :
  (Z.of_nat (length trace) <= 2 ^ 29)%Z ->
  exists mag,
    magnitudeFFT (centerZ (ifis_of (map now trace))) = Some mag /\
    length mag
    = (Z.to_nat (padded_size (length trace - 1)) / 2)%nat /\
    get mag 0 = Fin 0.
Proof.
  intros HN.
  assert (Hlen : length (centerZ (ifis_of (map now trace)))
                 = (length trace - 1)%nat).
  { unfold ifis_of. now rewrite length_centerZ, length_diffs, length_map. }
  destruct (magnitudeFFT_returns (centerZ (ifis_of (map now trace))))
    as (re' & im' & mag & _ & Hmag & Hl & H0 & _).
  { rewrite Hlen. lia. }
  rewrite Hlen in Hl. exists mag. repeat split; assumption.
Qed.

(** Within 2^29 stamps the probe returns a report. *)
Lemma runTimingProbe_returns (useRVFC : bool) (opts : Options)
      (trace : list Reading) :
  (Z.of_nat (length trace) <= 2 ^ 29)%Z ->
  exists r, runTimingProbe useRVFC opts trace = Some r.
Proof.
  intros HN.
  destruct (probe_spectrum_returns trace HN) as (mag & Hmag & _).
  unfold runTimingProbe. rewrite sampling_arrays. cbv zeta. rewrite Hmag.
  eexists. reflexivity.
Qed.

(** From [H : runTimingProbe _ _ _ = Some r]: the spectrum [mag] that was
    returned to the probe, and [r] replaced by the record built from it. *)
Ltac open_report H mag Hmag :=
  unfold runTimingProbe in H; rewrite sampling_arrays in H; cbv zeta in H;
  match type of H with
  | context [magnitudeFFT ?a] =>
      destruct (magnitudeFFT a) as [mag|] eqn:Hmag; [|discriminate H]
  end;
  injection H as <-.

Lemma get_map_now_last (first : Reading) (trace : list Reading) :
  get (map now (first :: trace)) (length (map now (first :: trace)) - 1)
  = now (last (first :: trace) first).
Proof.
  unfold get. rewrite length_map.
  rewrite (nth_indep _ NaN (now first)) by (rewrite length_map; simpl; lia).
  rewrite map_nth. f_equal.
  replace (length (first :: trace) - 1)%nat with (length trace) by (simpl; lia).
  generalize first at 1 3. induction trace as [|r t IH]; intros d; [reflexivity|].
  change (nth (length (r :: t)) (d :: r :: t) first) with (nth (length t) (r :: t) first).
  rewrite IH. reflexivity.
Qed.

(** C10.  The [durationMs] of a returned report is the last captured system
    timestamp minus the first one, or 0 when nothing was captured; the
    option [durationMs] does not enter it.  Within 2^29 stamps a report is
    returned. *)
Theorem report_duration_is_sampled_span (useRVFC : bool) (opts : Options)
        (trace : list Reading) :
  ((Z.of_nat (length trace) <= 2 ^ 29)%Z ->
   exists r, runTimingProbe useRVFC opts trace = Some r) /\
  forall r,
    runTimingProbe useRVFC opts trace = Some r ->
    durationMs r
    = match trace with
      | [] => Fin 0
      | first :: _ => sub (now (last trace first)) (now first)
      end.
Proof.
  split; [apply runTimingProbe_returns|].
  intros r Hr. open_report Hr mag Hmag. cbn [durationMs].
  unfold duration_of. destruct trace as [|first trace]; [reflexivity|].
  change (length (map now (first :: trace)) =? 0)%nat with false. cbv iota.
  now rewrite get_map_now_last.
Qed.

Lemma report_duration_is_sampled_span_witness :
  exists r,
    runTimingProbe true (mkOptions (Some (Fin 6000)) (Some (Fin 30)))
      [mkReading (Fin 10) (Fin 0); mkReading (Fin 43) (Fin (33 / 1000));
       mkReading (Fin 76) (Fin (66 / 1000))] = Some r /\
    durationMs r = sub (Fin 76) (Fin 10).
Proof.
  destruct (report_duration_is_sampled_span true
              (mkOptions (Some (Fin 6000)) (Some (Fin 30)))
              [mkReading (Fin 10) (Fin 0); mkReading (Fin 43) (Fin (33 / 1000));
               mkReading (Fin 76) (Fin (66 / 1000))]) as [Hret Hval].
  destruct Hret as [r Hr]; [simpl; lia|].
  exists r. split; [exact Hr | exact (Hval r Hr)].
Defined.

(** ** Drop detection *)




Lemma safeDiv_counts (c n : nat) :
  safeDiv (of_nat c) (of_nat n)
  = Fin (if (n =? 0)%nat then 0 else INR c / INR n).
Proof.
  unfold safeDiv, of_nat, truthy. destruct n as [|n].
  - simpl INR. now rewrite Rzerob_true.
  - assert (H : INR (S n) <> 0) by (apply INR_pos_nonzero; lia).
    rewrite Rzerob_false by assumption. simpl negb. cbv iota.
    now rewrite div_Fin.
Qed.








(** ** Best lag *)

(** [argmax] returns an index of the array above whose entry no entry is. *)
Lemma argmax_spec (arr : list num) :
  arr <> [] ->
  (argmax arr < length arr)%nat /\
  forall k, (k < length arr)%nat -> gt (get arr k) (get arr (argmax arr)) = false.
Proof.
  intros Hne. unfold argmax.
  assert (Hlen : (1 <= length arr)%nat) by (destruct arr; [contradiction | simpl; lia]).
  apply (for_range_inv _
    (fun i m => (m < i)%nat /\
                forall k, (k < i)%nat -> gt (get arr k) (get arr m) = false));
    [assumption | |].
  - split; [lia|]. intros k Hk. replace k with O by lia. apply lt_irrefl.
  - intros i m Hi [Hm Hmax].
    destruct (gt (get arr i) (get arr m)) eqn:Hgt.
    + split; [lia|]. intros k Hk.
      destruct (Nat.eq_dec k i) as [->|Hne']; [apply lt_irrefl|].
      unfold gt in *. apply (lt_above (get arr m)); [assumption | apply Hmax; lia].
    + split; [lia|]. intros k Hk.
      destruct (Nat.eq_dec k i) as [->|Hne']; [assumption | apply Hmax; lia].
Qed.

Lemma map_all_finite {A : Type} (f : A -> num) (l : list A) :
  (forall x, In x l -> exists r, f x = Fin r) ->
  exists a, map f l = fins a /\ length a = length l.
Proof.
  induction l as [|x l IH]; intros H.
  - exists []; split; reflexivity.
  - destruct IH as (a & Ha & Hl); [intros y Hy; apply H; now right|].
    destruct (H x) as [r Hr]; [now left|].
    exists (r :: a); split; simpl; [now rewrite Hr, Ha | now rewrite Hl].
Qed.

Lemma centerZ_fins (l : list R) :
  exists c, centerZ (fins l) = fins c /\ length c = length l.
Proof.
  destruct l as [|x l]; [exists []; split; reflexivity|].
  exists (map (fun y => y - mean_R (x :: l)) (x :: l)).
  split; [|apply length_map].
  unfold centerZ. rewrite mean_fins by discriminate.
  unfold fins. rewrite !map_map. reflexivity.
Qed.

Lemma variance_fins_nonzero_floor (c : list R) :
  exists v, or_else (variance (fins c)) (Fin (1 / 10 ^ 12)) = Fin v /\ v <> 0.
Proof.
  assert (He : 1 / 10 ^ 12 <> 0).
  { apply Rgt_not_eq. apply Rdiv_lt_0_compat; [lra | apply pow_lt; lra]. }
  assert (Hv : exists v, variance (fins c) = Fin v).
  { destruct (Nat.lt_ge_cases (length c) 2).
    - exists 0. apply variance_short. now rewrite length_fins.
    - eexists. now apply variance_fins. }
  destruct Hv as [v ->]. unfold or_else, truthy.
  destruct (Req_dec_T v 0) as [->|Hnz].
  - rewrite Rzerob_true by reflexivity. simpl. now exists (1 / 10 ^ 12).
  - rewrite Rzerob_false by assumption. simpl. now exists v.
Qed.

Lemma lag_sum_finite (c : list R) (lag : nat) :
  exists r,
    for_range lag (length (fins c))
      (fun i s => add s (mul (get (fins c) i) (get (fins c) (i - lag)))) (Fin 0)
    = Fin r.
Proof.
  rewrite length_fins.
  destruct (Nat.le_gt_cases lag (length c)) as [Hle|Hgt];
    [|rewrite for_range_empty by lia; now exists 0].
  apply (for_range_inv _ (fun _ s => exists r, s = Fin r)); [assumption | now exists 0|].
  intros i s Hi [r ->].
  rewrite !get_fins by lia. simpl. eauto.
Qed.

(** The autocorrelation of a real series is a real series, for a maximum lag
    below the length of the series. *)
Lemma autocorr_fins (c : list R) (maxLag : nat) :
  (maxLag < length c)%nat ->
  exists a, autocorr (fins c) maxLag = fins a /\ length a = (maxLag + 1)%nat.
Proof.
  intros HL. rewrite autocorr_entries.
  destruct (variance_fins_nonzero_floor c) as (v & -> & Hv).
  destruct (map_all_finite
    (fun lag =>
       div (for_range lag (length (fins c))
              (fun i s => add s (mul (get (fins c) i) (get (fins c) (i - lag))))
              (Fin 0))
           (mul (sub (of_nat (length (fins c))) (of_nat lag)) (Fin v)))
    (seq 0 (maxLag + 1))) as (a & Ha & Hl).
  - intros lag Hin. apply in_seq in Hin.
    destruct (lag_sum_finite c lag) as [r ->].
    rewrite length_fins. unfold of_nat. cbn [sub mul].
    assert (Hlt : INR lag < INR (length c)) by (apply lt_INR; lia).
    rewrite div_Fin; [eauto|].
    apply Rmult_integral_contrapositive_currified; lra.
  - exists a. rewrite length_seq in Hl. now split.
Qed.

Lemma gt_fins_false (a : list R) (i j : nat) :
  (i < length a)%nat -> (j < length a)%nat ->
  gt (get (fins a) i) (get (fins a) j) = false -> nth i a 0 <= nth j a 0.
Proof.
  intros Hi Hj. rewrite !get_fins by assumption. unfold gt; simpl.
  unfold Rltb. destruct (Rlt_dec (nth j a 0) (nth i a 0)); [discriminate | lra].
Qed.

Lemma get_skipn1 (arr : list num) (k : nat) :
  get (skipn 1 arr) k = get arr (k + 1).
Proof.
  unfold get. destruct arr as [|x arr]; simpl.
  - now destruct k.
  - now rewrite Nat.add_1_r.
Qed.

(** The best lag of a finite autocorrelation sequence of [L + 1 >= 2]
    entries. *)
Lemma best_lag_of_fins (a : list R) (L : nat) :
  (1 <= L)%nat -> length a = (L + 1)%nat ->
  (1 <= acfMaxLag_of (fins a) <= L)%nat /\
  acfMax_of (fins a) = Fin (nth (acfMaxLag_of (fins a)) a 0) /\
  forall k, (1 <= k <= L)%nat -> nth k a 0 <= nth (acfMaxLag_of (fins a)) a 0.
Proof.
  intros HL Hlen.
  assert (Hs : length (skipn 1 (fins a)) = L).
  { rewrite length_skipn, length_fins. lia. }
  destruct (argmax_spec (skipn 1 (fins a))) as [Hlt Hmax].
  { intros E. rewrite E in Hs. simpl in Hs. lia. }
  rewrite Hs in Hlt, Hmax.
  unfold acfMax_of. unfold acfMaxLag_of in *.
  set (m := argmax (skipn 1 (fins a))) in *.
  split; [lia|]. split.
  - now rewrite nth_error_fins by lia.
  - intros k Hk. apply gt_fins_false; try lia.
    specialize (Hmax (k - 1)%nat). rewrite !get_skipn1 in Hmax.
    replace (k - 1 + 1)%nat with k in Hmax by lia.
    apply Hmax. lia.
Qed.

(** The best lag of a series of [N >= 2] real intervals. *)
Lemma best_lag_of_real_series (l : list R) :
  (2 <= length l)%nat ->
  let L := Nat.min 60 (length l / 2) in
  let acf := acf_of (fins l) in
  let best := acfMaxLag_of acf in
  (1 <= best <= L)%nat /\
  exists a : list R,
    acf = fins a /\ length a = (L + 1)%nat /\
    acfMax_of acf = Fin (nth best a 0) /\
    forall k, (1 <= k <= L)%nat -> nth k a 0 <= nth best a 0.
Proof.
  intros HN L acf best.
  assert (H2 : (1 <= length l / 2)%nat) by (apply Nat.div_le_lower_bound; lia).
  assert (Hhalf : (length l / 2 < length l)%nat) by (apply Nat.div_lt; lia).
  destruct (centerZ_fins l) as (c & Hc & Hlc).
  destruct (autocorr_fins c L) as (a & Ha & Hla); [subst L; lia|].
  assert (Hacf : acf = fins a).
  { subst acf. unfold acf_of. rewrite Hc, length_fins. exact Ha. }
  destruct (best_lag_of_fins a L) as (Hr & Hm & Hmax); [subst L; lia | assumption|].
  subst best. rewrite Hacf.
  split; [assumption|]. exists a. repeat split; assumption.
Qed.

(** ** Rounding *)

Lemma round_0 (d : nat) : round (Fin 0) d = Fin 0.
Proof.
  unfold round, toFixed. rewrite Rabs_R0, Rmult_0_l, Rplus_0_l.
  rewrite (Zfloor_eq 0) by lra.
  rewrite Rltb_false by lra. f_equal. lra.
Qed.

Lemma toFixed_near (x : R) (d : nat) :
  exists k : Z,
    toFixed x d = IZR k / 10 ^ d /\
    Rabs (IZR k / 10 ^ d - x) <= / 2 / 10 ^ d.
Proof.
  unfold toFixed.
  assert (Hp : 0 < 10 ^ d) by (apply pow_lt; lra).
  pose proof (Zfloor_bound (Rabs x * 10 ^ d + 1 / 2)) as [Hlo Hhi].
  set (n := Zfloor (Rabs x * 10 ^ d + 1 / 2)) in *.
  assert (Hnear : Rabs (IZR n / 10 ^ d - Rabs x) <= / 2 / 10 ^ d).
  { replace (IZR n / 10 ^ d - Rabs x)
      with ((IZR n - Rabs x * 10 ^ d) / 10 ^ d) by (field; lra).
    unfold Rdiv at 1. rewrite Rabs_mult, (Rabs_pos_eq (/ 10 ^ d))
      by (apply Rlt_le, Rinv_0_lt_compat; assumption).
    apply Rmult_le_compat_r; [apply Rlt_le, Rinv_0_lt_compat; assumption|].
    apply Rabs_le. lra. }
  destruct (Rlt_dec x 0) as [Hneg|Hpos].
  - rewrite Rltb_true by assumption. exists (- n)%Z. rewrite opp_IZR.
    split; [field; lra|].
    rewrite (Rabs_left x) in Hnear by assumption.
    replace (- IZR n / 10 ^ d - x) with (- (IZR n / 10 ^ d - - x)) by (field; lra).
    now rewrite Rabs_Ropp.
  - rewrite Rltb_false by lra. exists n. split; [reflexivity|].
    now rewrite (Rabs_pos_eq x) in Hnear by lra.
Qed.

Lemma round_rounded (d : nat) (x : num) : rounded d (Some x) (round x d).
Proof.
  unfold rounded. destruct x as [x| | |].
  - destruct (toFixed_near x d) as (k & Hk & Hn).
    exists k. simpl. now rewrite Hk.
  - exists 0%Z. split; [simpl; f_equal; lra | reflexivity].
  - exists 0%Z. split; [simpl; f_equal; lra | reflexivity].
  - exists 0%Z. split; [simpl; f_equal; lra | reflexivity].
Qed.

Lemma round_val_rounded (d : nat) (v : option num) : rounded d v (round_val v d).
Proof.
  destruct v as [x|]; [apply round_rounded|].
  exists 0%Z. split; [simpl; f_equal; lra | reflexivity].
Qed.

(** ** Batches of at most one stamp *)

Lemma stddev_nil : stddev [] = Fin 0.
Proof.
  unfold stddev. rewrite variance_short by (simpl; lia).
  rewrite sqrt_max0_Fin by lra. now rewrite sqrt_0.
Qed.

Lemma safeDiv_0_0 : safeDiv (Fin 0) (Fin 0) = Fin 0.
Proof. unfold safeDiv, truthy. now rewrite Rzerob_true. Qed.

Lemma fpsEst_of_0 : fpsEst_of (Fin 0) = Fin 0.
Proof. unfold fpsEst_of, gt; simpl. now rewrite Rltb_false by lra. Qed.

Lemma truthy_0 : truthy (Fin 0) = false.
Proof. simpl. now rewrite Rzerob_true. Qed.

(** The spectrum of the empty series is the single bin [0]; its peak is bin
    0 with strength 0. *)
Lemma dominantFrequency_silent (rate : R) :
  rate <> 0 ->
  dominantFrequency [Fin 0] (Fin rate)
  = {| peakFreqHz := Fin 0; peakStrength := Fin 0 |}.
Proof.
  intros Hr. unfold dominantFrequency, or_else, truthy.
  rewrite Rzerob_false by assumption. cbn [negb].
  unfold peak_search. rewrite for_range_empty by (simpl; lia).
  cbn [length Nat.mul Nat.add of_nat INR mul fold_left add].
  unfold of_nat. cbn [INR].
  assert (He : 0 < 1 / 10 ^ 9) by (apply Rdiv_lt_0_compat; [lra | apply pow_lt; lra]).
  rewrite !div_Fin by lra.
  f_equal; f_equal; lra.
Qed.

Lemma acf_of_nil_best : acfMaxLag_of (acf_of []) = 1%nat /\ acfMax_of (acf_of []) = Fin 0.
Proof.
  unfold acfMax_of, acf_of. rewrite autocorr_entries. split; reflexivity.
Qed.

Lemma dropRate_of_nil (targetFps : num) : dropRate_of [] targetFps = Fin 0.
Proof. unfold dropRate_of, dropCount_of. apply safeDiv_0_0. Qed.

Lemma summarize_nil :
  summarize []
  = {| s_mean := Fin 0; s_median := Fin 0; s_std := Fin 0; s_p90 := Some (Fin 0) |}.
Proof. unfold summarize. now rewrite stddev_nil. Qed.

(** The report of a run with at most one stamp. *)
Lemma short_batch_report (useRVFC : bool) (opts : Options) (trace : list Reading) :
  (length trace <= 1)%nat ->
  runTimingProbe useRVFC opts trace
  = Some
      {| sampler := if useRVFC then rVFC else rAF;
         nFrames := length trace;
         durationMs := duration_of (map now trace);
         fpsEst := Fin 0;
         ifi :=
           {| meanMs := Fin 0; medianMs := Fin 0; stdMs := Fin 0; cv := Fin 0;
              p90Ms := Fin 0; p99Ms := Fin 0; dropRate := Fin 0;
              acf := {| bestLag := 1; bestCorr := Fin 0 |};
              spectrum := {| peakFreqHz := Fin 0; peakStrength := Fin 0 |} |};
         drift :=
           {| meanMsPerFrame := Fin 0; medianMsPerFrame := Fin 0;
              stdMsPerFrame := Fin 0; p90MsPerFrame := Fin 0 |};
         raw := {| raw_samples := firstn 5 (map now trace); ifiCount := 0 |} |}.
Proof.
  intros HN.
  destruct (probe_spectrum_returns trace) as (mag & Hmag & Hl & H0); [lia|].
  assert (Hifis : ifis_of (map now trace) = []).
  { apply length_zero_iff_nil. unfold ifis_of.
    rewrite length_diffs, length_map. lia. }
  assert (Hm : mag = [Fin 0]).
  { replace (length trace - 1)%nat with O in Hl by lia.
    change (Z.to_nat (padded_size 0) / 2)%nat with 1%nat in Hl.
    destruct mag as [|m [|m' mag]]; try discriminate.
    unfold get in H0; simpl in H0. now subst m. }
  assert (Hdrift : forall vt, driftPerFrame_of [] vt = []).
  { intros vt. apply length_zero_iff_nil. unfold driftPerFrame_of.
    now rewrite length_arraySub. }
  unfold runTimingProbe. rewrite sampling_arrays. cbv zeta.
  rewrite Hmag, Hifis, Hm, Hdrift, summarize_nil. clear Hmag Hl H0 Hm.
  change (mean []) with (Fin 0). change (median []) with (Fin 0).
  change (percentile [] (Fin (9 / 10))) with (Some (Fin 0)).
  change (percentile [] (Fin (99 / 100))) with (Some (Fin 0)).
  rewrite stddev_nil, safeDiv_0_0, fpsEst_of_0, truthy_0.
  rewrite dominantFrequency_silent by lra.
  destruct acf_of_nil_best as [-> ->].
  rewrite dropRate_of_nil.
  cbn [s_mean s_median s_std s_p90 peakFreqHz peakStrength round_val length].
  rewrite !round_0, length_map. reflexivity.
Qed.

(** C2, as amended.  A run with no stamp or one stamp returns a report:
    [nFrames] is the number of stamps, [fpsEst] and every statistic of the
    [ifi] and [drift] blocks are 0, except [acf.bestLag], which is 1. *)
Theorem short_batch_fallbacks (useRVFC : bool) (opts : Options)
        (trace : list Reading) :
  (length trace <= 1)%nat ->
  exists r,
    runTimingProbe useRVFC opts trace = Some r /\
    nFrames r = length trace /\
    fpsEst r = Fin 0 /\
    meanMs (ifi r) = Fin 0 /\ medianMs (ifi r) = Fin 0 /\
    stdMs (ifi r) = Fin 0 /\ cv (ifi r) = Fin 0 /\
    p90Ms (ifi r) = Fin 0 /\ p99Ms (ifi r) = Fin 0 /\
    dropRate (ifi r) = Fin 0 /\
    bestLag (acf (ifi r)) = 1%nat /\ bestCorr (acf (ifi r)) = Fin 0 /\
    peakFreqHz (spectrum (ifi r)) = Fin 0 /\
    peakStrength (spectrum (ifi r)) = Fin 0 /\
    meanMsPerFrame (drift r) = Fin 0 /\ medianMsPerFrame (drift r) = Fin 0 /\
    stdMsPerFrame (drift r) = Fin 0 /\ p90MsPerFrame (drift r) = Fin 0.
Proof.
  intros HN. eexists. split; [now apply short_batch_report|].
  cbn. repeat split.
Qed.

Lemma short_batch_fallbacks_witness :
  exists r,
    runTimingProbe false (mkOptions None None) [mkReading (Fin 1234) (Fin 0)]
    = Some r /\
    nFrames r = 1%nat /\
    fpsEst r = Fin 0 /\
    meanMs (ifi r) = Fin 0 /\ medianMs (ifi r) = Fin 0 /\
    stdMs (ifi r) = Fin 0 /\ cv (ifi r) = Fin 0 /\
    p90Ms (ifi r) = Fin 0 /\ p99Ms (ifi r) = Fin 0 /\
    dropRate (ifi r) = Fin 0 /\
    bestLag (acf (ifi r)) = 1%nat /\ bestCorr (acf (ifi r)) = Fin 0 /\
    peakFreqHz (spectrum (ifi r)) = Fin 0 /\
    peakStrength (spectrum (ifi r)) = Fin 0 /\
    meanMsPerFrame (drift r) = Fin 0 /\ medianMsPerFrame (drift r) = Fin 0 /\
    stdMsPerFrame (drift r) = Fin 0 /\ p90MsPerFrame (drift r) = Fin 0.
Proof.
  apply (short_batch_fallbacks false (mkOptions None None)
           [mkReading (Fin 1234) (Fin 0)]).
  simpl. lia.
Defined.

(** C2 as stated fails in one field: the report of the empty batch has
    [acf.bestLag = 1], not 0. *)
Lemma empty_batch_best_lag_is_1 :
  exists r,
    runTimingProbe true (mkOptions None None) [] = Some r /\
    bestLag (acf (ifi r)) = 1%nat /\
    bestLag (acf (ifi r)) <> 0%nat.
Proof.
  eexists. split; [apply short_batch_report; simpl; lia|].
  cbn. split; [reflexivity | discriminate].
Qed.

(** ** Rounding of the report *)

Lemma fpsEst_of_finite (m : num) : isFinite (fpsEst_of m) = true.
Proof.
  unfold fpsEst_of, gt. destruct m as [x| | |]; cbn [lt]; try reflexivity.
  destruct (Rlt_dec 0 x) as [Hpos|Hneg].
  - rewrite Rltb_true by assumption. now rewrite div_Fin by lra.
  - now rewrite Rltb_false by lra.
Qed.

(** C7, as amended.  In a returned report every statistic of the [ifi] and
    [drift] blocks is its intermediate value rounded to its precision
    (3 decimals; 4 for [peakFreqHz]; 6 for [cv], [dropRate], [bestCorr] and
    [peakStrength]), an intermediate value that is not a finite number
    giving 0; [fpsEst], a finite number, and [durationMs] are reported as
    computed, without rounding.  Within 2^29 stamps a report is returned. *)
Theorem report_statistics_rounded (useRVFC : bool) (opts : Options)
        (trace : list Reading) :
  let samples := fst (sampling trace) in
  let vtimes := snd (sampling trace) in
  let ifis := ifis_of samples in
  let driftStats := summarize (driftPerFrame_of ifis vtimes) in
  let fps := fpsEst_of (mean ifis) in
  ((Z.of_nat (length trace) <= 2 ^ 29)%Z ->
   exists r, runTimingProbe useRVFC opts trace = Some r) /\
  forall r,
    runTimingProbe useRVFC opts trace = Some r ->
    exists mag,
      magnitudeFFT (centerZ ifis) = Some mag /\
      let pk := dominantFrequency mag (if truthy fps then fps else Fin 30) in
      rounded 3 (Some (mean ifis)) (meanMs (ifi r)) /\
      rounded 3 (Some (median ifis)) (medianMs (ifi r)) /\
      rounded 3 (Some (stddev ifis)) (stdMs (ifi r)) /\
      rounded 6 (Some (safeDiv (stddev ifis) (mean ifis))) (cv (ifi r)) /\
      rounded 3 (percentile ifis (Fin (9 / 10))) (p90Ms (ifi r)) /\
      rounded 3 (percentile ifis (Fin (99 / 100))) (p99Ms (ifi r)) /\
      rounded 6 (Some (dropRate_of ifis (targetFps_of opts))) (dropRate (ifi r)) /\
      rounded 6 (Some (acfMax_of (acf_of ifis))) (bestCorr (acf (ifi r))) /\
      rounded 4 (Some (peakFreqHz pk)) (peakFreqHz (spectrum (ifi r))) /\
      rounded 6 (Some (peakStrength pk)) (peakStrength (spectrum (ifi r))) /\
      rounded 3 (Some (s_mean driftStats)) (meanMsPerFrame (drift r)) /\
      rounded 3 (Some (s_median driftStats)) (medianMsPerFrame (drift r)) /\
      rounded 3 (Some (s_std driftStats)) (stdMsPerFrame (drift r)) /\
      rounded 3 (s_p90 driftStats) (p90MsPerFrame (drift r)) /\
      fpsEst r = fps /\ isFinite (fpsEst r) = true /\
      durationMs r = duration_of samples.
Proof.
  cbv zeta. rewrite sampling_arrays. cbn [fst snd].
  split; [apply runTimingProbe_returns|].
  intros r Hr. open_report Hr mag Hmag.
  exists mag. split; [reflexivity|].
  cbn [ifi drift acf spectrum fpsEst durationMs meanMs medianMs stdMs cv p90Ms
       p99Ms dropRate bestCorr peakFreqHz peakStrength meanMsPerFrame
       medianMsPerFrame stdMsPerFrame p90MsPerFrame].
  repeat (split; [first [apply round_rounded | apply round_val_rounded]|]).
  split; [reflexivity|]. split; [apply fpsEst_of_finite | reflexivity].
Qed.

Lemma report_statistics_rounded_witness :
  exists r,
    runTimingProbe true (mkOptions None (Some (Fin 30)))
      [mkReading (Fin 0) (Fin 0); mkReading (Fin 33) (Fin (33 / 1000));
       mkReading (Fin 67) (Fin (66 / 1000))] = Some r /\
    (exists k : Z, meanMs (ifi r) = Fin (IZR k / 10 ^ 3)) /\
    (exists k : Z, cv (ifi r) = Fin (IZR k / 10 ^ 6)) /\
    (exists k : Z, peakFreqHz (spectrum (ifi r)) = Fin (IZR k / 10 ^ 4)) /\
    (exists k : Z, p90MsPerFrame (drift r) = Fin (IZR k / 10 ^ 3)).
Proof.
  destruct (report_statistics_rounded true (mkOptions None (Some (Fin 30)))
              [mkReading (Fin 0) (Fin 0); mkReading (Fin 33) (Fin (33 / 1000));
               mkReading (Fin 67) (Fin (66 / 1000))]) as [Hret Hval].
  destruct Hret as [r Hr]; [simpl; lia|].
  destruct (Hval r Hr)
    as (mag & _ & Hmean & _ & _ & Hcv & _ & _ & _ & _ & Hfreq & _ & _ & _ & _
        & Hp90 & _).
  exists r. split; [exact Hr|].
  destruct Hmean as (k1 & H1 & _). destruct Hcv as (k2 & H2 & _).
  destruct Hfreq as (k3 & H3 & _). destruct Hp90 as (k4 & H4 & _).
  repeat split; eexists; eassumption.
Defined.

Lemma not_a_multiple_of_a_thousandth (v : option num) :
  ~ rounded 3 v (Fin (1000 / 3)).
Proof.
  intros (k & Hk & _). apply Fin_inj in Hk.
  assert (H : IZR (3 * k) = IZR 1000000).
  { rewrite mult_IZR. simpl pow in Hk. lra. }
  apply eq_IZR in H. lia.
Qed.

(** C7 as stated fails for [fpsEst]: two stamps 3 ms apart give
    [fpsEst = 1000 / 3], which is no multiple of 0.001. *)
Lemma fpsEst_is_not_rounded :
  exists r,
    runTimingProbe true (mkOptions None None)
      [mkReading (Fin 0) (Fin 0); mkReading (Fin 3) (Fin (3 / 1000))] = Some r /\
    fpsEst r = Fin (1000 / 3) /\
    forall v, ~ rounded 3 v (fpsEst r).
Proof.
  destruct (probe_spectrum_returns
              [mkReading (Fin 0) (Fin 0); mkReading (Fin 3) (Fin (3 / 1000))])
    as (mag & Hmag & _); [simpl; lia|].
  unfold runTimingProbe. rewrite sampling_arrays. cbv zeta. rewrite Hmag.
  eexists. split; [reflexivity|]. cbn [fpsEst].
  assert (H : fpsEst_of
                (mean (ifis_of
                   (map now [mkReading (Fin 0) (Fin 0);
                             mkReading (Fin 3) (Fin (3 / 1000))])))
              = Fin (1000 / 3)).
  { unfold ifis_of, diffs. rewrite for_range_push_map.
    cbn [map now length Nat.sub seq app get nth sub].
    unfold mean. cbn [length Nat.eqb fold_left add].
    unfold of_nat. cbn [INR].
    rewrite div_Fin by lra.
    unfold fpsEst_of, gt. cbn [lt]. rewrite Rltb_true by lra.
    rewrite div_Fin by lra. f_equal. field. }
  rewrite H. split; [reflexivity|].
  intros v. apply not_a_multiple_of_a_thousandth.
Qed.

(** ** The reported best lag *)

(** C8, as amended.  When the inter-frame intervals of a run are [N >= 2]
    reals and [L = min(60, floor(N / 2))], the autocorrelation sequence is a
    sequence of [L + 1] reals and, in a returned report, [acf.bestLag] lies
    in [1 .. L], no entry of a lag in [1 .. L] is above the entry at
    [bestLag], and [acf.bestCorr] is that entry rounded to 6 decimals.
    Within 2^29 stamps a report is returned. *)
Theorem acf_best_lag (useRVFC : bool) (opts : Options) (trace : list Reading)
        (l : list R) :
  ifis_of (fst (sampling trace)) = fins l ->
  (2 <= length l)%nat ->
  let L := Nat.min 60 (length l / 2) in
  ((Z.of_nat (length trace) <= 2 ^ 29)%Z ->
   exists r, runTimingProbe useRVFC opts trace = Some r) /\
  exists a : list R,
    acf_of (fins l) = fins a /\ length a = (L + 1)%nat /\
    forall r,
      runTimingProbe useRVFC opts trace = Some r ->
      (1 <= bestLag (acf (ifi r)) <= L)%nat /\
      (forall k, (1 <= k <= L)%nat ->
                 nth k a 0 <= nth (bestLag (acf (ifi r))) a 0) /\
      bestCorr (acf (ifi r)) = round (Fin (nth (bestLag (acf (ifi r))) a 0)) 6.
Proof.
  intros Hifis HN L.
  split; [apply runTimingProbe_returns|].
  destruct (best_lag_of_real_series l HN) as (Hrange & a & Ha & Hla & Hmax & Hle).
  exists a. split; [exact Ha|]. split; [exact Hla|].
  intros r Hr.
  rewrite sampling_arrays in Hifis; cbn [fst] in Hifis.
  open_report Hr mag Hmag.
  cbn [ifi acf bestLag bestCorr].
  rewrite Hifis, Hmax. repeat split; try assumption; apply Hrange.
Qed.

Lemma acf_best_lag_witness :
  let trace := [mkReading (Fin 0) (Fin 0); mkReading (Fin 33) (Fin 0);
                mkReading (Fin 67) (Fin 0); mkReading (Fin 100) (Fin 0);
                mkReading (Fin 134) (Fin 0)] in
  let l := [33 - 0; 67 - 33; 100 - 67; 134 - 100] in
  exists r a,
    runTimingProbe true (mkOptions None None) trace = Some r /\
    acf_of (fins l) = fins a /\ length a = 3%nat /\
    (1 <= bestLag (acf (ifi r)) <= 2)%nat /\
    (forall k, (1 <= k <= 2)%nat -> nth k a 0 <= nth (bestLag (acf (ifi r))) a 0).
Proof.
  destruct (acf_best_lag true (mkOptions None None)
              [mkReading (Fin 0) (Fin 0); mkReading (Fin 33) (Fin 0);
               mkReading (Fin 67) (Fin 0); mkReading (Fin 100) (Fin 0);
               mkReading (Fin 134) (Fin 0)]
              [33 - 0; 67 - 33; 100 - 67; 134 - 100])
    as (Hret & a & Ha & Hla & Hval).
  - reflexivity.
  - simpl. lia.
  - destruct Hret as [r Hr]; [simpl; lia|].
    destruct (Hval r Hr) as (Hrange & Hmax & _).
    exists r, a. repeat split; try assumption; apply Hrange.
Defined.

(** C8 as stated fails below two intervals: the run without stamps has no
    interval, [L] is 0, and the reported best lag is 1. *)
Lemma best_lag_above_max_lag :
  exists r,
    runTimingProbe true (mkOptions None None) [] = Some r /\
    Nat.min 60 (length (ifis_of (fst (sampling []))) / 2) = 0%nat /\
    bestLag (acf (ifi r)) = 1%nat /\
    ~ (1 <= bestLag (acf (ifi r))
       <= Nat.min 60 (length (ifis_of (fst (sampling []))) / 2))%nat.
Proof.
  eexists. split; [apply short_batch_report; simpl; lia|].
  cbn. repeat split. lia.
Qed.

(** * Further properties of the code *)

(** ** The sampling strategies *)

Lemma until_stop_spec (go_on : Callback -> bool) (cbs done : list Callback) :
  until_stop go_on cbs = Some done <->
  exists pre c rest,
    cbs = pre ++ c :: rest /\ Forall (fun x => go_on x = true) pre /\
    go_on c = false /\ done = pre ++ [c].
Proof.
  revert done; induction cbs as [|x cbs IH]; intros done; simpl.
  - split; [discriminate|]. intros (pre & c & rest & H & _).
    destruct pre; discriminate.
  - destruct (go_on x) eqn:Hx.
    + destruct (until_stop go_on cbs) as [l|] eqn:Hl.
      * split.
        -- intros H; injection H as <-.
           destruct (proj1 (IH l) eq_refl) as (pre & c & rest & -> & Hpre & Hc & ->).
           exists (x :: pre), c, rest. repeat split; auto.
        -- intros (pre & c & rest & Hcbs & Hpre & Hc & ->).
           destruct pre as [|y pre]; simpl in Hcbs; injection Hcbs as -> ->.
           ++ congruence.
           ++ inversion Hpre; subst.
              assert (E : Some l = Some (pre ++ [c])).
              { apply IH. exists pre, c, rest. repeat split; auto. }
              injection E as ->. reflexivity.
      * split; [discriminate|].
        intros (pre & c & rest & Hcbs & Hpre & Hc & ->).
        destruct pre as [|y pre]; simpl in Hcbs; injection Hcbs as -> ->.
        -- congruence.
        -- inversion Hpre; subst.
           assert (E : None = Some (pre ++ [c])).
           { apply IH. exists pre, c, rest. repeat split; auto. }
           discriminate.
    + split.
      * intros H; injection H as <-. exists [], x, cbs. repeat split; auto.
      * intros (pre & c & rest & Hcbs & Hpre & Hc & ->).
        destruct pre as [|y pre]; simpl in Hcbs; injection Hcbs as -> ->.
        -- reflexivity.
        -- inversion Hpre; subst. congruence.
Qed.

Lemma sampleWithRVFC_until_stop (endBy : num) (cbs : list Callback)
      (stamps : list Reading) :
  sampleWithRVFC endBy cbs stamps
  = match until_stop (fun c => lt (cb_clock c) endBy && negb (cb_ended c)) cbs with
    | Some done => Some (stamps ++ map cb_reading done)
    | None => None
    end.
Proof.
  revert stamps; induction cbs as [|c cbs IH]; intros stamps; simpl; [reflexivity|].
  destruct (lt (cb_clock c) endBy && negb (cb_ended c)).
  - rewrite IH. destruct (until_stop _ cbs); [|reflexivity].
    simpl. now rewrite <- app_assoc.
  - reflexivity.
Qed.

(** X1.  [sampleWithRVFC] resolves exactly when some callback finds the
    deadline passed or the video ended; it has then stamped once in each
    callback up to and including the first such callback, in order, and in
    no later one. *)
Theorem rvfc_stamps_every_callback (endBy : num) (cbs : list Callback)
        (stamps : list Reading) :
  sampleWithRVFC endBy cbs [] = Some stamps <->
  exists pre c rest,
    cbs = pre ++ c :: rest /\
    Forall (fun x => lt (cb_clock x) endBy = true /\ cb_ended x = false) pre /\
    (lt (cb_clock c) endBy = false \/ cb_ended c = true) /\
    stamps = map cb_reading (pre ++ [c]).
Proof.
  rewrite sampleWithRVFC_until_stop.
  split.
  - destruct (until_stop _ cbs) as [done|] eqn:Hd; [|discriminate].
    intros H; injection H as <-.
    apply until_stop_spec in Hd as (pre & c & rest & -> & Hpre & Hc & ->).
    exists pre, c, rest. repeat split; auto.
    + eapply Forall_impl; [|exact Hpre]. intros x Hx; cbv beta in Hx.
      apply andb_true_iff in Hx as [H1 H2]. split; [assumption|].
      now destruct (cb_ended x).
    + apply andb_false_iff in Hc as [Hc|Hc]; [now left | right].
      now destruct (cb_ended c).
  - intros (pre & c & rest & -> & Hpre & Hc & ->).
    assert (Hd : until_stop (fun c => lt (cb_clock c) endBy && negb (cb_ended c))
                   (pre ++ c :: rest) = Some (pre ++ [c])).
    { apply until_stop_spec. exists pre, c, rest. repeat split; auto.
      - eapply Forall_impl; [|exact Hpre]. intros x [H1 H2]; cbv beta.
        now rewrite H1, H2.
      - destruct Hc as [Hc|Hc]; rewrite Hc; [reflexivity | apply andb_false_r]. }
    now rewrite Hd.
Qed.

Lemma subseq_length {A : Type} (k l : list A) :
  subseq k l -> (length k <= length l)%nat.
Proof. induction 1; simpl; lia. Qed.

Lemma subseq_drop_head {A : Type} (x : A) (k l : list A) :
  subseq (x :: k) l -> subseq k l.
Proof.
  intros H. remember (x :: k) as xk eqn:E. revert x k E.
  induction H as [|y k' l' H IH|y k' l' H IH]; intros x k E; [discriminate| |].
  - apply subseq_skip. eapply IH; eassumption.
  - injection E as -> ->. now apply subseq_skip.
Qed.

Lemma sampleWithRAF_until_stop (endBy targetFps : num) (cbs : list Callback)
      (last : num) (stamps : list Reading) :
  match until_stop
          (fun c => lt (cb_clock c) endBy && negb (cb_ended c) && cb_visible c) cbs with
  | None => sampleWithRAF endBy targetFps cbs last stamps = None
  | Some done =>
      exists kept,
        sampleWithRAF endBy targetFps cbs last stamps
        = Some (stamps ++ map cb_reading kept) /\
        subseq kept done /\
        spaced (mul (div (Fin 1000) targetFps) (Fin (8 / 10))) last kept /\
        (truthy last = false -> hd_error kept = hd_error done)
  end.
Proof.
  revert last stamps; induction cbs as [|c cbs IH]; intros last stamps;
    [reflexivity|].
  cbn [until_stop sampleWithRAF].
  set (thr := mul (div (Fin 1000) targetFps) (Fin (8 / 10))) in *.
  destruct (negb (truthy last) || ge (sub (cb_now c) last) thr) eqn:Hd.
  - assert (Hsp : truthy last = false \/ ge (sub (cb_now c) last) thr = true).
    { apply orb_true_iff in Hd as [Hd|Hd]; [left | now right].
      now destruct (truthy last). }
    destruct (lt (cb_clock c) endBy && negb (cb_ended c) && cb_visible c).
    + specialize (IH (cb_now c) (stamps ++ [cb_reading c])).
      destruct (until_stop _ cbs) as [done|]; [|exact IH].
      destruct IH as (kept & Hs & Hsub & Hspaced & _).
      exists (c :: kept). rewrite Hs. simpl. rewrite <- app_assoc.
      split; [reflexivity|]. split; [now apply subseq_keep|].
      split; [split; assumption | reflexivity].
    + exists [c]. split; [reflexivity|].
      split; [apply subseq_keep, subseq_nil|].
      split; [split; [assumption | exact I] | reflexivity].
  - assert (Ht : truthy last = true).
    { apply orb_false_iff in Hd as [Hd _]. now destruct (truthy last). }
    destruct (lt (cb_clock c) endBy && negb (cb_ended c) && cb_visible c).
    + specialize (IH last stamps).
      destruct (until_stop _ cbs) as [done|]; [|exact IH].
      destruct IH as (kept & Hs & Hsub & Hspaced & _).
      exists kept. split; [exact Hs|]. split; [now apply subseq_skip|].
      split; [assumption | congruence].
    + exists []. rewrite app_nil_r. split; [reflexivity|].
      split; [apply subseq_skip, subseq_nil|]. split; [exact I | congruence].
Qed.

(** X2.  [sampleWithRAF] resolves exactly when some callback finds the
    deadline passed, the video ended or the page not visible.  It has then
    stamped in the first callback and in some of the callbacks up to the
    first such one, in order, each stamped callback having a timestamp at
    least [(1000 / targetFps) * 0.8] past the previously stamped one
    (unless that timestamp is 0 or NaN). *)
Theorem raf_throttles_stamps (endBy targetFps : num) (cbs : list Callback) :
  let go_on := fun c => lt (cb_clock c) endBy && negb (cb_ended c) && cb_visible c in
  let thr := mul (div (Fin 1000) targetFps) (Fin (8 / 10)) in
  (sampleWithRAF endBy targetFps cbs (Fin 0) [] = None <->
   until_stop go_on cbs = None) /\
  forall stamps,
    sampleWithRAF endBy targetFps cbs (Fin 0) [] = Some stamps ->
    exists first done kept,
      until_stop go_on cbs = Some (first :: done) /\
      stamps = map cb_reading (first :: kept) /\
      subseq kept done /\
      spaced thr (cb_now first) kept.
Proof.
  intros go_on thr.
  pose proof (sampleWithRAF_until_stop endBy targetFps cbs (Fin 0) []) as H.
  fold go_on thr in H.
  assert (H0 : truthy (Fin 0) = false) by (simpl; now rewrite Rzerob_true).
  destruct (until_stop go_on cbs) as [done|] eqn:Hdone.
  - destruct H as (kept & Hs & Hsub & Hsp & Hhd).
    split; [rewrite Hs; split; discriminate|].
    intros stamps Hst. rewrite Hs in Hst. injection Hst as <-.
    specialize (Hhd H0).
    destruct done as [|first done].
    { apply until_stop_spec in Hdone as (pre & c & rest & _ & _ & _ & E).
      destruct pre; discriminate. }
    destruct kept as [|k kept]; [discriminate|]. injection Hhd as ->.
    exists first, done, kept. destruct Hsp as [_ Hsp].
    repeat split; auto.
    inversion Hsub; subst; [|assumption].
    eapply subseq_drop_head; eassumption.
  - split; [now split|]. intros stamps Hst. congruence.
Qed.

Lemma until_stop_length (go_on : Callback -> bool) (cbs done : list Callback) :
  until_stop go_on cbs = Some done -> (1 <= length done <= length cbs)%nat.
Proof.
  intros H. apply until_stop_spec in H as (pre & c & rest & -> & _ & _ & ->).
  rewrite !length_app. simpl. lia.
Qed.

Lemma rvfc_stamp_count (endBy : num) (cbs : list Callback) (stamps : list Reading) :
  sampleWithRVFC endBy cbs [] = Some stamps ->
  (1 <= length stamps <= length cbs)%nat.
Proof.
  rewrite sampleWithRVFC_until_stop.
  destruct (until_stop _ cbs) as [done|] eqn:Hd; [|discriminate].
  intros H; injection H as <-. simpl. rewrite length_map.
  eapply until_stop_length; eassumption.
Qed.

Lemma raf_stamp_count (endBy targetFps : num) (cbs : list Callback)
      (stamps : list Reading) :
  sampleWithRAF endBy targetFps cbs (Fin 0) [] = Some stamps ->
  (1 <= length stamps <= length cbs)%nat.
Proof.
  intros Hs.
  pose proof (sampleWithRAF_until_stop endBy targetFps cbs (Fin 0) []) as H.
  destruct (until_stop _ cbs) as [done|] eqn:Hd; [|congruence].
  destruct H as (kept & Hk & Hsub & _ & Hhd).
  rewrite Hk in Hs. injection Hs as <-. simpl. rewrite length_map.
  apply until_stop_length in Hd. apply subseq_length in Hsub as Hl.
  assert (H0 : truthy (Fin 0) = false) by (simpl; now rewrite Rzerob_true).
  specialize (Hhd H0).
  destruct kept; [destruct done; [simpl in Hd; lia | discriminate]|].
  simpl in *. lia.
Qed.

Lemma report_frame_counts (useRVFC : bool) (opts : Options) (trace : list Reading)
      (r : Report) :
  runTimingProbe useRVFC opts trace = Some r ->
  nFrames r = length trace /\
  sampler r = (if useRVFC then rVFC else rAF) /\
  ifiCount (raw r) = (length trace - 1)%nat /\
  raw_samples (raw r) = firstn 5 (map now trace).
Proof.
  intros Hr. open_report Hr mag Hmag.
  cbn [nFrames sampler raw ifiCount raw_samples].
  unfold ifis_of. now rewrite length_diffs, !length_map.
Qed.

(** X3.  A probe run that returns a report has stamped at least once and at
    most once per delivered callback: [nFrames] is between 1 and the number
    of callbacks, whichever sampler ran, and [sampler] names that sampler. *)
Theorem driven_probe_has_a_frame (useRVFC : bool) (opts : Options) (start : num)
        (cbs : list Callback) (r : Report) :
  runTimingProbe_driven useRVFC opts start cbs = Some r ->
  (1 <= nFrames r <= length cbs)%nat /\
  sampler r = (if useRVFC then rVFC else rAF).
Proof.
  unfold runTimingProbe_driven. intros H.
  destruct useRVFC.
  - destruct (sampleWithRVFC _ cbs []) as [stamps|] eqn:Hs; [|discriminate].
    apply rvfc_stamp_count in Hs.
    apply report_frame_counts in H as (-> & -> & _). now split.
  - destruct (sampleWithRAF _ _ cbs _ []) as [stamps|] eqn:Hs; [|discriminate].
    apply raf_stamp_count in Hs.
    apply report_frame_counts in H as (-> & -> & _). now split.
Qed.

Lemma driven_probe_has_a_frame_witness :
  exists r,
    runTimingProbe_driven true (mkOptions None None) (Fin 0)
      [mkCallback (Fin 16) (mkReading (Fin 17) (Fin 0)) (Fin 18) false true;
       mkCallback (Fin 6000) (mkReading (Fin 6001) (Fin 6)) (Fin 6002) false true]
    = Some r /\
    (1 <= nFrames r <= 2)%nat /\ sampler r = rVFC.
Proof.
  assert (E : runTimingProbe_driven true (mkOptions None None) (Fin 0)
                [mkCallback (Fin 16) (mkReading (Fin 17) (Fin 0)) (Fin 18) false true;
                 mkCallback (Fin 6000) (mkReading (Fin 6001) (Fin 6)) (Fin 6002)
                   false true]
              = runTimingProbe true (mkOptions None None)
                  [mkReading (Fin 17) (Fin 0); mkReading (Fin 6001) (Fin 6)]).
  { unfold runTimingProbe_driven.
    cbn [sampleWithRVFC cb_clock cb_ended cb_reading durationMs_of
         opt_durationMs add lt negb andb app].
    decide_reals. cbn [negb andb]. reflexivity. }
  destruct (runTimingProbe_returns true (mkOptions None None)
              [mkReading (Fin 17) (Fin 0); mkReading (Fin 6001) (Fin 6)])
    as [r Hr]; [simpl; lia|].
  exists r. rewrite E. split; [exact Hr|].
  apply (driven_probe_has_a_frame true (mkOptions None None) (Fin 0)
           [mkCallback (Fin 16) (mkReading (Fin 17) (Fin 0)) (Fin 18) false true;
            mkCallback (Fin 6000) (mkReading (Fin 6001) (Fin 6)) (Fin 6002)
              false true]).
  rewrite E. exact Hr.
Defined.

(** ** Mean, median and percentiles *)

Lemma Rsum_bounds (l : list R) (lo hi : R) :
  (forall x, In x l -> lo <= x <= hi) ->
  INR (length l) * lo <= Rsum l <= INR (length l) * hi.
Proof.
  induction l as [|x l IH]; intros H.
  - simpl. lra.
  - destruct (H x (or_introl eq_refl)) as [H1 H2].
    destruct IH as [I1 I2]; [intros y Hy; apply H; now right|].
    change (Rsum (x :: l)) with (x + Rsum l).
    cbn [length]. rewrite S_INR. lra.
Qed.

Lemma in_min_max (l : list R) (x : R) :
  In x l -> MinRlist l <= x <= MaxRlist l.
Proof. intros H. split; [now apply MinRlist_P1 | now apply MaxRlist_P1]. Qed.

(** X4.  The mean of a non-empty sequence of reals is the sum over the
    count, and lies between the least and the greatest entry. *)
Theorem mean_between_min_and_max (l : list R) :
  l <> [] ->
  mean (fins l) = Fin (Rsum l / INR (length l)) /\
  MinRlist l <= Rsum l / INR (length l) <= MaxRlist l.
Proof.
  intros Hne. split; [now apply mean_fins|].
  assert (Hn : 0 < INR (length l)).
  { apply lt_0_INR. destruct l; [contradiction | simpl; lia]. }
  destruct (Rsum_bounds l (MinRlist l) (MaxRlist l) (in_min_max l)) as [H1 H2].
  split.
  - apply Rmult_le_reg_l with (INR (length l)); [assumption|].
    replace (INR (length l) * (Rsum l / INR (length l))) with (Rsum l)
      by (field; lra). assumption.
  - apply Rmult_le_reg_l with (INR (length l)); [assumption|].
    replace (INR (length l) * (Rsum l / INR (length l))) with (Rsum l)
      by (field; lra). assumption.
Qed.

Lemma mean_between_min_and_max_witness :
  mean (fins [3; 1; 2]) = Fin (Rsum [3; 1; 2] / INR (length [3; 1; 2])) /\
  MinRlist [3; 1; 2] <= Rsum [3; 1; 2] / INR (length [3; 1; 2]) <= MaxRlist [3; 1; 2].
Proof. apply (mean_between_min_and_max [3; 1; 2]). discriminate. Defined.

(** Sorting forgets the order of the input. *)
Lemma sort_by_fins_perm (l l' : list R) :
  Permutation l l' ->
  sort_by (fun a b => sub a b) (fins l) = sort_by (fun a b => sub a b) (fins l').
Proof.
  intros Hp.
  destruct (sort_by_fins l) as (T & -> & Hp1 & Hs1).
  destruct (sort_by_fins l') as (T' & -> & Hp2 & Hs2).
  f_equal. apply sorted_perm_unique; try assumption.
  now rewrite Hp1, Hp, Hp2.
Qed.

Lemma median_fins (l T : list R) :
  l <> [] ->
  sort_by (fun a b => sub a b) (fins l) = fins T -> length T = length l ->
  median (fins l) = Fin (median_of_sorted T).
Proof.
  intros Hne Hsort Hlen. unfold median, median_of_sorted.
  rewrite length_fins.
  destruct l as [|x l']; [contradiction|].
  change (length (x :: l') =? 0)%nat with false; cbv iota zeta.
  rewrite Hsort, length_fins.
  set (n := length T) in *.
  assert (Hn : (0 < n)%nat) by (rewrite Hlen; simpl; lia).
  assert (Hhalf : (n / 2 < n)%nat) by (apply Nat.div_lt; lia).
  destruct (n mod 2 =? 0)%nat.
  - rewrite !get_fins by (fold n; lia). simpl add.
    rewrite div_Fin by lra. reflexivity.
  - now rewrite get_fins by (fold n; lia).
Qed.

(** X5.  The median of a non-empty sequence of reals is the middle entry of
    its ascending arrangement (the mean of the two middle entries for an
    even length); it lies between the least and the greatest entry and does
    not depend on the order of the sequence. *)
Theorem median_of_reals (l : list R) :
  l <> [] ->
  exists T : list R,
    Permutation T l /\ Sorted Rle T /\
    median (fins l) = Fin (median_of_sorted T) /\
    MinRlist l <= median_of_sorted T <= MaxRlist l /\
    forall l', Permutation l l' -> median (fins l') = median (fins l).
Proof.
  intros Hne.
  destruct (sort_by_fins l) as (T & Hsort & Hperm & HS).
  pose proof (Permutation_length Hperm) as Hlen.
  exists T. split; [assumption|]. split; [assumption|].
  split; [now apply median_fins|]. split.
  - assert (Hn : (0 < length T)%nat)
      by (rewrite Hlen; destruct l; [contradiction | simpl; lia]).
    assert (Hhalf : (length T / 2 < length T)%nat) by (apply Nat.div_lt; lia).
    assert (Hin : forall i, (i < length T)%nat ->
                            MinRlist l <= nth i T 0 <= MaxRlist l).
    { intros i Hi. apply in_min_max, (Permutation_in _ Hperm), nth_In, Hi. }
    unfold median_of_sorted. destruct (length T mod 2 =? 0)%nat.
    + pose proof (Hin (length T / 2 - 1)%nat ltac:(lia)).
      pose proof (Hin (length T / 2)%nat Hhalf). lra.
    + now apply Hin.
  - intros l' Hp.
    assert (Hne' : l' <> []).
    { intros ->. apply Permutation_sym, Permutation_nil in Hp. contradiction. }
    rewrite (median_fins l T Hne Hsort Hlen).
    apply (median_fins l' T Hne').
    + rewrite <- (sort_by_fins_perm l l' Hp). exact Hsort.
    + rewrite Hlen. apply Permutation_length, Hp.
Qed.

Lemma median_of_reals_witness :
  exists T : list R,
    Permutation T [4; 1; 3; 2] /\ Sorted Rle T /\
    median (fins [4; 1; 3; 2]) = Fin (median_of_sorted T) /\
    MinRlist [4; 1; 3; 2] <= median_of_sorted T <= MaxRlist [4; 1; 3; 2] /\
    forall l', Permutation [4; 1; 3; 2] l' ->
               median (fins l') = median (fins [4; 1; 3; 2]).
Proof. apply (median_of_reals [4; 1; 3; 2]). discriminate. Defined.

Lemma sorted_nth_le (T : list R) (i j : nat) :
  Sorted Rle T -> (i <= j < length T)%nat -> nth i T 0 <= nth j T 0.
Proof.
  intros HS. apply Sorted_StronglySorted in HS; [|intros x y z; apply Rle_trans].
  revert i j; induction HS as [|a T HS IH Hall]; intros i j Hij; simpl in Hij; [lia|].
  destruct i as [|i], j as [|j]; simpl; try lra; try lia.
  - rewrite Forall_forall in Hall. apply Hall, nth_In. lia.
  - apply IH. lia.
Qed.

Lemma rank_index_bound (n : nat) (p : R) : (0 < n)%nat -> (rank_index n p < n)%nat.
Proof. intros Hn. unfold rank_index, clamp. lia. Qed.

Lemma rank_index_monotone (n : nat) (p q : R) :
  (0 < n)%nat -> p <= q -> (rank_index n p <= rank_index n q)%nat.
Proof.
  intros Hn Hpq. unfold rank_index, clamp.
  assert (H1 : 0 <= INR n - 1).
  { apply (le_INR 1) in Hn. simpl in Hn. lra. }
  assert (Hf : (Zfloor (p * (INR n - 1)) <= Zfloor (q * (INR n - 1)))%Z).
  { apply Zfloor_le. now apply Rmult_le_compat_r. }
  lia.
Qed.

Lemma Zfloor_nonneg (x : R) : 0 <= x -> (0 <= Zfloor x)%Z.
Proof. intros H. now apply Zfloor_lub. Qed.

(** Rounding to [d] decimals keeps the order. *)
Lemma toFixed_monotone (x y : R) (d : nat) :
  x <= y -> toFixed x d <= toFixed y d.
Proof.
  intros Hxy. unfold toFixed.
  assert (Hp : 0 < 10 ^ d) by (apply pow_lt; lra).
  assert (Hip : 0 <= / 10 ^ d) by (apply Rlt_le, Rinv_0_lt_compat, Hp).
  assert (Hnn : forall z, 0 <= IZR (Zfloor (Rabs z * 10 ^ d + 1 / 2)) / 10 ^ d).
  { intros z. apply Rmult_le_pos; [|assumption].
    apply IZR_le, Zfloor_nonneg.
    pose proof (Rabs_pos z). nra. }
  destruct (Rlt_dec x 0) as [Hx|Hx], (Rlt_dec y 0) as [Hy|Hy].
  - rewrite !Rltb_true by assumption.
    apply Ropp_le_contravar, Rmult_le_compat_r; [assumption|].
    apply IZR_le, Zfloor_le.
    rewrite !Rabs_left by assumption. nra.
  - rewrite Rltb_true, Rltb_false by lra.
    pose proof (Hnn x). pose proof (Hnn y). lra.
  - lra.
  - rewrite !Rltb_false by lra.
    apply Rmult_le_compat_r; [assumption|].
    apply IZR_le, Zfloor_le.
    rewrite !Rabs_pos_eq by lra. nra.
Qed.

(** X6.  On a non-empty sequence of reals [percentile] is monotone in [p],
    its value lies between the least and the greatest entry, it does not
    depend on the order of the sequence, and the rounded values keep the
    order (so the report has [p90Ms <= p99Ms]). *)
Theorem percentile_monotone (l : list R) (p q : R) (d : nat) :
  l <> [] -> p <= q ->
  exists a b : R,
    percentile (fins l) (Fin p) = Some (Fin a) /\
    percentile (fins l) (Fin q) = Some (Fin b) /\
    MinRlist l <= a /\ a <= b /\ b <= MaxRlist l /\
    round_val (percentile (fins l) (Fin p)) d = Fin (toFixed a d) /\
    round_val (percentile (fins l) (Fin q)) d = Fin (toFixed b d) /\
    toFixed a d <= toFixed b d /\
    forall l', Permutation l l' ->
               percentile (fins l') (Fin p) = percentile (fins l) (Fin p).
Proof.
  intros Hne Hpq.
  destruct (sort_by_fins l) as (T & Hsort & Hperm & HS).
  pose proof (Permutation_length Hperm) as Hlen.
  assert (Hn : (0 < length l)%nat) by (destruct l; [contradiction | simpl; lia]).
  pose proof (rank_index_bound (length l) p Hn) as Hbp.
  pose proof (rank_index_bound (length l) q Hn) as Hbq.
  pose proof (rank_index_monotone (length l) p q Hn Hpq) as Hm.
  exists (nth (rank_index (length l) p) T 0), (nth (rank_index (length l) q) T 0).
  rewrite (percentile_fins l p T), (percentile_fins l q T) by assumption.
  split; [reflexivity|]. split; [reflexivity|].
  assert (Hab : nth (rank_index (length l) p) T 0 <= nth (rank_index (length l) q) T 0).
  { apply sorted_nth_le; [assumption | lia]. }
  split; [|split; [exact Hab|split; [|split; [reflexivity|split; [reflexivity|split]]]]].
  - apply in_min_max, (Permutation_in _ Hperm), nth_In. lia.
  - apply in_min_max, (Permutation_in _ Hperm), nth_In. lia.
  - now apply toFixed_monotone.
  - intros l' Hp.
    assert (Hne' : l' <> []).
    { intros ->. apply Permutation_sym, Permutation_nil in Hp. contradiction. }
    rewrite (percentile_fins l' p T); auto.
    + now rewrite <- (Permutation_length Hp).
    + now rewrite <- (sort_by_fins_perm l l').
    + rewrite Hlen. apply Permutation_length, Hp.
Qed.

Lemma percentile_monotone_witness :
  exists a b : R,
    percentile (fins [33; 50; 34; 31]) (Fin (9 / 10)) = Some (Fin a) /\
    percentile (fins [33; 50; 34; 31]) (Fin (99 / 100)) = Some (Fin b) /\
    a <= b.
Proof.
  destruct (percentile_monotone [33; 50; 34; 31] (9 / 10) (99 / 100) 3)
    as (a & b & Ha & Hb & _ & Hab & _); [discriminate | lra |].
  exists a, b. repeat split; assumption.
Defined.

Lemma rank_index_half (n : nat) :
  Nat.odd n = true -> rank_index n (1 / 2) = (n / 2)%nat.
Proof.
  intros Hodd. unfold rank_index, clamp.
  assert (Hn : n = (2 * (n / 2) + 1)%nat).
  { rewrite (Nat.div_mod_eq n 2) at 1. f_equal.
    rewrite <- Nat.bit0_mod. unfold Nat.odd in Hodd.
    rewrite Nat.bit0_odd. unfold Nat.odd. now rewrite Hodd. }
  assert (Hr : 1 / 2 * (INR n - 1) = IZR (Z.of_nat (n / 2))).
  { rewrite <- INR_IZR_INZ. rewrite Hn at 1.
    rewrite plus_INR, mult_INR. simpl INR. lra. }
  rewrite Hr, ZfloorZ. lia.
Qed.

(** X7.  For a sequence of reals of odd length the median is the 0.5
    percentile. *)
Theorem median_is_percentile_half (l : list R) :
  Nat.odd (length l) = true ->
  percentile (fins l) (Fin (1 / 2)) = Some (median (fins l)).
Proof.
  intros Hodd.
  assert (Hne : l <> []) by (intros ->; discriminate).
  destruct (sort_by_fins l) as (T & Hsort & Hperm & HS).
  pose proof (Permutation_length Hperm) as Hlen.
  rewrite (percentile_fins l (1 / 2) T), (median_fins l T) by assumption.
  rewrite rank_index_half by assumption.
  unfold median_of_sorted. rewrite Hlen.
  assert (Hm : (length l mod 2 =? 0)%nat = false).
  { apply Nat.eqb_neq. rewrite <- Nat.bit0_mod, Nat.bit0_odd.
    rewrite Hodd. discriminate. }
  now rewrite Hm.
Qed.

Lemma median_is_percentile_half_witness :
  percentile (fins [5; 1; 3]) (Fin (1 / 2)) = Some (median (fins [5; 1; 3])).
Proof. apply (median_is_percentile_half [5; 1; 3]). reflexivity. Defined.

(** ** Centring *)

Lemma Rsum_map_minus (m : R) (l : list R) :
  Rsum (map (fun x => x - m) l) = Rsum l - INR (length l) * m.
Proof.
  induction l as [|x l IH]; [simpl; lra|].
  cbn [map length]. change (Rsum (x - m :: map (fun y => y - m) l))
    with (x - m + Rsum (map (fun y => y - m) l)).
  change (Rsum (x :: l)) with (x + Rsum l).
  rewrite IH, S_INR. lra.
Qed.

Lemma centerZ_fins_entries (l : list R) :
  l <> [] -> centerZ (fins l) = fins (map (fun x => x - mean_R l) l).
Proof.
  intros Hne. unfold centerZ. rewrite mean_fins by assumption.
  unfold fins. rewrite !map_map. reflexivity.
Qed.

Lemma mean_R_centered (l : list R) :
  l <> [] -> mean_R (map (fun x => x - mean_R l) l) = 0.
Proof.
  intros Hne. unfold mean_R at 1. rewrite Rsum_map_minus, length_map.
  assert (Hn : INR (length l) <> 0).
  { apply INR_pos_nonzero. destruct l; [contradiction | simpl; lia]. }
  unfold mean_R. field. assumption.
Qed.

(** X8.  Centring a sequence of reals keeps its length, brings its sum (and
    mean) to 0, leaves its variance unchanged, and changes nothing when
    applied again. *)
Theorem centerZ_of_reals (l : list R) :
  exists c : list R,
    centerZ (fins l) = fins c /\
    length c = length l /\
    Rsum c = 0 /\
    mean (fins c) = Fin 0 /\
    variance (fins c) = variance (fins l) /\
    centerZ (fins c) = fins c.
Proof.
  destruct l as [|x0 l0]; [exists []; repeat split; reflexivity|].
  set (l := x0 :: l0).
  assert (Hne : l <> []) by discriminate.
  set (c := map (fun x => x - mean_R l) l).
  assert (Hc : c <> []) by discriminate.
  assert (Hlen : length c = length l) by apply length_map.
  pose proof (mean_R_centered l Hne) as Hm0. fold c in Hm0.
  exists c. split; [now apply centerZ_fins_entries|]. split; [exact Hlen|].
  assert (Hn : INR (length l) <> 0) by (apply INR_pos_nonzero; simpl; lia).
  assert (Hsum : Rsum c = 0).
  { unfold mean_R in Hm0. rewrite Hlen in Hm0.
    apply (Rmult_eq_compat_r (INR (length l))) in Hm0.
    unfold Rdiv in Hm0. rewrite Rmult_assoc, Rinv_l, Rmult_1_r, Rmult_0_l in Hm0;
      assumption. }
  split; [exact Hsum|]. split; [|split].
  - rewrite mean_fins by assumption. now rewrite Hm0.
  - destruct (Nat.lt_ge_cases (length l) 2) as [Hs|Hl].
    + rewrite !variance_short by (rewrite length_fins; lia). reflexivity.
    + rewrite !variance_fins by lia. f_equal.
      unfold sample_variance. rewrite Hm0, Hlen. f_equal. f_equal.
      unfold c. rewrite map_map. apply map_ext. intros x. lra.
  - rewrite centerZ_fins_entries by assumption. rewrite Hm0. f_equal.
    rewrite <- (map_id c) at 2. apply map_ext. intros x. lra.
Qed.

(** ** Intervals, duration and frame rate *)

Lemma Rsum_telescope (g : nat -> R) (k : nat) :
  Rsum (map (fun i => g i - g (i - 1)%nat) (seq 1 k)) = g k - g O.
Proof.
  induction k as [|k IH]; [simpl; lra|].
  rewrite seq_S, map_app. cbn [map].
  assert (Happ : forall a b, Rsum (a ++ [b]) = Rsum a + b).
  { intros a b. induction a as [|y a IHa]; simpl; [lra|].
    change (fold_right Rplus 0 (a ++ [b])) with (Rsum (a ++ [b])).
    change (fold_right Rplus 0 a) with (Rsum a). rewrite IHa. lra. }
  rewrite Happ, IH. replace (1 + k - 1)%nat with k by lia.
  replace (1 + k)%nat with (S k) by lia. lra.
Qed.

Lemma diffs_fins (s : list R) :
  diffs (fins s)
  = fins (map (fun i => nth i s 0 - nth (i - 1) s 0) (seq 1 (length s - 1))).
Proof.
  rewrite diffs_entries, length_fins. unfold fins at 3. rewrite map_map.
  apply map_ext_in. intros i Hi. apply in_seq in Hi.
  now rewrite !get_fins by lia.
Qed.

(** X9.  When the system timestamps of a run are [n >= 2] reals with the
    last one after the first, a returned report has [durationMs] equal to
    that span [D], the mean interval is [D / (n - 1)], and [fpsEst] is
    [1000 * (n - 1) / D]: frames per second over the sampled span. *)
Theorem fpsEst_is_frames_over_span (useRVFC : bool) (opts : Options)
        (trace : list Reading) (s : list R) (r : Report) :
  map now trace = fins s ->
  (2 <= length s)%nat ->
  nth 0 s 0 < nth (length s - 1) s 0 ->
  runTimingProbe useRVFC opts trace = Some r ->
  let D := nth (length s - 1) s 0 - nth 0 s 0 in
  durationMs r = Fin D /\
  mean (ifis_of (map now trace)) = Fin (D / (INR (length s) - 1)) /\
  fpsEst r = Fin (1000 * (INR (length s) - 1) / D).
Proof.
  intros Hs Hn Hlt Hr D.
  assert (HD : 0 < D) by (subst D; lra).
  assert (Hn1 : 1 <= INR (length s) - 1).
  { apply le_INR in Hn. simpl in Hn. lra. }
  assert (Hmean : mean (ifis_of (map now trace)) = Fin (D / (INR (length s) - 1))).
  { rewrite Hs. unfold ifis_of. rewrite diffs_fins.
    rewrite mean_fins.
    - unfold mean_R. rewrite length_map, length_seq.
      rewrite (Rsum_telescope (fun i => nth i s 0)).
      rewrite minus_INR by lia. simpl INR. reflexivity.
    - destruct (length s) as [|[|n]] eqn:E; simpl in *; try lia. discriminate. }
  open_report Hr mag Hmag. cbn [durationMs fpsEst].
  split; [|split; [exact Hmean|]].
  - unfold duration_of. rewrite Hs, length_fins.
    destruct (Nat.eqb_spec (length s) 0); [lia|].
    now rewrite !get_fins by lia.
  - rewrite Hmean. unfold fpsEst_of, gt. cbn [lt].
    assert (Hpos : 0 < D / (INR (length s) - 1))
      by (apply Rdiv_lt_0_compat; lra).
    rewrite Rltb_true by assumption.
    rewrite div_Fin by lra. f_equal. field. lra.
Qed.

Lemma fpsEst_is_frames_over_span_witness :
  exists r,
    runTimingProbe true (mkOptions None None)
      [mkReading (Fin 0) (Fin 0); mkReading (Fin 40) (Fin 0);
       mkReading (Fin 100) (Fin 0)] = Some r /\
    durationMs r = Fin (100 - 0) /\
    fpsEst r = Fin (1000 * (INR 3 - 1) / (100 - 0)).
Proof.
  destruct (runTimingProbe_returns true (mkOptions None None)
              [mkReading (Fin 0) (Fin 0); mkReading (Fin 40) (Fin 0);
               mkReading (Fin 100) (Fin 0)]) as [r Hr]; [simpl; lia|].
  exists r. split; [exact Hr|].
  destruct (fpsEst_is_frames_over_span true (mkOptions None None)
              [mkReading (Fin 0) (Fin 0); mkReading (Fin 40) (Fin 0);
               mkReading (Fin 100) (Fin 0)] [0; 40; 100] r)
    as (Hd & _ & Hf).
  - reflexivity.
  - simpl. lia.
  - simpl. lra.
  - exact Hr.
  - split; [exact Hd | exact Hf].
Defined.

(** ** Rounding, drop rate *)

Lemma toFixed_multiple (k : Z) (d : nat) :
  toFixed (IZR k / 10 ^ d) d = IZR k / 10 ^ d.
Proof.
  unfold toFixed.
  assert (Hp : 0 < 10 ^ d) by (apply pow_lt; lra).
  assert (Habs : Rabs (IZR k / 10 ^ d) * 10 ^ d = IZR (Z.abs k)).
  { unfold Rdiv. rewrite Rabs_mult, (Rabs_pos_eq (/ 10 ^ d))
      by (apply Rlt_le, Rinv_0_lt_compat, Hp).
    rewrite abs_IZR. field. lra. }
  rewrite Habs, (Zfloor_eq (Z.abs k)) by lra.
  destruct (Z.lt_ge_cases k 0) as [Hneg|Hpos].
  - assert (Hk : IZR k < 0) by (apply IZR_lt; assumption).
    rewrite Rltb_true.
    + rewrite Z.abs_neq, opp_IZR by lia. field. lra.
    + pose proof (Rinv_0_lt_compat _ Hp) as Hip. unfold Rdiv. nra.
  - assert (Hk : 0 <= IZR k) by (apply IZR_le; lia).
    rewrite Rltb_false.
    + now rewrite Z.abs_eq by lia.
    + apply Rmult_le_pos; [assumption | apply Rlt_le, Rinv_0_lt_compat, Hp].
Qed.

Lemma toFixed_opp (x : R) (d : nat) : toFixed (- x) d = - toFixed x d.
Proof.
  unfold toFixed. rewrite Rabs_Ropp.
  destruct (Rlt_dec x 0) as [Hx|Hx].
  - rewrite (Rltb_true x), (Rltb_false (- x)) by lra. lra.
  - destruct (Req_dec_T x 0) as [->|Hnz].
    + rewrite Ropp_0, Rabs_R0, Rmult_0_l, Rplus_0_l, (Zfloor_eq 0) by lra.
      rewrite Rltb_false by lra. lra.
    + rewrite (Rltb_false x), (Rltb_true (- x)) by lra. reflexivity.
Qed.

(** X10.  [round] keeps the order of finite numbers, changes nothing when
    applied again, commutes with negation (ties go away from zero), and
    leaves every multiple of [10^-d] as it is. *)
Theorem round_is_monotone_and_idempotent (x y : R) (d : nat) :
  (x <= y -> toFixed x d <= toFixed y d) /\
  round (Fin x) d = Fin (toFixed x d) /\
  round (round (Fin x) d) d = round (Fin x) d /\
  round (Fin (- x)) d = Fin (- toFixed x d) /\
  forall k : Z, round (Fin (IZR k / 10 ^ d)) d = Fin (IZR k / 10 ^ d).
Proof.
  split; [apply toFixed_monotone|]. split; [reflexivity|]. split; [|split].
  - cbn [round]. destruct (toFixed_near x d) as (k & -> & _).
    now rewrite toFixed_multiple.
  - cbn [round]. now rewrite toFixed_opp.
  - intros k. cbn [round]. now rewrite toFixed_multiple.
Qed.

Lemma toFixed_one (d : nat) : toFixed 1 d = 1.
Proof.
  assert (Hp : 0 < 10 ^ d) by (apply pow_lt; lra).
  assert (H10 : 10 ^ d = IZR (10 ^ Z.of_nat d)) by (now rewrite <- pow_IZR).
  replace 1 with (IZR (10 ^ Z.of_nat d) / 10 ^ d) at 1 by (rewrite <- H10; field; lra).
  rewrite toFixed_multiple, <- H10. field. lra.
Qed.

Lemma toFixed_zero (d : nat) : toFixed 0 d = 0.
Proof. pose proof (round_0 d) as H. now apply Fin_inj in H. Qed.

(** X11.  Whatever the intervals and [targetFps] are (NaN and infinities
    included), the drop rate is a real number in [0, 1], and so is the value
    the report shows for it. *)
Theorem dropRate_in_unit_interval (ifis : list num) (targetFps : num) :
  exists d d' : R,
    dropRate_of ifis targetFps = Fin d /\ 0 <= d <= 1 /\
    round (dropRate_of ifis targetFps) 6 = Fin d' /\ 0 <= d' <= 1.
Proof.
  unfold dropRate_of. rewrite safeDiv_counts.
  assert (Hc : (dropCount_of ifis targetFps <= length ifis)%nat)
    by apply filter_length_le.
  set (c := dropCount_of ifis targetFps) in *.
  set (d := if (length ifis =? 0)%nat then 0 else INR c / INR (length ifis)).
  assert (Hd : 0 <= d <= 1).
  { subst d. destruct (Nat.eqb_spec (length ifis) 0) as [|Hn]; [lra|].
    assert (Hpos : 0 < INR (length ifis)) by (apply lt_0_INR; lia).
    apply le_INR in Hc. pose proof (pos_INR c). split.
    - apply Rmult_le_pos; [assumption | apply Rlt_le, Rinv_0_lt_compat, Hpos].
    - apply Rmult_le_reg_r with (INR (length ifis)); [assumption|].
      unfold Rdiv. rewrite Rmult_assoc, Rinv_l by lra. lra. }
  exists d, (toFixed d 6). split; [reflexivity|]. split; [exact Hd|].
  split; [reflexivity|].
  split.
  - apply Rle_trans with (toFixed 0 6);
      [rewrite toFixed_zero; lra | apply toFixed_monotone; lra].
  - apply Rle_trans with (toFixed 1 6);
      [apply toFixed_monotone; lra | rewrite toFixed_one; lra].
Qed.

(** ** First maximum *)

(** X12.  On a non-empty array of reals [argmax] returns the first index
    that holds the greatest entry: no entry is above the one it returns,
    and every entry before it is strictly below. *)
Theorem argmax_is_first_maximum (a : list R) :
  a <> [] ->
  (argmax (fins a) < length a)%nat /\
  (forall k, (k < length a)%nat -> nth k a 0 <= nth (argmax (fins a)) a 0) /\
  (forall k, (k < argmax (fins a))%nat -> nth k a 0 < nth (argmax (fins a)) a 0).
Proof.
  intros Hne. unfold argmax. rewrite length_fins.
  assert (Hlen : (1 <= length a)%nat) by (destruct a; [contradiction | simpl; lia]).
  apply (for_range_inv _
    (fun i m => (m < i)%nat /\
                (forall k, (k < i)%nat -> nth k a 0 <= nth m a 0) /\
                (forall k, (k < m)%nat -> nth k a 0 < nth m a 0)));
    [assumption | |].
  - split; [lia|]. split; intros k Hk; [replace k with O by lia; lra | lia].
  - intros i m Hi (Hm & Hmax & Hfirst).
    rewrite !get_fins by lia. unfold gt; cbn [lt].
    destruct (Rlt_dec (nth m a 0) (nth i a 0)) as [Hlt|Hge].
    + rewrite Rltb_true by assumption.
      split; [lia|]. split; intros k Hk.
      * destruct (Nat.eq_dec k i) as [->|Hki]; [lra|].
        specialize (Hmax k ltac:(lia)). lra.
      * specialize (Hmax k ltac:(lia)). lra.
    + rewrite Rltb_false by lra.
      split; [lia|]. split; [|assumption]. intros k Hk.
      destruct (Nat.eq_dec k i) as [->|Hki]; [lra | apply Hmax; lia].
Qed.

Lemma argmax_is_first_maximum_witness :
  let a : list R := [1; 5; 2; 5] in
  (argmax (fins a) < length a)%nat /\
  (forall k, (k < length a)%nat -> nth k a 0 <= nth (argmax (fins a)) a 0) /\
  (forall k, (k < argmax (fins a))%nat -> nth k a 0 < nth (argmax (fins a)) a 0).
Proof. apply (argmax_is_first_maximum [1; 5; 2; 5]). discriminate. Defined.

(** ** Lags at and beyond the length of the series *)

Lemma get_map_seq (f : nat -> num) (n k : nat) :
  (k < n)%nat -> get (map f (seq 0 n)) k = f k.
Proof.
  intros Hk. unfold get.
  rewrite (nth_indep _ NaN (f O)) by now rewrite length_map, length_seq.
  rewrite map_nth, seq_nth by assumption. reflexivity.
Qed.

(** X13.  [autocorr] returns [maxLag + 1] entries.  On a series of [n]
    reals the entry of a lag below [n] is a real number, the entry of lag
    [n] is NaN (0 / 0), and the entries of the lags above [n] are 0. *)
Theorem autocorr_lags_beyond_length (c : list R) (maxLag lag : nat) :
  (lag <= maxLag)%nat ->
  length (autocorr (fins c) maxLag) = (maxLag + 1)%nat /\
  ((lag < length c)%nat -> exists r, get (autocorr (fins c) maxLag) lag = Fin r) /\
  (lag = length c -> get (autocorr (fins c) maxLag) lag = NaN) /\
  ((length c < lag)%nat -> get (autocorr (fins c) maxLag) lag = Fin 0).
Proof.
  intros Hlag. split; [apply length_autocorr|].
  rewrite autocorr_entries, get_map_seq by lia.
  destruct (variance_fins_nonzero_floor c) as (v & -> & Hv).
  rewrite length_fins. unfold of_nat. cbn [sub mul].
  split; [|split].
  - intros Hlt. pose proof (lag_sum_finite c lag) as [r Hr].
    rewrite length_fins in Hr. rewrite Hr.
    assert (Hd : INR lag < INR (length c)) by (apply lt_INR; lia).
    rewrite div_Fin; [eauto|].
    apply Rmult_integral_contrapositive_currified; lra.
  - intros ->. rewrite for_range_empty by lia. cbn [div].
    rewrite !Rzerob_true by lra. reflexivity.
  - intros Hgt. rewrite for_range_empty by lia.
    assert (Hd : INR (length c) < INR lag) by (apply lt_INR; lia).
    rewrite div_Fin by (apply Rmult_integral_contrapositive_currified; lra).
    f_equal. unfold Rdiv. apply Rmult_0_l.
Qed.

Lemma autocorr_lags_beyond_length_witness :
  length (autocorr (fins [1; -1]) 3) = 4%nat /\
  (exists r, get (autocorr (fins [1; -1]) 3) 1 = Fin r) /\
  get (autocorr (fins [1; -1]) 3) 2 = NaN /\
  get (autocorr (fins [1; -1]) 3) 3 = Fin 0.
Proof.
  destruct (autocorr_lags_beyond_length [1; -1] 3 1) as (Hl & H1 & _); [lia|].
  destruct (autocorr_lags_beyond_length [1; -1] 3 2) as (_ & _ & H2 & _); [lia|].
  destruct (autocorr_lags_beyond_length [1; -1] 3 3) as (_ & _ & _ & H3); [lia|].
  split; [exact Hl|]. split; [apply H1; simpl; lia|].
  split; [apply H2; reflexivity | apply H3; simpl; lia].
Defined.

(** ** The raw block of the report *)

(** X14.  In a returned report [nFrames] is the number of stamps,
    [raw.ifiCount] is [nFrames - 1] (0 for no stamp), and [raw.samples]
    holds the first [min(5, nFrames)] system timestamps, in order. *)
Theorem report_raw_preview (useRVFC : bool) (opts : Options)
        (trace : list Reading) (r : Report) :
  runTimingProbe useRVFC opts trace = Some r ->
  nFrames r = length trace /\
  ifiCount (raw r) = (nFrames r - 1)%nat /\
  raw_samples (raw r) = map now (firstn 5 trace) /\
  length (raw_samples (raw r)) = Nat.min 5 (nFrames r).
Proof.
  intros Hr. apply report_frame_counts in Hr as (Hn & _ & Hi & Hs).
  rewrite Hn, Hi, Hs. repeat split.
  - apply firstn_map.
  - now rewrite length_firstn, length_map.
Qed.

Lemma report_raw_preview_witness :
  exists r,
    runTimingProbe false (mkOptions None None)
      [mkReading (Fin 1) (Fin 0); mkReading (Fin 2) (Fin 0)] = Some r /\
    nFrames r = 2%nat /\ ifiCount (raw r) = 1%nat /\
    raw_samples (raw r) = [Fin 1; Fin 2].
Proof.
  destruct (runTimingProbe_returns false (mkOptions None None)
              [mkReading (Fin 1) (Fin 0); mkReading (Fin 2) (Fin 0)])
    as [r Hr]; [simpl; lia|].
  exists r. split; [exact Hr|].
  destruct (report_raw_preview false (mkOptions None None)
              [mkReading (Fin 1) (Fin 0); mkReading (Fin 2) (Fin 0)] r Hr)
    as (Hn & Hi & Hs & _).
  split; [exact Hn|]. split; [rewrite Hi, Hn; reflexivity | exact Hs].
Defined.

(** ** Hamming distance (main.js) *)

Lemma land_1_bit (x : Z) :
  Z.to_nat (Z.land x 1) = if Z.testbit x 0 then 1%nat else 0%nat.
Proof.
  change 1%Z with (Z.ones 1) at 1. rewrite Z.land_ones by lia.
  change (2 ^ 1)%Z with 2%Z. rewrite <- Z.bit0_mod.
  now destruct (Z.testbit x 0).
Qed.

Lemma length_filter_map_S (f : nat -> bool) (l : list nat) :
  length (filter f (map S l)) = length (filter (fun i => f (S i)) l).
Proof.
  induction l as [|i l IH]; [reflexivity|].
  cbn [map filter]. destruct (f (S i)); cbn [length]; now rewrite IH.
Qed.

Lemma popcount_step (x : Z) (n : nat) :
  popcount x (S n)
  = ((if Z.testbit x 0 then 1 else 0) + popcount (Z.shiftr x 1) n)%nat.
Proof.
  unfold popcount. cbn [seq filter]. change (Z.of_nat 0) with 0%Z.
  rewrite <- seq_shift.
  assert (E : length (filter (fun i => Z.testbit x (Z.of_nat (S i))) (seq 0 n))
              = length (filter (fun i => Z.testbit (Z.shiftr x 1) (Z.of_nat i))
                          (seq 0 n))).
  { f_equal. apply filter_ext. intros i.
    rewrite Z.shiftr_spec by lia. f_equal. lia. }
  destruct (Z.testbit x 0); cbn [length];
    rewrite length_filter_map_S, E; reflexivity.
Qed.

Lemma popcount_zero (n : nat) : popcount 0 n = 0%nat.
Proof.
  unfold popcount. induction (seq 0 n) as [|i l IH]; [reflexivity|].
  cbn [filter]. now rewrite Z.testbit_0_l.
Qed.

Lemma popcount_le (x : Z) (n : nat) : (popcount x n <= n)%nat.
Proof.
  unfold popcount.
  pose proof (filter_length_le (fun i => Z.testbit x (Z.of_nat i)) (seq 0 n)) as H.
  now rewrite length_seq in H.
Qed.

Lemma popcount_positive (x : Z) (n : nat) :
  (0 < x < 2 ^ Z.of_nat n)%Z -> (1 <= popcount x n)%nat.
Proof.
  intros [Hpos Hlt]. unfold popcount.
  assert (Hlog : (Z.log2 x < Z.of_nat n)%Z) by now apply Z.log2_lt_pow2.
  pose proof (Z.log2_nonneg x) as Hnn.
  assert (Hin : In (Z.to_nat (Z.log2 x))
                  (filter (fun i => Z.testbit x (Z.of_nat i)) (seq 0 n))).
  { apply filter_In. split; [apply in_seq; lia|].
    rewrite Z2Nat.id by lia. now apply Z.bit_log2. }
  destruct (filter _ _); [contradiction | simpl; lia].
Qed.

(** The loop ends within [n + 1] turns on a BigInt below [2^n] and has then
    added the number of bits set. *)
Lemma hamming_loop_counts (n : nat) (x : Z) (count fuel : nat) :
  (0 <= x < 2 ^ Z.of_nat n)%Z -> (n < fuel)%nat ->
  hamming_loop fuel x count = Some (count + popcount x n)%nat.
Proof.
  revert x count fuel; induction n as [|n IH]; intros x count fuel Hx Hf.
  - destruct fuel as [|f]; [lia|]. simpl in Hx. replace x with 0%Z by lia.
    cbn [hamming_loop Z.eqb]. now rewrite popcount_zero, Nat.add_0_r.
  - destruct fuel as [|f]; [lia|]. cbn [hamming_loop].
    destruct (Z.eqb_spec x 0) as [->|Hnz].
    + now rewrite popcount_zero, Nat.add_0_r.
    + rewrite IH; [|split|lia].
      * rewrite popcount_step, land_1_bit. f_equal. lia.
      * apply Z.shiftr_nonneg. lia.
      * rewrite Z.shiftr_div_pow2 by lia. change (2 ^ 1)%Z with 2%Z.
        rewrite Nat2Z.inj_succ, Z.pow_succ_r in Hx by lia.
        apply Z.div_lt_upper_bound; lia.
Qed.

Lemma lxor_below (a b : Z) (n : nat) :
  (0 <= a < 2 ^ Z.of_nat n)%Z -> (0 <= b < 2 ^ Z.of_nat n)%Z ->
  (0 <= Z.lxor a b < 2 ^ Z.of_nat n)%Z.
Proof.
  intros Ha Hb.
  assert (Hnn : (0 <= Z.lxor a b)%Z) by (apply Z.lxor_nonneg; lia).
  split; [assumption|].
  destruct (Z.eq_dec (Z.lxor a b) 0) as [->|Hnz]; [apply Z.pow_pos_nonneg; lia|].
  apply Z.log2_lt_pow2; [lia|].
  pose proof (Z.log2_lxor a b ltac:(lia) ltac:(lia)) as Hl.
  assert (Hn : (0 < Z.of_nat n)%Z).
  { destruct n; [|lia]. simpl in Ha, Hb.
    replace a with 0%Z in Hnz by lia. replace b with 0%Z in Hnz by lia.
    now elim Hnz. }
  assert (Hla : (Z.log2 a < Z.of_nat n)%Z).
  { destruct (Z.eq_dec a 0) as [->|Ha0]; [exact Hn | apply Z.log2_lt_pow2; lia]. }
  assert (Hlb : (Z.log2 b < Z.of_nat n)%Z).
  { destruct (Z.eq_dec b 0) as [->|Hb0]; [exact Hn | apply Z.log2_lt_pow2; lia]. }
  lia.
Qed.

Lemma popcount_lxor (a b : Z) (n : nat) :
  popcount (Z.lxor a b) n = differing_bits a b n.
Proof.
  unfold popcount, differing_bits. f_equal. apply filter_ext.
  intros i. apply Z.lxor_spec.
Qed.

(** X15.  On two non-negative BigInts below [2^n], [hamming] ends within
    [n + 1] turns of its loop and returns the number of bit positions in
    which they differ; that number is at most [n], the same for [(b, a)],
    and 0 exactly when [a = b]. *)
Theorem hamming_counts_differing_bits (a b : Z) (n fuel : nat) :
  (0 <= a < 2 ^ Z.of_nat n)%Z -> (0 <= b < 2 ^ Z.of_nat n)%Z -> (n < fuel)%nat ->
  hamming fuel a b = Some (differing_bits a b n) /\
  (differing_bits a b n <= n)%nat /\
  hamming fuel b a = hamming fuel a b /\
  (differing_bits a b n = 0%nat <-> a = b).
Proof.
  intros Ha Hb Hf.
  pose proof (lxor_below a b n Ha Hb) as Hx.
  assert (Hab : hamming fuel a b = Some (differing_bits a b n)).
  { unfold hamming. rewrite (hamming_loop_counts n) by assumption.
    now rewrite popcount_lxor. }
  split; [exact Hab|]. split; [|split].
  - rewrite <- popcount_lxor. apply popcount_le.
  - unfold hamming. now rewrite Z.lxor_comm.
  - rewrite <- popcount_lxor. split.
    + intros H0. apply Z.lxor_eq.
      destruct (Z.eq_dec (Z.lxor a b) 0) as [|Hnz]; [assumption|].
      pose proof (popcount_positive (Z.lxor a b) n ltac:(lia)). lia.
    + intros ->. rewrite Z.lxor_nilpotent. apply popcount_zero.
Qed.

Lemma hamming_counts_differing_bits_witness :
  hamming 9 12 10 = Some (differing_bits 12 10 8) /\
  (differing_bits 12 10 8 <= 8)%nat /\
  hamming 9 10 12 = hamming 9 12 10 /\
  (differing_bits 12 10 8 = 0%nat <-> 12%Z = 10%Z).
Proof.
  apply (hamming_counts_differing_bits 12 10 8 9); simpl; lia.
Defined.

(** X16.  When exactly one of the two BigInts is negative the loop of
    [hamming] never ends: [a ^ b] is negative, and shifting a negative
    BigInt right never reaches 0. *)
Theorem hamming_never_returns_on_mixed_signs (a b : Z) (fuel : nat) :
  (a < 0 <= b \/ b < 0 <= a)%Z -> hamming fuel a b = None.
Proof.
  intros Hs. unfold hamming.
  assert (Hx : (Z.lxor a b < 0)%Z).
  { destruct (Z.lt_ge_cases (Z.lxor a b) 0) as [|Hge]; [assumption|].
    apply Z.ge_le_iff, Z.ge_le, Z.lxor_nonneg in Hge. lia. }
  generalize 0%nat as count. revert Hx. generalize (Z.lxor a b) as x.
  induction fuel as [|f IH]; intros x Hx count; [reflexivity|].
  cbn [hamming_loop]. destruct (Z.eqb_spec x 0); [lia|].
  apply IH. now apply Z.shiftr_neg.
Qed.

Lemma hamming_never_returns_on_mixed_signs_witness :
  hamming 1000 (-1) 5 = None.
Proof. apply (hamming_never_returns_on_mixed_signs (-1) 5 1000). lia. Defined.

(** ** Average hash (main.js) *)

Lemma aHash_first_loop (px : list Byte.byte) (n : nat) :
  for_range 0 n
    (fun i '(vals, sum) =>
       let lum := luminance px i in (push vals lum, add sum lum))
    ([], Fin 0)
  = (map (luminance px) (seq 0 n),
     fold_left (fun s x => add s x) (map (luminance px) (seq 0 n)) (Fin 0)).
Proof.
  induction n as [|n IH]; [reflexivity|].
  rewrite for_range_last by lia. rewrite IH. cbv zeta. unfold push.
  now rewrite seq_S, map_app, fold_left_app.
Qed.

(** The bits a loop of the form [if (p i) hash |= 1n << BigInt(i)] sets. *)
Lemma hash_loop_bits (p : nat -> bool) (n : nat) :
  let H := for_range 0 n
             (fun i hash =>
                if p i then Z.lor hash (Z.shiftl 1 (Z.of_nat i)) else hash) 0%Z in
  (0 <= H)%Z /\
  forall j : Z, Z.testbit H j = ((0 <=? j)%Z && (j <? Z.of_nat n)%Z && p (Z.to_nat j)).
Proof.
  cbv zeta.
  apply (for_range_inv _
    (fun i H => (0 <= H)%Z /\
                forall j : Z,
                  Z.testbit H j
                  = ((0 <=? j)%Z && (j <? Z.of_nat i)%Z && p (Z.to_nat j))));
    [lia | |].
  - split; [lia|]. intros j. rewrite Z.testbit_0_l.
    destruct (Z.leb_spec 0 j), (Z.ltb_spec j (Z.of_nat 0)); simpl; try reflexivity; lia.
  - intros i H _ [Hnn Hbits].
    assert (Hstep : forall j : Z,
               ((0 <=? j)%Z && (j <? Z.of_nat (S i))%Z && p (Z.to_nat j))
               = ((0 <=? j)%Z && (j <? Z.of_nat i)%Z && p (Z.to_nat j)
                  || (Z.of_nat i =? j)%Z && p i)).
    { intros j. destruct (Z.eq_dec (Z.of_nat i) j) as [<-|Hne].
      - rewrite Nat2Z.id, Z.eqb_refl.
        replace (0 <=? Z.of_nat i)%Z with true by (symmetry; apply Z.leb_le; lia).
        replace (Z.of_nat i <? Z.of_nat (S i))%Z with true
          by (symmetry; apply Z.ltb_lt; lia).
        replace (Z.of_nat i <? Z.of_nat i)%Z with false
          by (symmetry; apply Z.ltb_ge; lia).
        reflexivity.
      - replace (Z.of_nat i =? j)%Z with false
          by (symmetry; apply Z.eqb_neq; assumption).
        replace (j <? Z.of_nat (S i))%Z with (j <? Z.of_nat i)%Z.
        + cbn [andb]. now rewrite orb_false_r.
        + destruct (Z.ltb_spec j (Z.of_nat i)), (Z.ltb_spec j (Z.of_nat (S i)));
            try reflexivity; lia. }
    destruct (p i) eqn:Hp.
    + split.
      * apply Z.lor_nonneg. split; [assumption|].
        rewrite Z.shiftl_1_l. apply Z.pow_nonneg. lia.
      * intros j. rewrite Z.lor_spec, Hbits, Z.shiftl_1_l, Z.pow2_bits_eqb by lia.
        rewrite Hstep. now rewrite andb_true_r.
    + split; [assumption|]. intros j. rewrite Hbits, Hstep.
      now rewrite andb_false_r, orb_false_r.
Qed.

Lemma nonneg_bits_below (H : Z) (n : nat) :
  (0 <= H)%Z -> (forall j, (Z.of_nat n <= j)%Z -> Z.testbit H j = false) ->
  (H < 2 ^ Z.of_nat n)%Z.
Proof.
  intros Hnn Hbits.
  destruct (Z.lt_ge_cases H (2 ^ Z.of_nat n)) as [|Hge]; [assumption|].
  assert (Hpos : (0 < H)%Z).
  { pose proof (Z.pow_pos_nonneg 2 (Z.of_nat n) ltac:(lia) ltac:(lia)). lia. }
  assert (Hlog : (Z.of_nat n <= Z.log2 H)%Z) by now apply Z.log2_le_pow2.
  pose proof (Z.bit_log2 H Hpos) as Hb.
  rewrite (Hbits _ Hlog) in Hb. discriminate.
Qed.

Lemma aHash_as_bit_loop (px : list Byte.byte) (w h : nat) :
  aHash px w h
  = for_range 0 (w * h)
      (fun i hash =>
         if ge (luminance px i) (mean_luminance px (w * h))
         then Z.lor hash (Z.shiftl 1 (Z.of_nat i)) else hash) 0%Z.
Proof.
  unfold aHash. rewrite aHash_first_loop.
  rewrite length_map, length_seq. fold (mean_luminance px (w * h)).
  apply for_range_ext. intros i hash Hi.
  now rewrite get_map_seq by lia.
Qed.

(** X17.  [aHash] returns a non-negative BigInt of at most [w h] bits (64
    for the default 8 by 8): it is below [2^(w h)] and none of its bits at or
    above position [w h] is set, whatever the pixel data are. *)
Theorem aHash_bits (px : list Byte.byte) (w h : nat) :
  (0 <= aHash px w h < 2 ^ Z.of_nat (w * h))%Z /\
  forall j : Z, (Z.of_nat (w * h) <= j)%Z -> Z.testbit (aHash px w h) j = false.
Proof.
  rewrite aHash_as_bit_loop.
  destruct (hash_loop_bits
              (fun i => ge (luminance px i) (mean_luminance px (w * h))) (w * h))
    as [Hnn Hbits].
  assert (Hhigh : forall j : Z, (Z.of_nat (w * h) <= j)%Z ->
            Z.testbit
              (for_range 0 (w * h)
                 (fun i hash =>
                    if ge (luminance px i) (mean_luminance px (w * h))
                    then Z.lor hash (Z.shiftl 1 (Z.of_nat i)) else hash) 0%Z) j
            = false).
  { intros j Hj. rewrite Hbits.
    destruct (Z.ltb_spec j (Z.of_nat (w * h))); [lia|]. now rewrite andb_false_r. }
  split; [split; [exact Hnn|]|exact Hhigh].
  apply nonneg_bits_below; [exact Hnn | exact Hhigh].
Qed.

Lemma luminance_agree (px px' : list Byte.byte) (i : nat) :
  (forall c, (c < 3)%nat -> nth_error px (i * 4 + c) = nth_error px' (i * 4 + c)) ->
  luminance px i = luminance px' i.
Proof.
  intros H. unfold luminance, px_at.
  pose proof (H 0%nat ltac:(lia)) as H0. rewrite Nat.add_0_r in H0.
  now rewrite H0, (H 1%nat), (H 2%nat) by lia.
Qed.

(** X18.  [aHash] reads the red, green and blue bytes of the first [w h]
    pixels only: two buffers that agree on those bytes have the same hash,
    whatever their alpha bytes and their later pixels are. *)
Theorem aHash_ignores_alpha_and_tail (px px' : list Byte.byte) (w h : nat) :
  (forall i c, (i < w * h)%nat -> (c < 3)%nat ->
               nth_error px (i * 4 + c) = nth_error px' (i * 4 + c)) ->
  aHash px w h = aHash px' w h.
Proof.
  intros Hagree.
  assert (Hlum : forall i, (i < w * h)%nat -> luminance px i = luminance px' i).
  { intros i Hi. apply luminance_agree. intros c Hc. now apply Hagree. }
  assert (Hmean : mean_luminance px (w * h) = mean_luminance px' (w * h)).
  { unfold mean_luminance. f_equal. f_equal. apply map_ext_in.
    intros i Hi. apply in_seq in Hi. apply Hlum. lia. }
  rewrite !aHash_as_bit_loop. apply for_range_ext.
  intros i hash Hi. now rewrite Hmean, Hlum by lia.
Qed.

Lemma aHash_ignores_alpha_and_tail_witness :
  aHash [Byte.x10; Byte.x20; Byte.x30; Byte.xff; Byte.x40; Byte.x50; Byte.x60; Byte.xff] 2 1
  = aHash [Byte.x10; Byte.x20; Byte.x30; Byte.x00; Byte.x40; Byte.x50; Byte.x60;
           Byte.x7f; Byte.x01] 2 1.
Proof.
  apply aHash_ignores_alpha_and_tail.
  intros i c Hi Hc.
  assert (Hi' : i = 0%nat \/ i = 1%nat) by (simpl in Hi; lia).
  assert (Hc' : c = 0%nat \/ c = 1%nat \/ c = 2%nat) by lia.
  destruct Hi' as [->| ->], Hc' as [->|[->| ->]]; reflexivity.
Defined.

Lemma fold_add_NaN (l : list num) : fold_left (fun s x => add s x) l NaN = NaN.
Proof. induction l as [|x l IH]; [reflexivity | exact IH]. Qed.

Lemma fold_add_with_NaN (l : list num) (a : num) :
  In NaN l -> fold_left (fun s x => add s x) l a = NaN.
Proof.
  revert a; induction l as [|x l IH]; intros a Hin; [destruct Hin|].
  destruct Hin as [Hx|Hin].
  - subst x. cbn [fold_left]. replace (add a NaN) with NaN by now destruct a.
    apply fold_add_NaN.
  - cbn [fold_left]. now apply IH.
Qed.

Lemma ge_NaN_r (a : num) : ge a NaN = false.
Proof. now destruct a. Qed.

(** X19.  On a buffer too short for [w h] pixels (the blue byte of the last
    pixel is missing) [aHash] returns 0: the missing byte makes the sum and
    the mean NaN, and no comparison with NaN holds. *)
Theorem aHash_of_short_buffer (px : list Byte.byte) (w h : nat) :
  (length px < 4 * (w * h) - 1)%nat -> aHash px w h = 0%Z.
Proof.
  intros Hshort. set (n := (w * h)%nat) in *.
  assert (Hn : (1 <= n)%nat) by lia.
  assert (Hlast : luminance px (n - 1) = NaN).
  { unfold luminance, px_at.
    assert (Hnone : nth_error px ((n - 1) * 4 + 2) = None)
      by (apply nth_error_None; lia).
    rewrite Hnone. cbv zeta.
    change (mul (Fin (722 / 10000)) NaN) with NaN.
    match goal with |- add ?a NaN = NaN => destruct a; reflexivity end. }
  assert (Hmean : mean_luminance px n = NaN).
  { unfold mean_luminance. rewrite fold_add_with_NaN; [reflexivity|].
    rewrite <- Hlast. apply in_map, in_seq. lia. }
  rewrite aHash_as_bit_loop. fold n. rewrite Hmean.
  apply (for_range_inv _ (fun _ H => H = 0%Z)); [lia | reflexivity|].
  intros i H _ ->. now rewrite ge_NaN_r.
Qed.

Lemma aHash_of_short_buffer_witness :
  aHash [Byte.x10; Byte.x20; Byte.x30; Byte.xff; Byte.x40; Byte.x50] 2 1 = 0%Z.
Proof. apply aHash_of_short_buffer. simpl. lia. Defined.

(** X20.  The Hamming distance of two average hashes taken with the same
    [w] and [h] is computed within [w h + 1] turns of the loop and is at
    most [w h]; it is 0 for equal hashes. *)
Theorem hamming_of_hashes (px px' : list Byte.byte) (w h fuel : nat) :
  (w * h < fuel)%nat ->
  exists k : nat,
    hamming fuel (aHash px w h) (aHash px' w h) = Some k /\
    (k <= w * h)%nat /\
    (aHash px w h = aHash px' w h -> k = 0%nat).
Proof.
  intros Hf.
  pose proof (hash_loop_bits
                (fun i => ge (luminance px i) (mean_luminance px (w * h))) (w * h))
    as [Hnn Hbits].
  pose proof (hash_loop_bits
                (fun i => ge (luminance px' i) (mean_luminance px' (w * h))) (w * h))
    as [Hnn' Hbits'].
  cbv zeta in *. rewrite <- !aHash_as_bit_loop in *.
  assert (Hlt : (aHash px w h < 2 ^ Z.of_nat (w * h))%Z).
  { apply nonneg_bits_below; [exact Hnn|]. intros j Hj. rewrite Hbits.
    destruct (Z.ltb_spec j (Z.of_nat (w * h))); [lia|]. now rewrite andb_false_r. }
  assert (Hlt' : (aHash px' w h < 2 ^ Z.of_nat (w * h))%Z).
  { apply nonneg_bits_below; [exact Hnn'|]. intros j Hj. rewrite Hbits'.
    destruct (Z.ltb_spec j (Z.of_nat (w * h))); [lia|]. now rewrite andb_false_r. }
  exists (popcount (Z.lxor (aHash px w h) (aHash px' w h)) (w * h)).
  split; [|split].
  - unfold hamming. rewrite (hamming_loop_counts (w * h)); [reflexivity| |assumption].
    apply lxor_below; lia.
  - apply popcount_le.
  - intros ->. rewrite Z.lxor_nilpotent. apply popcount_zero.
Qed.

Lemma hamming_of_hashes_witness :
  exists k : nat,
    hamming 65 (aHash [] 8 8) (aHash [Byte.x01] 8 8) = Some k /\ (k <= 64)%nat.
Proof.
  destruct (hamming_of_hashes [] [Byte.x01] 8 8 65) as (k & Hk & Hle & _);
    [simpl; lia|].
  exists k. split; [exact Hk | exact Hle].
Defined.

(** ** Bit reversal *)

Lemma pow2_pos (e : nat) : (0 < 2 ^ e)%nat.
Proof. apply Nat.neq_0_lt_0, Nat.pow_nonzero. lia. Qed.

Lemma bitrev_bound (e i : nat) : (bitrev e i < 2 ^ e)%nat.
Proof.
  revert i; induction e as [|e IH]; intros i; cbn [bitrev]; [simpl; lia|].
  specialize (IH (i / 2)%nat).
  pose proof (Nat.mod_upper_bound i 2 ltac:(lia)).
  rewrite Nat.pow_succ_r'. nia.
Qed.

Lemma bitrev_0 (e : nat) : bitrev e 0 = 0%nat.
Proof.
  induction e as [|e IH]; [reflexivity|].
  cbn [bitrev]. change (0 mod 2)%nat with 0%nat. change (0 / 2)%nat with 0%nat.
  rewrite IH. lia.
Qed.

Lemma bitrev_even (e q : nat) : bitrev (S e) (2 * q) = bitrev e q.
Proof.
  cbn [bitrev].
  replace ((2 * q) mod 2)%nat with 0%nat
    by (rewrite Nat.mul_comm; symmetry; apply Nat.Div0.mod_mul).
  replace (2 * q / 2)%nat with q
    by (rewrite Nat.mul_comm; symmetry; apply Nat.div_mul; lia).
  lia.
Qed.

Lemma bitrev_odd (e q : nat) : bitrev (S e) (2 * q + 1) = (2 ^ e + bitrev e q)%nat.
Proof.
  cbn [bitrev].
  replace ((2 * q + 1) mod 2)%nat with 1%nat.
  - replace ((2 * q + 1) / 2)%nat with q; [lia|].
    apply (Nat.div_unique _ 2 q 1); lia.
  - apply (Nat.mod_unique _ 2 q 1); lia.
Qed.

(** Peeling the top bit instead of the low one. *)
Lemma bitrev_top (e a r : nat) :
  (a < 2)%nat -> (r < 2 ^ e)%nat ->
  bitrev (S e) (2 ^ e * a + r) = (a + 2 * bitrev e r)%nat.
Proof.
  revert a r; induction e as [|e IH]; intros a r Ha Hr.
  - simpl in Hr. replace r with 0%nat by lia. cbn [bitrev Nat.pow].
    rewrite Nat.mod_small by lia. lia.
  - remember (S e) as e1. cbn [bitrev]. subst e1.
    rewrite Nat.pow_succ_r' in *.
    assert (Hmod : ((2 * 2 ^ e * a + r) mod 2 = r mod 2)%nat).
    { replace (2 * 2 ^ e * a + r)%nat with (r + (2 ^ e * a) * 2)%nat by lia.
      apply Nat.Div0.mod_add. }
    assert (Hdiv : ((2 * 2 ^ e * a + r) / 2 = 2 ^ e * a + r / 2)%nat).
    { replace (2 * 2 ^ e * a + r)%nat with (r + (2 ^ e * a) * 2)%nat by lia.
      rewrite Nat.div_add by lia. lia. }
    rewrite Hmod, Hdiv.
    assert (Hr2 : (r / 2 < 2 ^ e)%nat) by (apply Nat.Div0.div_lt_upper_bound; lia).
    rewrite (IH a (r / 2)%nat Ha Hr2).
    cbn [bitrev]. lia.
Qed.

Lemma bitrev_involutive (e i : nat) : (i < 2 ^ e)%nat -> bitrev e (bitrev e i) = i.
Proof.
  revert i; induction e as [|e IH]; intros i Hi.
  - simpl in Hi. cbn [bitrev]. lia.
  - change (bitrev (S e) i) with (2 ^ e * (i mod 2) + bitrev e (i / 2))%nat.
    pose proof (Nat.mod_upper_bound i 2 ltac:(lia)) as Hm.
    rewrite bitrev_top by (try assumption; apply bitrev_bound).
    rewrite Nat.pow_succ_r' in Hi.
    rewrite IH by (apply Nat.Div0.div_lt_upper_bound; lia).
    pose proof (Nat.div_mod_eq i 2). lia.
Qed.

Lemma bitrev_injective (e i k : nat) :
  (i < 2 ^ e)%nat -> (k < 2 ^ e)%nat -> bitrev e i = bitrev e k -> i = k.
Proof.
  intros Hi Hk H. rewrite <- (bitrev_involutive e i Hi), <- (bitrev_involutive e k Hk).
  now rewrite H.
Qed.

(** The carry loop steps the reversed counter. *)
Lemma rev_inc_bitrev (e i : nat) :
  (i + 1 < 2 ^ e)%nat -> rev_inc e (bitrev e i) = bitrev e (i + 1).
Proof.
  revert i; induction e as [|e IH]; intros i Hi; [simpl in Hi; lia|].
  rewrite Nat.pow_succ_r' in Hi.
  pose proof (Nat.div_mod_eq i 2) as Hdm.
  pose proof (Nat.mod_upper_bound i 2 ltac:(lia)) as Hm.
  pose proof (bitrev_bound e (i / 2)) as Hb.
  destruct (Nat.eq_dec (i mod 2) 0) as [H0|H1].
  - assert (Hi2 : i = (2 * (i / 2))%nat) by lia.
    rewrite Hi2 at 1 2. rewrite bitrev_even.
    replace (2 * (i / 2) + 1)%nat with (2 * (i / 2) + 1)%nat by lia.
    rewrite bitrev_odd. cbn [rev_inc].
    destruct (Nat.ltb_spec (bitrev e (i / 2)) (2 ^ e)); lia.
  - assert (Hi2 : i = (2 * (i / 2) + 1)%nat) by lia.
    rewrite Hi2 at 1 2. rewrite bitrev_odd.
    replace (2 * (i / 2) + 1 + 1)%nat with (2 * (i / 2 + 1))%nat by lia.
    rewrite bitrev_even. cbn [rev_inc].
    destruct (Nat.ltb_spec (2 ^ e + bitrev e (i / 2)) (2 ^ e)); [lia|].
    replace (2 ^ e + bitrev e (i / 2) - 2 ^ e)%nat with (bitrev e (i / 2)) by lia.
    apply IH. lia.
Qed.

Lemma rev_while_rev_inc (d fuel j : nat) :
  (d <= fuel)%nat -> (d <= 31)%nat ->
  let '(j', m') := rev_while fuel (Z.of_nat j) (Z.of_nat (2 ^ d / 2)) in
  (j' + m')%Z = Z.of_nat (rev_inc d j).
Proof.
  revert fuel j; induction d as [|d IH]; intros fuel j Hf Hd.
  - change (2 ^ 0 / 2)%nat with 0%nat.
    destruct fuel; cbn [rev_while rev_inc]; [lia|].
    change (1 <=? Z.of_nat 0)%Z with false. cbn [andb]. lia.
  - destruct fuel as [|f]; [lia|].
    assert (Hhalf : (2 ^ S d / 2 = 2 ^ d)%nat).
    { rewrite Nat.pow_succ_r', Nat.mul_comm. apply Nat.div_mul. lia. }
    rewrite Hhalf. cbn [rev_while rev_inc].
    pose proof (pow2_pos d) as Hp.
    assert (Hlt : (Z.of_nat (2 ^ d) < 2 ^ 31)%Z).
    { rewrite Nat2Z.inj_pow. change (Z.of_nat 2) with 2%Z.
      apply Z.pow_lt_mono_r; lia. }
    destruct (Z.leb_spec 1 (Z.of_nat (2 ^ d))) as [_|]; [|lia].
    cbn [andb].
    destruct (Z.leb_spec (Z.of_nat (2 ^ d)) (Z.of_nat j)) as [Hle|Hgt];
      destruct (Nat.ltb_spec j (2 ^ d)) as [Hl|Hg]; try lia.
    rewrite sar32_half by lia.
    replace (Z.of_nat j - Z.of_nat (2 ^ d))%Z with (Z.of_nat (j - 2 ^ d)) by lia.
    replace (Z.of_nat (2 ^ d) / 2)%Z with (Z.of_nat (2 ^ d / 2))
      by (rewrite Nat2Z.inj_div; reflexivity).
    apply IH; lia.
Qed.

Lemma get_swap (a : list num) (i j k : nat) :
  (i < length a)%nat -> (j < length a)%nat ->
  get (swap a i j) k =
  if Nat.eq_dec k j then get a i else if Nat.eq_dec k i then get a j else get a k.
Proof.
  intros Hi Hj; unfold swap.
  destruct (Nat.eq_dec k j) as [->|Hkj].
  - apply get_upd_same. now rewrite length_upd.
  - rewrite get_upd_other by congruence.
    destruct (Nat.eq_dec k i) as [->|Hki].
    + now apply get_upd_same.
    + apply get_upd_other; congruence.
Qed.

(** The first loop of [fft] leaves entry [bitrev e k] of the input at
    index [k]. *)
Lemma bit_reversal_entries (e : nat) (re im : list num) :
  (e <= 30)%nat -> length re = (2 ^ e)%nat -> length im = (2 ^ e)%nat ->
  forall re' im', bit_reversal re im = (re', im') ->
    length re' = (2 ^ e)%nat /\ length im' = (2 ^ e)%nat /\
    forall k, (k < 2 ^ e)%nat ->
      get re' k = get re (bitrev e k) /\ get im' k = get im (bitrev e k).
Proof.
  intros He Hre Him re' im'. unfold bit_reversal.
  set (n := (2 ^ e)%nat) in *.
  set (sel := fun i k => if ((k <? i) || (bitrev e k <? i))%nat then bitrev e k else k).
  match goal with
  | |- context [for_range ?lo ?hi ?b ?s] =>
      pose proof (for_range_inv b
        (fun i t =>
           length (fst (fst t)) = n /\ length (snd (fst t)) = n /\
           ((i < n)%nat -> snd t = Z.of_nat (bitrev e i)) /\
           forall k, (k < n)%nat ->
             get (fst (fst t)) k = get re (sel i k) /\
             get (snd (fst t)) k = get im (sel i k)) lo hi s) as H
  end.
  cbv beta in H.
  destruct (for_range _ _ _ _) as [[r1 i1] j1].
  intros Heq; injection Heq as <- <-.
  destruct H as (H1 & H2 & _ & H4).
  - lia.
  - cbn [fst snd]. repeat split; try assumption.
    intros _. now rewrite bitrev_0.
  - intros i [[r m] j] Hi (Hr & Hm & Hj & Hc). cbn [fst snd] in *.
    rewrite Hre in Hi.
    specialize (Hj ltac:(lia)). subst j.
    pose proof (bitrev_bound e i) as HJ. fold n in HJ.
    set (J := bitrev e i) in *.
    assert (HJi : bitrev e J = i) by (apply bitrev_involutive; lia).
    assert (Hother : forall k, (k < n)%nat -> bitrev e k = i -> k = J).
    { intros k Hk Hb. unfold J. rewrite <- Hb. symmetry.
      now apply bitrev_involutive. }
    pose proof (rev_while_rev_inc e 32 J ltac:(lia) ltac:(lia)) as Hw.
    rewrite Hre.
    replace (sar32 (Z.of_nat n) 1) with (Z.of_nat (2 ^ e / 2)).
    2:{ rewrite sar32_half.
        - now rewrite Nat2Z.inj_div.
        - split; [lia|]. unfold n. rewrite Nat2Z.inj_pow.
          change (Z.of_nat 2) with 2%Z. apply Z.pow_lt_mono_r; lia. }
    destruct (rev_while 32 (Z.of_nat J) (Z.of_nat (2 ^ e / 2))) as [j' m'].
    assert (Hnext : (S i < n)%nat -> (j' + m')%Z = Z.of_nat (bitrev e (S i))).
    { intros HS. rewrite Hw. f_equal. unfold J.
      replace (S i) with (i + 1)%nat by lia. apply rev_inc_bitrev. fold n. lia. }
    rewrite Nat2Z.id.
    destruct (Z.ltb_spec (Z.of_nat i) (Z.of_nat J)) as [Hlt|Hge]; cbn [fst snd].
    + rewrite !length_swap. repeat split; try assumption.
      * rewrite get_swap by lia.
        destruct (Nat.eq_dec k J) as [->|HkJ].
        -- rewrite (proj1 (Hc i ltac:(lia))). unfold sel. rewrite HJi. fold J.
           destruct (Nat.ltb_spec i i); [lia|].
           destruct (Nat.ltb_spec J i); [lia|].
           destruct (Nat.ltb_spec J (S i)); [lia|].
           destruct (Nat.ltb_spec i (S i)); [|lia]. reflexivity.
        -- destruct (Nat.eq_dec k i) as [->|Hki].
           ++ rewrite (proj1 (Hc J ltac:(lia))). unfold sel. rewrite HJi. fold J.
              destruct (Nat.ltb_spec i i); [lia|].
              destruct (Nat.ltb_spec J i); [lia|].
              destruct (Nat.ltb_spec i (S i)); [|lia]. reflexivity.
           ++ rewrite (proj1 (Hc k ltac:(lia))). unfold sel.
              assert (bitrev e k <> i) by (intros Hb; apply HkJ; now apply Hother).
              destruct (Nat.ltb_spec k i); destruct (Nat.ltb_spec k (S i)); try lia;
                destruct (Nat.ltb_spec (bitrev e k) i);
                destruct (Nat.ltb_spec (bitrev e k) (S i)); try lia; reflexivity.
      * rewrite get_swap by lia.
        destruct (Nat.eq_dec k J) as [->|HkJ].
        -- rewrite (proj2 (Hc i ltac:(lia))). unfold sel. rewrite HJi. fold J.
           destruct (Nat.ltb_spec i i); [lia|].
           destruct (Nat.ltb_spec J i); [lia|].
           destruct (Nat.ltb_spec J (S i)); [lia|].
           destruct (Nat.ltb_spec i (S i)); [|lia]. reflexivity.
        -- destruct (Nat.eq_dec k i) as [->|Hki].
           ++ rewrite (proj2 (Hc J ltac:(lia))). unfold sel. rewrite HJi. fold J.
              destruct (Nat.ltb_spec i i); [lia|].
              destruct (Nat.ltb_spec J i); [lia|].
              destruct (Nat.ltb_spec i (S i)); [|lia]. reflexivity.
           ++ rewrite (proj2 (Hc k ltac:(lia))). unfold sel.
              assert (bitrev e k <> i) by (intros Hb; apply HkJ; now apply Hother).
              destruct (Nat.ltb_spec k i); destruct (Nat.ltb_spec k (S i)); try lia;
                destruct (Nat.ltb_spec (bitrev e k) i);
                destruct (Nat.ltb_spec (bitrev e k) (S i)); try lia; reflexivity.
    + assert (Hsel : forall k, (k < n)%nat -> sel (S i) k = sel i k \/
                (sel i k = k /\ sel (S i) k = bitrev e k /\ J = i /\ k = i)).
      { intros k Hk. unfold sel.
        destruct (Nat.eq_dec (bitrev e k) i) as [Hb|Hb].
        - pose proof (Hother k Hk Hb). subst k.
          destruct (Nat.ltb_spec J i); destruct (Nat.ltb_spec J (S i)); try lia;
            rewrite Hb;
            destruct (Nat.ltb_spec i i); destruct (Nat.ltb_spec i (S i)); try lia;
            cbn [orb]; auto.
          right. repeat split; lia.
        - destruct (Nat.eq_dec k i) as [->|Hki].
          + fold J in Hb |- *.
            destruct (Nat.ltb_spec i i); destruct (Nat.ltb_spec i (S i)); try lia.
            destruct (Nat.ltb_spec J i); destruct (Nat.ltb_spec J (S i)); try lia;
              cbn [orb]; auto.
          + destruct (Nat.ltb_spec k i); destruct (Nat.ltb_spec k (S i)); try lia;
              destruct (Nat.ltb_spec (bitrev e k) i);
              destruct (Nat.ltb_spec (bitrev e k) (S i)); try lia; auto. }
      repeat split; try assumption.
      * destruct (Hsel k ltac:(lia)) as [->|(Ha & Hb & Hc1 & Hc2)];
          [apply (Hc k); lia|].
        rewrite (proj1 (Hc k ltac:(lia))), Ha, Hb. subst k. fold J. now rewrite Hc1.
      * destruct (Hsel k ltac:(lia)) as [->|(Ha & Hb & Hc1 & Hc2)];
          [apply (Hc k); lia|].
        rewrite (proj2 (Hc k ltac:(lia))), Ha, Hb. subst k. fold J. now rewrite Hc1.
  - cbn [fst snd] in *. repeat split; try assumption.
    + rewrite (proj1 (H4 k ltac:(lia))). unfold sel. rewrite Hre. fold n.
      destruct (Nat.ltb_spec k n); [reflexivity | lia].
    + rewrite (proj2 (H4 k ltac:(lia))). unfold sel. rewrite Hre. fold n.
      destruct (Nat.ltb_spec k n); [reflexivity | lia].
Qed.

(** ** One pass of butterflies *)

Lemma holds_ext (re im : list num) (n : nat) (f g : nat -> cplx) :
  (forall k, (k < n)%nat -> f k = g k) -> holds re im n f -> holds re im n g.
Proof.
  intros Hfg (Hr & Hi & Hc). repeat split; try assumption;
    rewrite <- (Hfg k) by assumption; now apply Hc.
Qed.

Lemma mod_block (q len j : nat) : (j < len)%nat -> ((q * len + j) mod len = j)%nat.
Proof.
  intros Hj. rewrite Nat.add_comm, Nat.Div0.mod_add. now apply Nat.mod_small.
Qed.

Ltac split_tests :=
  repeat match goal with
    | |- context [(?x <? ?y)%nat] => destruct (Nat.ltb_spec x y)
    | |- context [(?x <=? ?y)%nat] => destruct (Nat.leb_spec x y)
    end;
  cbn [orb andb]; try reflexivity; try lia.

(** The loop nest of one [len] replaces the contents [f] of the arrays by
    [bfly f]: every pair [(i + j, i + j + len/2)] is read before either entry
    is written, and no other pair touches it. *)
Lemma stage_holds (cnt half : nat) (re im : list num) (f : nat -> cplx) :
  (0 < half)%nat ->
  holds re im (cnt * (2 * half)) f ->
  holds (fst (stage (Z.of_nat (cnt * (2 * half))) (Z.of_nat (2 * half)) (re, im)))
        (snd (stage (Z.of_nat (cnt * (2 * half))) (Z.of_nat (2 * half)) (re, im)))
        (cnt * (2 * half)) (bfly half (- 2 * PI / INR (2 * half)) f).
Proof.
  intros Hhalf Hf. unfold stage.
  set (len := (2 * half)%nat) in *. set (n := (cnt * len)%nat) in *.
  set (theta := - 2 * PI / INR len).
  set (g := bfly half theta f).
  assert (Hang : div (Fin (-2 * PI)) (of_Z (Z.of_nat len)) = Fin theta).
  { unfold of_Z. rewrite <- INR_IZR_INZ. apply div_Fin. apply INR_pos_nonzero. lia. }
  rewrite Hang. cbn [Math_cos Math_sin].
  replace (Z.to_nat (Z.of_nat len / 2)) with half.
  2:{ unfold len. rewrite Nat2Z.inj_mul. change (Z.of_nat 2) with 2%Z.
      rewrite Z.mul_comm, Z.div_mul by lia. now rewrite Nat2Z.id. }
  replace (Z.to_nat ((Z.of_nat n + Z.of_nat len - 1) / Z.of_nat len)) with cnt.
  2:{ rewrite <- (Nat2Z.id cnt) at 1. f_equal.
      apply Z.div_unique with (Z.of_nat len - 1)%Z; [lia | unfold n; lia]. }
  rewrite Nat2Z.id. cbv zeta.
  set (body := fun (q : nat) (st : list num * list num) => _).
  assert (H : holds (fst (for_range 0 cnt body (re, im)))
                    (snd (for_range 0 cnt body (re, im))) n
                    (fun k => if (k <? cnt * len)%nat then g k else f k)).
  { apply (for_range_inv body
             (fun q t => holds (fst t) (snd t) n
                           (fun k => if (k <? q * len)%nat then g k else f k)));
      [lia | exact Hf |].
    intros q [r1 i1] Hq HP. cbn [fst snd] in HP. unfold body.
    set (done := fun j k =>
           ((k <? q * len) || ((q * len <=? k) && (k <? q * len + j))
            || ((q * len + half <=? k) && (k <? q * len + half + j)))%nat).
    match goal with
    | |- context [for_range ?lo ?hi ?b ?s] =>
        pose proof (for_range_inv b
          (fun j t =>
             holds (fst (fst (fst t))) (snd (fst (fst t))) n
                   (fun k => if done j k then g k else f k) /\
             snd (fst t) = Fin (cos (INR j * theta)) /\
             snd t = Fin (sin (INR j * theta))) lo hi s) as Hin
    end.
    cbv beta in Hin.
    destruct (for_range _ _ _ _) as [[[r2 i2] w1] w2].
    cbn [fst snd] in Hin |- *.
    destruct Hin as (Hh & _ & _).
    - lia.
    - split; [|cbn [INR]; rewrite Rmult_0_l, cos_0, sin_0; split; reflexivity].
      revert HP. apply holds_ext. intros k Hk. unfold done. split_tests.
    - intros j [[[r m] wRe] wIm] Hj ((Hr & Hm & Hc) & HwR & HwI).
      cbn [fst snd] in *. subst wRe wIm.
      assert (Hblock : (q * len + len <= n)%nat) by (unfold n; nia).
      set (a := (q * len + j)%nat).
      assert (Hda : done j a = false) by (unfold done, a; split_tests).
      assert (Hdb : done j (a + half)%nat = false) by (unfold done, a; split_tests).
      destruct (Hc a ltac:(unfold a, len in *; lia)) as [Har Hai].
      destruct (Hc (a + half)%nat ltac:(unfold a, len in *; lia)) as [Hbr Hbi].
      rewrite Hda in Har, Hai. rewrite Hdb in Hbr, Hbi.
      rewrite Har, Hai, Hbr, Hbi. cbn [add sub mul].
      assert (Hma : (a mod len = j)%nat) by (apply mod_block; unfold len; lia).
      assert (Hmb : ((a + half) mod len = j + half)%nat).
      { unfold a. rewrite <- Nat.add_assoc. apply mod_block. unfold len. lia. }
      assert (Hga : g a = Cadd (f a) (Cmul (f (a + half)%nat) (cis (INR j * theta)))).
      { unfold g, bfly. fold len. cbv zeta. rewrite Hma.
        destruct (Nat.ltb_spec j half); [reflexivity | lia]. }
      assert (Hgb : g (a + half)%nat
                    = Csub (f a) (Cmul (f (a + half)%nat) (cis (INR j * theta)))).
      { unfold g, bfly. fold len. cbv zeta. rewrite Hmb.
        destruct (Nat.ltb_spec (j + half) half); [lia|].
        replace (a + half - half)%nat with a by lia.
        replace (j + half - half)%nat with j by lia.
        reflexivity. }
      split; [|split].
      + repeat split; rewrite ?length_upd; try assumption.
        * destruct (Nat.eq_dec k (a + half)) as [->|Hkb].
          -- rewrite get_upd_same by (rewrite length_upd; unfold a, len in *; lia).
             replace (done (S j) (a + half)%nat) with true
               by (unfold done, a; split_tests).
             rewrite Hgb. reflexivity.
          -- rewrite get_upd_other by congruence.
             destruct (Nat.eq_dec k a) as [->|Hka].
             ++ rewrite get_upd_same by (unfold a, len in *; lia).
                replace (done (S j) a) with true by (unfold done, a; split_tests).
                rewrite Hga. reflexivity.
             ++ rewrite get_upd_other by congruence.
                replace (done (S j) k) with (done j k)
                  by (unfold done; unfold a in Hka, Hkb; split_tests).
                now apply Hc.
        * destruct (Nat.eq_dec k (a + half)) as [->|Hkb].
          -- rewrite get_upd_same by (rewrite length_upd; unfold a, len in *; lia).
             replace (done (S j) (a + half)%nat) with true
               by (unfold done, a; split_tests).
             rewrite Hgb. reflexivity.
          -- rewrite get_upd_other by congruence.
             destruct (Nat.eq_dec k a) as [->|Hka].
             ++ rewrite get_upd_same by (unfold a, len in *; lia).
                replace (done (S j) a) with true by (unfold done, a; split_tests).
                rewrite Hga. reflexivity.
             ++ rewrite get_upd_other by congruence.
                replace (done (S j) k) with (done j k)
                  by (unfold done; unfold a in Hka, Hkb; split_tests).
                now apply Hc.
      + f_equal. rewrite S_INR, Rmult_plus_distr_r, Rmult_1_l, cos_plus. reflexivity.
      + f_equal. rewrite S_INR, Rmult_plus_distr_r, Rmult_1_l, sin_plus. ring.
    - revert Hh. apply holds_ext. intros k Hk. unfold done. split_tests. }
  revert H. apply holds_ext. intros k Hk. fold n.
  destruct (Nat.ltb_spec k n); [reflexivity | lia].
Qed.

(** ** What the passes compute *)

Ltac complex_ring := unfold Cadd, Csub, Cmul; cbn [fst snd]; f_equal; ring.

Lemma Csum_ext (f g : nat -> cplx) (m : nat) :
  (forall t, (t < m)%nat -> f t = g t) -> Csum f m = Csum g m.
Proof.
  induction m as [|m IH]; intros H; [reflexivity|].
  cbn [Csum]. rewrite IH by (intros; apply H; lia). now rewrite H by lia.
Qed.

(** A sum over [2 m] terms as the sum of its even terms plus a common
    factor times the sum of its odd terms. *)
Lemma Csum_even_odd (h f g : nat -> cplx) (c : cplx) (m : nat) :
  (forall u, (u < m)%nat -> h (2 * u)%nat = f u) ->
  (forall u, (u < m)%nat -> h (2 * u + 1)%nat = Cmul (g u) c) ->
  Csum h (2 * m) = Cadd (Csum f m) (Cmul (Csum g m) c).
Proof.
  induction m as [|m IH]; intros He Ho.
  - change (2 * 0)%nat with 0%nat. cbn [Csum]. complex_ring.
  - replace (2 * S m)%nat with (S (S (2 * m))) by lia.
    cbn [Csum]. rewrite IH by (intros; first [apply He | apply Ho]; lia).
    rewrite (He m) by lia.
    replace (S (2 * m)) with (2 * m + 1)%nat by lia.
    rewrite (Ho m) by lia. complex_ring.
Qed.

(** The same with the odd terms negated. *)
Lemma Csum_even_minus_odd (h f g : nat -> cplx) (c : cplx) (m : nat) :
  (forall u, (u < m)%nat -> h (2 * u)%nat = f u) ->
  (forall u, (u < m)%nat -> h (2 * u + 1)%nat = Csub (0, 0) (Cmul (g u) c)) ->
  Csum h (2 * m) = Csub (Csum f m) (Cmul (Csum g m) c).
Proof.
  induction m as [|m IH]; intros He Ho.
  - change (2 * 0)%nat with 0%nat. cbn [Csum]. complex_ring.
  - replace (2 * S m)%nat with (S (S (2 * m))) by lia.
    cbn [Csum]. rewrite IH by (intros; first [apply He | apply Ho]; lia).
    rewrite (He m) by lia.
    replace (S (2 * m)) with (2 * m + 1)%nat by lia.
    rewrite (Ho m) by lia. complex_ring.
Qed.

Lemma cis_add (a b : R) : cis (a + b) = Cmul (cis a) (cis b).
Proof.
  unfold cis, Cmul; cbn [fst snd]. rewrite cos_plus, sin_plus. f_equal; ring.
Qed.

Lemma cis_period (a : R) (u : nat) : cis (a - 2 * PI * INR u) = cis a.
Proof.
  unfold cis. f_equal.
  - rewrite <- (cos_period (a - 2 * PI * INR u) u). f_equal. ring.
  - rewrite <- (sin_period (a - 2 * PI * INR u) u). f_equal. ring.
Qed.

Lemma cis_half_turn (a : R) : cis (a - PI) = Csub (0, 0) (cis a).
Proof.
  unfold cis, Csub; cbn [fst snd].
  rewrite cos_minus, sin_minus, cos_PI, sin_PI. f_equal; ring.
Qed.

Lemma cis_0 : cis 0 = (1, 0).
Proof. unfold cis. now rewrite cos_0, sin_0. Qed.

Lemma INR_pow2_nonzero (s : nat) : INR (2 ^ s) <> 0.
Proof. apply INR_pos_nonzero, pow2_pos. Qed.

(** Before the first pass the arrays hold the input in bit-reversed order. *)
Lemma sub_dft_0 (x : nat -> cplx) (e i : nat) : sub_dft x e 0 i = x (bitrev e i).
Proof.
  unfold sub_dft. cbn [Nat.pow Csum].
  rewrite Nat.div_1_r, Nat.sub_0_r. cbn [Nat.mul Nat.add INR].
  replace (-2 * PI * (INR (i mod 1) * 0) / 1) with 0 by (field).
  rewrite cis_0. destruct (x (bitrev e i)) as [a b]. complex_ring.
Qed.

(** After the last pass they hold the transform. *)
Lemma sub_dft_full (x : nat -> cplx) (e i : nat) :
  (i < 2 ^ e)%nat -> sub_dft x e e i = dft x (2 ^ e) i.
Proof.
  intros Hi. unfold sub_dft, dft.
  rewrite Nat.div_small, Nat.mod_small, Nat.sub_diag by assumption.
  apply Csum_ext. intros t _. cbn [bitrev Nat.pow].
  now rewrite Nat.mul_1_r, Nat.add_0_r.
Qed.

Lemma sub_dft_at (x : nat -> cplx) (e s b k : nat) :
  (k < 2 ^ s)%nat ->
  sub_dft x e s (b * 2 ^ s + k)
  = Csum (fun t => Cmul (x (t * 2 ^ (e - s) + bitrev (e - s) b)%nat)
                        (cis (- 2 * PI * (INR k * INR t) / INR (2 ^ s))))
         (2 ^ s).
Proof.
  intros Hk. unfold sub_dft. cbv zeta.
  rewrite mod_block by assumption.
  rewrite Nat.div_add_l by (apply Nat.pow_nonzero; lia).
  rewrite (Nat.div_small k) by assumption.
  now rewrite Nat.add_0_r.
Qed.

(** The lower output of a butterfly is the next transform at [j]. *)
Lemma sub_dft_step_lo (x : nat -> cplx) (m s q j : nat) :
  (j < 2 ^ s)%nat ->
  sub_dft x (S (s + m)) (S s) (q * (2 * 2 ^ s) + j)
  = Cadd (sub_dft x (S (s + m)) s (q * (2 * 2 ^ s) + j))
         (Cmul (sub_dft x (S (s + m)) s (q * (2 * 2 ^ s) + j + 2 ^ s))
               (cis (INR j * (- 2 * PI / INR (2 * 2 ^ s))))).
Proof.
  intros Hj.
  pose proof (INR_pow2_nonzero s) as Hnz.
  replace (q * (2 * 2 ^ s) + j + 2 ^ s)%nat with ((2 * q + 1) * 2 ^ s + j)%nat by lia.
  replace (q * (2 * 2 ^ s) + j)%nat with ((2 * q) * 2 ^ s + j)%nat at 2 by lia.
  rewrite !(sub_dft_at x (S (s + m)) s) by assumption.
  replace (q * (2 * 2 ^ s) + j)%nat with (q * 2 ^ S s + j)%nat
    by (rewrite Nat.pow_succ_r'; lia).
  rewrite sub_dft_at by (rewrite Nat.pow_succ_r'; lia).
  replace (S (s + m) - S s)%nat with m by lia.
  replace (S (s + m) - s)%nat with (S m) by lia.
  rewrite (Nat.pow_succ_r' 2 s).
  apply Csum_even_odd; intros u Hu.
  - rewrite bitrev_even. f_equal.
    + f_equal. rewrite Nat.pow_succ_r'. lia.
    + f_equal. rewrite !mult_INR. replace (INR 2) with 2 by reflexivity.
      field. exact Hnz.
  - rewrite bitrev_odd.
    replace ((2 * u + 1) * 2 ^ m + bitrev m q)%nat
      with (u * 2 ^ S m + (2 ^ m + bitrev m q))%nat
      by (rewrite Nat.pow_succ_r'; lia).
    replace (- 2 * PI * (INR j * INR (2 * u + 1)) / INR (2 * 2 ^ s))
      with (- 2 * PI * (INR j * INR u) / INR (2 ^ s)
            + INR j * (- 2 * PI / INR (2 * 2 ^ s))).
    2:{ rewrite plus_INR, !mult_INR. replace (INR 2) with 2 by reflexivity.
        replace (INR 1) with 1 by reflexivity. field. exact Hnz. }
    rewrite cis_add. complex_ring.
Qed.

(** The upper output is the next transform at [j + 2^s]. *)
Lemma sub_dft_step_hi (x : nat -> cplx) (m s q j : nat) :
  (j < 2 ^ s)%nat ->
  sub_dft x (S (s + m)) (S s) (q * (2 * 2 ^ s) + j + 2 ^ s)
  = Csub (sub_dft x (S (s + m)) s (q * (2 * 2 ^ s) + j))
         (Cmul (sub_dft x (S (s + m)) s (q * (2 * 2 ^ s) + j + 2 ^ s))
               (cis (INR j * (- 2 * PI / INR (2 * 2 ^ s))))).
Proof.
  intros Hj.
  pose proof (INR_pow2_nonzero s) as Hnz.
  replace (q * (2 * 2 ^ s) + j + 2 ^ s)%nat with ((2 * q + 1) * 2 ^ s + j)%nat
    at 2 by lia.
  replace (q * (2 * 2 ^ s) + j)%nat with ((2 * q) * 2 ^ s + j)%nat at 2 by lia.
  rewrite !(sub_dft_at x (S (s + m)) s) by assumption.
  replace (q * (2 * 2 ^ s) + j + 2 ^ s)%nat with (q * 2 ^ S s + (j + 2 ^ s))%nat
    by (rewrite Nat.pow_succ_r'; lia).
  rewrite sub_dft_at by (rewrite Nat.pow_succ_r'; lia).
  replace (S (s + m) - S s)%nat with m by lia.
  replace (S (s + m) - s)%nat with (S m) by lia.
  rewrite (Nat.pow_succ_r' 2 s).
  apply Csum_even_minus_odd; intros u Hu.
  - rewrite bitrev_even. f_equal.
    + f_equal. rewrite Nat.pow_succ_r'. lia.
    + replace (- 2 * PI * (INR (j + 2 ^ s) * INR (2 * u)) / INR (2 * 2 ^ s))
        with (- 2 * PI * (INR j * INR u) / INR (2 ^ s) - 2 * PI * INR u).
      2:{ rewrite plus_INR, !mult_INR. replace (INR 2) with 2 by reflexivity.
          field. exact Hnz. }
      now rewrite cis_period.
  - rewrite bitrev_odd.
    replace ((2 * u + 1) * 2 ^ m + bitrev m q)%nat
      with (u * 2 ^ S m + (2 ^ m + bitrev m q))%nat
      by (rewrite Nat.pow_succ_r'; lia).
    replace (- 2 * PI * (INR (j + 2 ^ s) * INR (2 * u + 1)) / INR (2 * 2 ^ s))
      with (- 2 * PI * (INR j * INR u) / INR (2 ^ s)
            + INR j * (- 2 * PI / INR (2 * 2 ^ s)) - PI - 2 * PI * INR u).
    2:{ rewrite !plus_INR, !mult_INR. replace (INR 2) with 2 by reflexivity.
        replace (INR 1) with 1 by reflexivity. field. exact Hnz. }
    rewrite cis_period, cis_half_turn, cis_add. complex_ring.
Qed.

(** One pass takes the transforms of size [2^s] to those of size [2^(s+1)]. *)
Lemma bfly_sub_dft (x : nat -> cplx) (e s i : nat) :
  (s < e)%nat ->
  bfly (2 ^ s) (- 2 * PI / INR (2 * 2 ^ s)) (sub_dft x e s) i = sub_dft x e (S s) i.
Proof.
  intros Hs.
  replace e with (S (s + (e - S s))) by lia.
  set (m := (e - S s)%nat).
  pose proof (pow2_pos s) as Hp.
  unfold bfly. cbv zeta.
  pose proof (Nat.div_mod_eq i (2 * 2 ^ s)) as Hdm.
  pose proof (Nat.mod_upper_bound i (2 * 2 ^ s) ltac:(lia)) as Hm.
  set (q := (i / (2 * 2 ^ s))%nat) in *. set (j := (i mod (2 * 2 ^ s))%nat) in *.
  destruct (Nat.ltb_spec j (2 ^ s)) as [Hlo|Hhi].
  - replace i with (q * (2 * 2 ^ s) + j)%nat by lia.
    symmetry. now apply sub_dft_step_lo.
  - replace (i - 2 ^ s)%nat with (q * (2 * 2 ^ s) + (j - 2 ^ s))%nat by lia.
    replace i with (q * (2 * 2 ^ s) + (j - 2 ^ s) + 2 ^ s)%nat by lia.
    symmetry. apply sub_dft_step_hi. lia.
Qed.

(** The loop over [len] carries the arrays from the transforms of size
    [2^s] to the transform of the whole input, and returns. *)
Lemma butterflies_dft (x : nat -> cplx) (e d : nat) :
  (e <= 29)%nat ->
  forall s fuel re im,
    (s + d = e)%nat -> (d < fuel)%nat ->
    holds re im (2 ^ e) (sub_dft x e s) ->
    exists re' im',
      butterflies fuel (Z.of_nat (2 ^ e)) (Z.of_nat (2 ^ S s)) (re, im)
        = Some (re', im') /\
      holds re' im' (2 ^ e) (sub_dft x e e).
Proof.
  intros He. induction d as [|d IH]; intros s fuel re im Hsd Hfuel Hh;
    (destruct fuel as [|f]; [lia|]); cbn [butterflies].
  - assert (s = e) by lia. subst s.
    destruct (Z.leb_spec (Z.of_nat (2 ^ S e)) (Z.of_nat (2 ^ e))) as [Hle|_].
    + rewrite Nat.pow_succ_r' in Hle. pose proof (pow2_pos e). lia.
    + now exists re, im.
  - assert (Hpow : (2 ^ e = 2 ^ (e - S s) * (2 * 2 ^ s))%nat).
    { rewrite <- Nat.pow_succ_r', <- Nat.pow_add_r. f_equal. lia. }
    assert (Hle : (2 ^ S s <= 2 ^ e)%nat) by (apply Nat.pow_le_mono_r; lia).
    assert (H29 : (Z.of_nat (2 ^ e) <= 2 ^ 29)%Z).
    { rewrite Nat2Z.inj_pow. change (Z.of_nat 2) with 2%Z.
      apply Z.pow_le_mono_r; lia. }
    pose proof (pow2_pos (S s)) as Hp.
    destruct (Z.leb_spec (Z.of_nat (2 ^ S s)) (Z.of_nat (2 ^ e))); [|lia].
    destruct (Z.leb_spec (Z.of_nat (2 ^ S s)) 0); [lia|].
    rewrite shl32_double by lia.
    replace (2 * Z.of_nat (2 ^ S s))%Z with (Z.of_nat (2 ^ S (S s)))
      by (rewrite (Nat.pow_succ_r' 2 (S s)); lia).
    rewrite (surjective_pairing (stage _ _ _)).
    apply IH; [lia | lia |].
    rewrite (Nat.pow_succ_r' 2 s).
    rewrite Hpow in Hh |- *.
    apply (holds_ext _ _ _ (bfly (2 ^ s) (- 2 * PI / INR (2 * 2 ^ s))
                              (sub_dft x e s))).
    + intros k _. apply bfly_sub_dft. lia.
    + apply stage_holds; [apply pow2_pos | exact Hh].
Qed.

Lemma fft_holds (x : nat -> cplx) (e : nat) (re im : list num) :
  (e <= 29)%nat -> holds re im (2 ^ e) x ->
  exists re' im',
    fft re im = Some (re', im') /\ holds re' im' (2 ^ e) (dft x (2 ^ e)).
Proof.
  intros He (Hr & Hi & Hc). unfold fft.
  destruct (bit_reversal re im) as [r1 i1] eqn:Hbr.
  destruct (bit_reversal_entries e re im ltac:(lia) Hr Hi r1 i1 Hbr)
    as (Hr1 & Hi1 & Hc1).
  destruct (butterflies_dft x e e He 0%nat 32%nat r1 i1) as (re' & im' & Hb & Hh).
  - lia.
  - lia.
  - repeat split; try assumption.
    + rewrite sub_dft_0, (proj1 (Hc1 k H)). apply Hc, bitrev_bound.
    + rewrite sub_dft_0, (proj2 (Hc1 k H)). apply Hc, bitrev_bound.
  - exists re', im'. rewrite Hr. split; [exact Hb|].
    revert Hh. apply holds_ext. intros k Hk. now apply sub_dft_full.
Qed.

Lemma holds_fins (xr xi : list R) (n : nat) :
  length xr = n -> length xi = n -> holds (fins xr) (fins xi) n (centry xr xi).
Proof.
  intros Hr Hi. unfold holds. rewrite !length_fins.
  repeat split; try assumption; unfold centry; cbn [fst snd];
    apply get_fins; lia.
Qed.

(** Arrays that hold [f] are arrays of reals. *)
Lemma holds_reals (re im : list num) (n : nat) (f : nat -> cplx) :
  holds re im n f ->
  re = fins (map (fun k => fst (f k)) (seq 0 n)) /\
  im = fins (map (fun k => snd (f k)) (seq 0 n)).
Proof.
  intros (Hr & Hi & Hc). unfold fins. rewrite !map_map.
  split; apply (nth_ext _ _ NaN NaN);
    rewrite ?length_map, ?length_seq; try assumption; intros k Hk.
  - rewrite Hr in Hk.
    change (get re k = get (map (fun k => Fin (fst (f k))) (seq 0 n)) k).
    rewrite get_map_seq by assumption. now apply Hc.
  - rewrite Hi in Hk.
    change (get im k = get (map (fun k => Fin (snd (f k))) (seq 0 n)) k).
    rewrite get_map_seq by assumption. now apply Hc.
Qed.

(** X21.  On two arrays of [2^e] reals, [e <= 29], [fft] returns, and it
    leaves in them the discrete Fourier transform of the complex sequence
    they held: entry [k] is the sum over [t] of
    [x t * exp(-2 pi i k t / 2^e)] (with the arithmetic taken as exact). *)
Theorem fft_computes_dft (e : nat) (xr xi : list R) :
  (e <= 29)%nat -> length xr = (2 ^ e)%nat -> length xi = (2 ^ e)%nat ->
  exists yr yi,
    fft (fins xr) (fins xi) = Some (fins yr, fins yi) /\
    length yr = (2 ^ e)%nat /\ length yi = (2 ^ e)%nat /\
    forall k, (k < 2 ^ e)%nat ->
      centry yr yi k = dft (centry xr xi) (2 ^ e) k.
Proof.
  intros He Hr Hi.
  destruct (fft_holds (centry xr xi) e (fins xr) (fins xi) He
              (holds_fins xr xi _ Hr Hi)) as (re' & im' & Hfft & Hh).
  destruct (holds_reals _ _ _ _ Hh) as [-> ->].
  eexists _, _. split; [exact Hfft|].
  rewrite !length_map, !length_seq. repeat split.
  intros k Hk. unfold centry at 1.
  rewrite (nth_indep _ 0 (fst (dft (centry xr xi) (2 ^ e) 0)))
    by now rewrite length_map, length_seq.
  rewrite (nth_indep (map (fun k => snd _) _) 0 (snd (dft (centry xr xi) (2 ^ e) 0)))
    by now rewrite length_map, length_seq.
  rewrite (map_nth (fun k => fst (dft (centry xr xi) (2 ^ e) k))).
  rewrite (map_nth (fun k => snd (dft (centry xr xi) (2 ^ e) k))).
  rewrite seq_nth by assumption. cbn [Nat.add].
  now destruct (dft (centry xr xi) (2 ^ e) k).
Qed.

Lemma fft_computes_dft_witness :
  exists yr yi,
    fft (fins [1; 2]) (fins [0; 0]) = Some (fins yr, fins yi) /\
    length yr = (2 ^ 1)%nat /\ length yi = (2 ^ 1)%nat /\
    forall k, (k < 2 ^ 1)%nat ->
      centry yr yi k = dft (centry [1; 2] [0; 0]) (2 ^ 1) k.
Proof.
  apply (fft_computes_dft 1 [1; 2] [0; 0]); [lia | reflexivity | reflexivity].
Defined.

(** ** The magnitude spectrum of a real series *)

Lemma holds_padded (l : list R) (n : nat) :
  (length l <= n)%nat ->
  holds (fins l ++ repeat (Fin 0) (n - length l)) (repeat (Fin 0) n) n (padded l).
Proof.
  intros Hn. unfold holds.
  rewrite length_app, length_fins, !repeat_length.
  split; [lia|]. split; [reflexivity|].
  intros k Hk. unfold padded. cbn [fst snd].
  split; [|now apply get_repeat].
  destruct (Nat.lt_ge_cases k (length l)) as [Hlt|Hge].
  - unfold get. rewrite app_nth1 by now rewrite length_fins.
    now apply get_fins.
  - unfold get. rewrite app_nth2 by now rewrite length_fins.
    rewrite length_fins, (nth_overflow l) by assumption.
    apply get_repeat. lia.
Qed.

Lemma padded_size_pow2 (N : nat) :
  (Z.of_nat N <= 2 ^ 29)%Z ->
  exists e, (1 <= e <= 29)%nat /\ Z.to_nat (padded_size N) = (2 ^ e)%nat /\
            (N <= 2 ^ e)%nat.
Proof.
  intros HN. destruct (padded_size_bounds N HN) as [He Hp].
  exists (Z.to_nat (Z.log2_up (Z.max 2 (Z.of_nat N)))).
  split; [lia|].
  assert (Heq : Z.to_nat (padded_size N)
                = (2 ^ Z.to_nat (Z.log2_up (Z.max 2 (Z.of_nat N))))%nat).
  { unfold padded_size. rewrite Z2Nat.inj_pow by lia. reflexivity. }
  split; [exact Heq|]. rewrite <- Heq. lia.
Qed.

(** The spectrum of a real series, bin by bin. *)
Lemma magnitudeFFT_bins (l : list R) :
  (Z.of_nat (length l) <= 2 ^ 29)%Z ->
  let n := Z.to_nat (padded_size (length l)) in
  exists mag,
    magnitudeFFT (fins l) = Some mag /\
    length mag = (n / 2)%nat /\ (1 <= n / 2)%nat /\
    get mag 0 = Fin 0 /\
    forall k, (1 <= k < n / 2)%nat -> get mag k = Fin (Cabs (dft (padded l) n k)).
Proof.
  intros HN n.
  destruct (padded_size_pow2 (length l) HN) as (e & He & Hn & Hle).
  fold n in Hn.
  destruct (magnitudeFFT_returns (fins l)) as (re' & im' & mag & Hfft & Hmag & Hlen & H0 & Hk).
  { now rewrite length_fins. }
  rewrite length_fins in Hfft, Hlen, Hk. fold n in Hfft, Hlen, Hk.
  destruct (fft_holds (padded l) e _ _ ltac:(lia)
              (holds_padded l (2 ^ e) Hle)) as (r2 & i2 & Hfft2 & _ & _ & Hc).
  rewrite Hn, Hfft2 in Hfft. injection Hfft as <- <-.
  assert (Hhalf : (n / 2 = 2 ^ (e - 1))%nat).
  { rewrite Hn. replace e with (S (e - 1)) at 1 by lia.
    rewrite Nat.pow_succ_r', Nat.mul_comm. apply Nat.div_mul. lia. }
  exists mag. split; [exact Hmag|]. split; [exact Hlen|].
  split; [rewrite Hhalf; apply pow2_pos|]. split; [exact H0|].
  intros k Hk'. rewrite (Hk k Hk').
  assert (Hkn : (k < 2 ^ e)%nat).
  { rewrite <- Hn. pose proof (Nat.Div0.div_le_upper_bound n 2 n). 
    pose proof (Nat.Div0.mul_div_le n 2). lia. }
  destruct (Hc k Hkn) as [-> ->]. rewrite Hn. reflexivity.
Qed.

(** The spectrum of a real series is a non-empty array of non-negative
    reals. *)
Lemma real_spectrum_nonneg (l : list R) :
  (Z.of_nat (length l) <= 2 ^ 29)%Z ->
  exists mags,
    magnitudeFFT (fins l) = Some (fins mags) /\ mags <> [] /\
    forall m, In m mags -> 0 <= m.
Proof.
  intros HN.
  destruct (magnitudeFFT_bins l HN) as (mag & Hmag & Hlen & H1 & H0 & Hk).
  set (n := Z.to_nat (padded_size (length l))) in *.
  set (v := fun k => if (k =? 0)%nat then 0 else Cabs (dft (padded l) n k)).
  assert (Heq : mag = fins (map v (seq 0 (n / 2)))).
  { unfold fins. rewrite map_map. apply (nth_ext _ _ NaN NaN).
    - now rewrite length_map, length_seq.
    - intros k Hk'. rewrite Hlen in Hk'.
      change (get mag k = get (map (fun x => Fin (v x)) (seq 0 (n / 2))) k).
      rewrite get_map_seq by assumption. unfold v.
      destruct (Nat.eqb_spec k 0) as [->|Hne]; [exact H0 | apply Hk; lia]. }
  exists (map v (seq 0 (n / 2))). rewrite <- Heq.
  split; [exact Hmag|]. split.
  - intros Hnil. apply (f_equal (@length R)) in Hnil.
    rewrite length_map, length_seq in Hnil. cbn [length] in Hnil. lia.
  - intros m Hin. apply in_map_iff in Hin. destruct Hin as (k & <- & _).
    unfold v. destruct (k =? 0)%nat; [lra | apply sqrt_pos].
Qed.

(** X22.  For a series of at most 2^29 reals [magnitudeFFT] returns
    [n / 2] reals, [n] the padded length: a zero in bin 0 and, in every bin
    [1 <= k < n / 2], the modulus of bin [k] of the [n]-point discrete Fourier
    transform of the series followed by zeros. *)
Theorem magnitudeFFT_is_dft_modulus (l : list R) :
  (Z.of_nat (length l) <= 2 ^ 29)%Z ->
  let n := Z.to_nat (padded_size (length l)) in
  exists mags,
    magnitudeFFT (fins l) = Some (fins mags) /\
    length mags = (n / 2)%nat /\
    nth 0 mags 0 = 0 /\
    (forall k, (1 <= k < n / 2)%nat -> nth k mags 0 = Cabs (dft (padded l) n k)) /\
    forall m, In m mags -> 0 <= m.
Proof.
  intros HN n.
  destruct (magnitudeFFT_bins l HN) as (mag & Hmag & Hlen & H1 & H0 & Hk).
  fold n in Hlen, H1, Hk.
  set (v := fun k => if (k =? 0)%nat then 0 else Cabs (dft (padded l) n k)).
  assert (Heq : mag = fins (map v (seq 0 (n / 2)))).
  { unfold fins. rewrite map_map. apply (nth_ext _ _ NaN NaN).
    - now rewrite length_map, length_seq.
    - intros k Hk'. rewrite Hlen in Hk'.
      change (get mag k = get (map (fun x => Fin (v x)) (seq 0 (n / 2))) k).
      rewrite get_map_seq by assumption. unfold v.
      destruct (Nat.eqb_spec k 0) as [->|Hne]; [exact H0 | apply Hk; lia]. }
  exists (map v (seq 0 (n / 2))). rewrite <- Heq.
  split; [exact Hmag|]. rewrite length_map, length_seq. split; [reflexivity|].
  assert (Hnth : forall k, (k < n / 2)%nat -> nth k (map v (seq 0 (n / 2))) 0 = v k).
  { intros k Hk'. rewrite (nth_indep _ 0 (v 0%nat)) by now rewrite length_map, length_seq.
    rewrite map_nth, seq_nth by assumption. reflexivity. }
  split; [|split].
  - rewrite Hnth by lia. reflexivity.
  - intros k Hk'. rewrite Hnth by lia. unfold v.
    destruct (Nat.eqb_spec k 0); [lia | reflexivity].
  - intros m Hin. apply in_map_iff in Hin. destruct Hin as (k & <- & _).
    unfold v. destruct (k =? 0)%nat; [lra | apply sqrt_pos].
Qed.

Lemma magnitudeFFT_is_dft_modulus_witness :
  exists mags,
    magnitudeFFT (fins [1; 2; 3]) = Some (fins mags) /\
    length mags = (Z.to_nat (padded_size 3) / 2)%nat /\
    nth 0 mags 0 = 0.
Proof.
  destruct (magnitudeFFT_is_dft_modulus [1; 2; 3]) as (mags & H1 & H2 & H3 & _).
  - simpl. lia.
  - exists mags. split; [exact H1 | split; [exact H2 | exact H3]].
Defined.

(** ** The peak of a spectrum *)

Lemma Rsum_nonneg (l : list R) : (forall x, In x l -> 0 <= x) -> 0 <= Rsum l.
Proof.
  induction l as [|x l IH]; intros H; simpl; [lra|].
  pose proof (H x (or_introl eq_refl)).
  pose proof (IH (fun y Hy => H y (or_intror Hy))). lra.
Qed.

Lemma Rsum_above_member (l : list R) (x : R) :
  (forall y, In y l -> 0 <= y) -> In x l -> x <= Rsum l.
Proof.
  induction l as [|y l IH]; intros H Hin; [destruct Hin|].
  pose proof (H y (or_introl eq_refl)) as Hy.
  pose proof (Rsum_nonneg l (fun z Hz => H z (or_intror Hz))) as Hl.
  destruct Hin as [->|Hin]; simpl.
  - lra.
  - pose proof (IH (fun z Hz => H z (or_intror Hz)) Hin). lra.
Qed.

(** On a non-empty spectrum of non-negative reals and a positive sample
    rate: the peak frequency is below half the rate and the peak strength
    below 1. *)
Lemma dominantFrequency_bounds (mags : list R) (rate : R) :
  mags <> [] -> (forall m, In m mags -> 0 <= m) -> 0 < rate ->
  exists f p,
    dominantFrequency (fins mags) (Fin rate)
    = {| peakFreqHz := Fin f; peakStrength := Fin p |} /\
    0 <= f < rate / 2 /\ 0 <= p < 1.
Proof.
  intros Hne Hpos Hrate.
  assert (Hlen : (0 < length mags)%nat) by (destruct mags; [contradiction | simpl; lia]).
  pose proof (Rsum_nonneg mags Hpos) as Hsum.
  unfold dominantFrequency.
  pose proof (peak_search_spec (fins mags)) as Hps. cbv zeta in Hps.
  destruct (peak_search (fins mags)) as [bestK best]. cbn [fst snd] in Hps.
  destruct Hps as [Hshape _]. rewrite length_fins in *.
  assert (Hbest : exists b, best = Fin b /\ 0 <= b <= Rsum mags /\
                            (bestK < length mags)%nat).
  { destruct Hshape as [[-> ->]|[Hk ->]].
    - exists 0. split; [reflexivity|]. split; [lra | lia].
    - exists (nth bestK mags 0). split; [apply get_fins; lia|].
      assert (Hin : In (nth bestK mags 0) mags) by (apply nth_In; lia).
      split; [|lia]. split; [now apply Hpos | now apply Rsum_above_member]. }
  destruct Hbest as (b & -> & Hb & Hk).
  unfold or_else. cbn [truthy]. rewrite Rzerob_false by lra. cbn [negb].
  rewrite sum_fins. unfold of_nat. cbn [mul add].
  assert (HN : INR (length mags * 2) = 2 * INR (length mags)).
  { rewrite mult_INR. replace (INR 2) with 2 by reflexivity. ring. }
  assert (HL : 0 < INR (length mags)) by (apply lt_0_INR; lia).
  rewrite !div_Fin by lra.
  eexists _, _. split; [reflexivity|].
  assert (Hki : 0 <= INR bestK < INR (length mags)).
  { split; [apply pos_INR | now apply lt_INR]. }
  split; split.
  - apply Rmult_le_pos; [apply Rmult_le_pos; lra|].
    apply Rlt_le, Rinv_0_lt_compat. lra.
  - rewrite HN. apply (Rmult_lt_reg_r (2 * INR (length mags))); [lra|].
    unfold Rdiv. rewrite Rmult_assoc, Rinv_l by lra.
    nra.
  - apply Rmult_le_pos; [lra|]. apply Rlt_le, Rinv_0_lt_compat. lra.
  - apply (Rmult_lt_reg_r (Rsum mags + 1 / 10 ^ 9)); [lra|].
    unfold Rdiv at 1. rewrite Rmult_assoc, Rinv_l by lra. lra.
Qed.

(** X23.  For a series of at most 2^29 reals and a positive sample rate,
    the peak that [dominantFrequency] finds in the spectrum of
    [magnitudeFFT] has a frequency in [0, rate / 2) and a strength in
    [0, 1). *)
Theorem spectrum_peak_bounds (l : list R) (rate : R) :
  (Z.of_nat (length l) <= 2 ^ 29)%Z -> 0 < rate ->
  exists mag f p,
    magnitudeFFT (fins l) = Some mag /\
    dominantFrequency mag (Fin rate)
    = {| peakFreqHz := Fin f; peakStrength := Fin p |} /\
    0 <= f < rate / 2 /\ 0 <= p < 1.
Proof.
  intros HN Hrate.
  destruct (real_spectrum_nonneg l HN) as (mags & Hmag & Hne & Hpos).
  destruct (dominantFrequency_bounds mags rate Hne Hpos Hrate) as (f & p & Hd & Hf & Hp).
  exists (fins mags), f, p. repeat split; try assumption; lra.
Qed.

Lemma spectrum_peak_bounds_witness :
  exists mag f p,
    magnitudeFFT (fins [1; 2; 3]) = Some mag /\
    dominantFrequency mag (Fin 30)
    = {| peakFreqHz := Fin f; peakStrength := Fin p |} /\
    0 <= f < 30 / 2 /\ 0 <= p < 1.
Proof. apply (spectrum_peak_bounds [1; 2; 3] 30); [simpl; lia | lra]. Defined.

(** The sample rate the probe hands to [dominantFrequency] is a positive
    real: the estimated frame rate, or 30 when that is 0. *)
Lemma probe_sample_rate (d : list R) :
  exists fps rate,
    fpsEst_of (mean (fins d)) = Fin fps /\
    (if truthy (Fin fps) then Fin fps else Fin 30) = Fin rate /\
    0 < rate /\ rate = (if Rltb 0 fps then fps else 30).
Proof.
  assert (Hm : exists m, mean (fins d) = Fin m).
  { destruct d as [|x d]; [now exists 0|].
    eexists. apply mean_fins. discriminate. }
  destruct Hm as [m ->]. unfold fpsEst_of, gt. cbn [lt].
  destruct (Rlt_dec 0 m) as [Hpos|Hneg].
  - rewrite Rltb_true by assumption. rewrite div_Fin by lra.
    assert (H : 0 < 1000 / m) by (apply Rdiv_lt_0_compat; lra).
    exists (1000 / m), (1000 / m). cbn [truthy].
    rewrite Rzerob_false by lra. rewrite Rltb_true by assumption.
    repeat split; assumption.
  - rewrite Rltb_false by lra.
    exists 0, 30. cbn [truthy]. rewrite Rzerob_true by reflexivity.
    rewrite Rltb_false by lra. cbn [negb]. repeat split; lra.
Qed.

(** X24.  When the system timestamps of a run are reals, at most 2^29 of
    them, the probe returns a report whose [peakStrength] lies in [0, 1] and
    whose [peakFreqHz] lies between 0 and half the sample rate rounded to 4
    decimals, the sample rate being the reported [fpsEst] or 30 when that
    is 0. *)
Theorem report_peak_in_range (useRVFC : bool) (opts : Options)
        (trace : list Reading) (s : list R) :
  map now trace = fins s ->
  (Z.of_nat (length trace) <= 2 ^ 29)%Z ->
  exists r f p fps,
    runTimingProbe useRVFC opts trace = Some r /\
    peakFreqHz (spectrum (ifi r)) = Fin f /\
    peakStrength (spectrum (ifi r)) = Fin p /\
    fpsEst r = Fin fps /\
    0 <= p <= 1 /\
    0 <= f <= toFixed ((if Rltb 0 fps then fps else 30) / 2) 4.
Proof.
  intros Hs HN.
  set (d := map (fun i => nth i s 0 - nth (i - 1) s 0) (seq 1 (length s - 1))).
  assert (Hifis : ifis_of (map now trace) = fins d).
  { rewrite Hs. unfold ifis_of. apply diffs_fins. }
  destruct (centerZ_fins d) as (c & Hc & Hlc).
  assert (Hld : length d = (length trace - 1)%nat).
  { unfold d. rewrite length_map, length_seq.
    rewrite <- (length_map now trace), Hs, length_fins. reflexivity. }
  destruct (real_spectrum_nonneg c) as (mags & Hmag & Hne & Hpos).
  { rewrite Hlc, Hld. lia. }
  destruct (probe_sample_rate d) as (fps & rate & Hfps & Hrate & Hrpos & Hreq).
  destruct (dominantFrequency_bounds mags rate Hne Hpos Hrpos)
    as (f & p & Hd & Hf & Hp).
  assert (Hrun : exists r, runTimingProbe useRVFC opts trace = Some r)
    by now apply runTimingProbe_returns.
  destruct Hrun as [r Hr]. exists r, (toFixed f 4), (toFixed p 6), fps.
  split; [exact Hr|].
  open_report Hr mag Hmag'.
  rewrite Hifis, Hc, Hmag in Hmag'. injection Hmag' as <-.
  cbn [ifi spectrum fpsEst]. rewrite Hifis, Hfps, Hrate, Hd.
  cbn [peakFreqHz peakStrength round].
  repeat split; try reflexivity.
  - apply Rle_trans with (toFixed 0 6);
      [rewrite toFixed_zero; lra | apply toFixed_monotone; lra].
  - apply Rle_trans with (toFixed 1 6);
      [apply toFixed_monotone; lra | rewrite toFixed_one; lra].
  - apply Rle_trans with (toFixed 0 4);
      [rewrite toFixed_zero; lra | apply toFixed_monotone; lra].
  - rewrite <- Hreq. apply toFixed_monotone. lra.
Qed.

Lemma report_peak_in_range_witness :
  exists r f p fps,
    runTimingProbe true (mkOptions None None)
      [mkReading (Fin 0) (Fin 0); mkReading (Fin 40) (Fin 0);
       mkReading (Fin 100) (Fin 0)] = Some r /\
    peakFreqHz (spectrum (ifi r)) = Fin f /\
    peakStrength (spectrum (ifi r)) = Fin p /\
    fpsEst r = Fin fps /\
    0 <= p <= 1 /\
    0 <= f <= toFixed ((if Rltb 0 fps then fps else 30) / 2) 4.
Proof.
  apply (report_peak_in_range true (mkOptions None None)
           [mkReading (Fin 0) (Fin 0); mkReading (Fin 40) (Fin 0);
            mkReading (Fin 100) (Fin 0)] [0; 40; 100]);
    [reflexivity | simpl; lia].
Defined.

(** ** The bit-reversal loop as a permutation *)

(** Bit [j] of [bitrev e i] is bit [e - 1 - j] of [i]. *)
Lemma bitrev_testbit (e i j : nat) :
  (j < e)%nat -> Nat.testbit (bitrev e i) j = Nat.testbit i (e - 1 - j).
Proof.
  rewrite !Nat.testbit_eqb. intros Hj. f_equal.
  revert i j Hj; induction e as [|e IH]; intros i j Hj; [lia|].
  cbn [bitrev].
  pose proof (Nat.mod_upper_bound i 2 ltac:(lia)) as Hb.
  pose proof (bitrev_bound e (i / 2)) as Hr.
  destruct (Nat.eq_dec j e) as [->|Hne].
  - replace (S e - 1 - e)%nat with 0%nat by lia.
    rewrite (Nat.mul_comm (2 ^ e)), Nat.div_add_l by (apply Nat.pow_nonzero; lia).
    rewrite Nat.div_small by assumption.
    rewrite Nat.add_0_r, Nat.pow_0_r, Nat.div_1_r.
    apply Nat.Div0.mod_mod.
  - replace (S e - 1 - j)%nat with (S (e - 1 - j)) by lia.
    rewrite Nat.pow_succ_r', <- Nat.Div0.div_div, <- (IH (i / 2)%nat j) by lia.
    replace (2 ^ e)%nat with (2 ^ (e - j - 1) * 2 * 2 ^ j)%nat.
    2:{ rewrite (Nat.mul_comm (2 ^ (e - j - 1)) 2).
        rewrite <- Nat.pow_succ_r', <- Nat.pow_add_r. f_equal. lia. }
    replace (2 ^ (e - j - 1) * 2 * 2 ^ j * (i mod 2))%nat
      with ((2 ^ (e - j - 1) * (i mod 2) * 2) * 2 ^ j)%nat by lia.
    rewrite Nat.div_add_l by (apply Nat.pow_nonzero; lia).
    rewrite Nat.add_comm. apply Nat.Div0.mod_add.
Qed.

(** X25.  On arrays of [2^e] entries, [e <= 30], the first loop of [fft]
    moves the entry at index [i] to the index whose [e] low bits are those of
    [i] in reverse order, in both arrays, whatever the entries are; running
    it a second time restores the arrays. *)
Theorem bit_reversal_involutive (e : nat) (re im : list num) :
  (e <= 30)%nat -> length re = (2 ^ e)%nat -> length im = (2 ^ e)%nat ->
  let st := bit_reversal re im in
  (forall k, (k < 2 ^ e)%nat ->
     get (fst st) k = get re (bitrev e k) /\
     get (snd st) k = get im (bitrev e k) /\
     (bitrev e k < 2 ^ e)%nat /\
     forall j, (j < e)%nat ->
       Nat.testbit (bitrev e k) j = Nat.testbit k (e - 1 - j)) /\
  bit_reversal (fst st) (snd st) = (re, im).
Proof.
  intros He Hr Hi st.
  destruct (bit_reversal_entries e re im He Hr Hi (fst st) (snd st))
    as (Hr1 & Hi1 & Hc1); [subst st; apply surjective_pairing|].
  split.
  - intros k Hk. destruct (Hc1 k Hk) as [H1 H2].
    repeat split; try assumption; [apply bitrev_bound|].
    intros j Hj. now apply bitrev_testbit.
  - destruct (bit_reversal (fst st) (snd st)) as [r2 i2] eqn:Hb2.
    destruct (bit_reversal_entries e _ _ He Hr1 Hi1 r2 i2 Hb2) as (Hr2 & Hi2 & Hc2).
    f_equal; apply (nth_ext _ _ NaN NaN); try congruence;
      intros k Hk; rewrite ?Hr2, ?Hi2 in Hk.
    + change (get r2 k = get re k).
      rewrite (proj1 (Hc2 k Hk)), (proj1 (Hc1 _ (bitrev_bound e k))).
      now rewrite bitrev_involutive.
    + change (get i2 k = get im k).
      rewrite (proj2 (Hc2 k Hk)), (proj2 (Hc1 _ (bitrev_bound e k))).
      now rewrite bitrev_involutive.
Qed.

Lemma bit_reversal_involutive_witness :
  let st := bit_reversal [Fin 0; Fin 1; Fin 2; Fin 3] [NaN; PInf; NInf; Fin 0] in
  (forall k, (k < 2 ^ 2)%nat ->
     get (fst st) k = get [Fin 0; Fin 1; Fin 2; Fin 3] (bitrev 2 k) /\
     get (snd st) k = get [NaN; PInf; NInf; Fin 0] (bitrev 2 k) /\
     (bitrev 2 k < 2 ^ 2)%nat /\
     forall j, (j < 2)%nat ->
       Nat.testbit (bitrev 2 k) j = Nat.testbit k (2 - 1 - j)) /\
  bit_reversal (fst st) (snd st)
  = ([Fin 0; Fin 1; Fin 2; Fin 3], [NaN; PInf; NInf; Fin 0]).
Proof.
  apply (bit_reversal_involutive 2 [Fin 0; Fin 1; Fin 2; Fin 3]
           [NaN; PInf; NInf; Fin 0]); [lia | reflexivity | reflexivity].
Defined.

(** ** The spectrum of a sinusoid *)

Lemma Csum_lin (c1 c2 : cplx) (f g : nat -> cplx) (n : nat) :
  Csum (fun t => Cadd (Cmul c1 (f t)) (Cmul c2 (g t))) n
  = Cadd (Cmul c1 (Csum f n)) (Cmul c2 (Csum g n)).
Proof.
  induction n as [|n IH]; cbn [Csum]; [|rewrite IH]; complex_ring.
Qed.

Lemma Csum_ones (n : nat) : Csum (fun _ => (1, 0)) n = (INR n, 0).
Proof.
  induction n as [|n IH]; [reflexivity|].
  cbn [Csum]. rewrite IH, S_INR. complex_ring.
Qed.

(** [(z - 1) (1 + z + ... + z^(n-1)) = z^n - 1] for [z = cis theta]. *)
Lemma geom_telescope (theta : R) (n : nat) :
  Cmul (Csub (cis theta) (1, 0)) (Csum (fun t => cis (INR t * theta)) n)
  = Csub (cis (INR n * theta)) (1, 0).
Proof.
  induction n as [|n IH].
  - cbn [Csum INR]. rewrite Rmult_0_l, cis_0. complex_ring.
  - cbn [Csum]. rewrite S_INR, Rmult_plus_distr_r, Rmult_1_l, cis_add.
    transitivity (Cadd (Cmul (Csub (cis theta) (1, 0))
                              (Csum (fun t => cis (INR t * theta)) n))
                       (Cmul (Csub (cis theta) (1, 0)) (cis (INR n * theta))));
      [complex_ring|].
    rewrite IH. complex_ring.
Qed.

Lemma Cmul_zero (z w : cplx) :
  fst z <> 0 -> Cmul z w = (0, 0) -> w = (0, 0).
Proof.
  destruct z as [a b], w as [c d]. unfold Cmul. cbn [fst snd].
  intros Ha H. injection H as H1 H2.
  assert (Hn : 0 < a * a + b * b) by (destruct (Rdichotomy _ _ Ha); nra).
  assert (Hc : (a * a + b * b) * c = 0).
  { replace ((a * a + b * b) * c) with (a * (a * c - b * d) + b * (a * d + b * c))
      by ring.
    rewrite H1, H2. ring. }
  assert (Hd : (a * a + b * b) * d = 0).
  { replace ((a * a + b * b) * d) with (a * (a * d + b * c) - b * (a * c - b * d))
      by ring.
    rewrite H1, H2. ring. }
  apply Rmult_integral in Hc, Hd.
  f_equal; [destruct Hc | destruct Hd]; lra.
Qed.

(** The sum of the powers of an [n]-th root of unity other than 1 is 0. *)
Lemma geom_zero (theta : R) (n : nat) :
  cos theta <> 1 -> cis (INR n * theta) = (1, 0) ->
  Csum (fun t => cis (INR t * theta)) n = (0, 0).
Proof.
  intros Hc Hn. apply (Cmul_zero (Csub (cis theta) (1, 0))).
  - unfold Csub, cis. cbn [fst snd]. lra.
  - rewrite geom_telescope, Hn. complex_ring.
Qed.

Lemma cos_not_1 (theta : R) :
  - (2 * PI) < theta < 2 * PI -> theta <> 0 -> cos theta <> 1.
Proof.
  intros Hr Hne.
  replace theta with (2 * (theta / 2)) by field.
  rewrite cos_2a_sin.
  assert (Hs : sin (theta / 2) <> 0).
  { destruct (Rlt_dec 0 theta) as [Hpos|Hneg].
    - apply Rgt_not_eq, sin_gt_0; lra.
    - assert (H : 0 < sin (- (theta / 2))) by (apply sin_gt_0; lra).
      rewrite sin_neg in H. lra. }
  nra.
Qed.

Lemma cis_whole_turns (m : nat) :
  cis (2 * PI * INR m) = (1, 0) /\ cis (- (2 * PI * INR m)) = (1, 0).
Proof.
  split.
  - rewrite <- cis_0. rewrite <- (cis_period (2 * PI * INR m) m). f_equal. ring.
  - rewrite <- cis_0. rewrite <- (cis_period 0 m). f_equal. ring.
Qed.

Lemma geom_root (m n : nat) :
  (0 < m < n)%nat ->
  Csum (fun t => cis (INR t * (2 * PI * INR m / INR n))) n = (0, 0) /\
  Csum (fun t => cis (INR t * (- (2 * PI * INR m) / INR n))) n = (0, 0).
Proof.
  intros Hm.
  assert (Hn : 0 < INR n) by (apply lt_0_INR; lia).
  assert (Hm0 : 0 < INR m) by (apply lt_0_INR; lia).
  assert (Hmn : INR m < INR n) by (apply lt_INR; lia).
  assert (Hfrac : 0 < INR m / INR n < 1).
  { split; [apply Rdiv_lt_0_compat; lra|].
    apply (Rmult_lt_reg_r (INR n)); [lra|].
    unfold Rdiv. rewrite Rmult_assoc, Rinv_l by lra. lra. }
  pose proof PI_RGT_0 as Hpi.
  destruct (cis_whole_turns m) as [Hp Hq].
  split; apply geom_zero.
  - apply cos_not_1.
    + replace (2 * PI * INR m / INR n) with (2 * PI * (INR m / INR n)) by (field; lra).
      nra.
    + replace (2 * PI * INR m / INR n) with (2 * PI * (INR m / INR n)) by (field; lra).
      nra.
  - rewrite <- Hp. f_equal. field. lra.
  - apply cos_not_1.
    + replace (- (2 * PI * INR m) / INR n) with (- (2 * PI * (INR m / INR n)))
        by (field; lra).
      nra.
    + replace (- (2 * PI * INR m) / INR n) with (- (2 * PI * (INR m / INR n)))
        by (field; lra).
      nra.
  - rewrite <- Hq. f_equal. field. lra.
Qed.

Lemma tone_term (A phi a b : R) :
  Cmul (A * cos (a + phi), 0) (cis (- b))
  = Cadd (Cmul (A / 2 * cos phi, A / 2 * sin phi) (cis (a - b)))
         (Cmul (A / 2 * cos phi, - (A / 2 * sin phi)) (cis (- (a + b)))).
Proof.
  unfold cis, Cmul, Cadd. cbn [fst snd].
  rewrite !cos_neg, !sin_neg, !cos_minus, !sin_minus, !cos_plus, !sin_plus.
  f_equal; field.
Qed.

Lemma nth_tone (A phi : R) (k0 n t : nat) :
  (t < n)%nat ->
  nth t (tone A phi k0 n) 0 = A * cos (2 * PI * INR k0 * INR t / INR n + phi).
Proof.
  intros Ht. unfold tone.
  rewrite (nth_indep _ 0 (A * cos (2 * PI * INR k0 * INR 0 / INR n + phi)))
    by now rewrite length_map, length_seq.
  rewrite (map_nth (fun t => A * cos (2 * PI * INR k0 * INR t / INR n + phi))).
  now rewrite seq_nth by assumption.
Qed.

(** The transform of a sinusoid as two sums of powers of roots of unity. *)
Lemma dft_tone_split (A phi : R) (k0 n k : nat) :
  (0 < n)%nat ->
  dft (padded (tone A phi k0 n)) n k
  = Cadd (Cmul (A / 2 * cos phi, A / 2 * sin phi)
               (Csum (fun t => cis (INR t * (2 * PI * INR k0 / INR n
                                             - 2 * PI * INR k / INR n))) n))
         (Cmul (A / 2 * cos phi, - (A / 2 * sin phi))
               (Csum (fun t => cis (INR t * (- (2 * PI * INR (k0 + k)) / INR n))) n)).
Proof.
  intros Hn.
  assert (Hnz : INR n <> 0) by (apply INR_pos_nonzero; lia).
  rewrite <- Csum_lin. unfold dft. apply Csum_ext. intros t Ht.
  unfold padded. rewrite nth_tone by assumption.
  replace (- 2 * PI * (INR k * INR t) / INR n)
    with (- (2 * PI * INR k * INR t / INR n)) by (field; exact Hnz).
  rewrite tone_term. f_equal; f_equal; f_equal.
  - field. exact Hnz.
  - rewrite plus_INR. field. exact Hnz.
Qed.

(** Bin [k0] of the transform of the sinusoid has modulus [A n / 2]; the
    other bins below [n / 2] are 0. *)
Lemma dft_tone (A phi : R) (k0 n k : nat) :
  0 <= A -> (1 <= k0)%nat -> (1 <= k)%nat -> (k0 + k < n)%nat ->
  Cabs (dft (padded (tone A phi k0 n)) n k)
  = if (k =? k0)%nat then A * INR n / 2 else 0.
Proof.
  intros HA Hk0 Hk Hsum.
  assert (Hnz : INR n <> 0) by (apply INR_pos_nonzero; lia).
  rewrite dft_tone_split by lia.
  rewrite (proj2 (geom_root (k0 + k) n ltac:(lia))).
  destruct (Nat.eqb_spec k k0) as [->|Hne].
  - rewrite (Csum_ext _ (fun _ => (1, 0))).
    2:{ intros t _. rewrite <- cis_0. f_equal. ring. }
    rewrite Csum_ones. unfold Cabs, Cadd, Cmul. cbn [fst snd].
    replace ((A / 2 * cos phi * INR n - A / 2 * sin phi * 0
              + (A / 2 * cos phi * 0 - - (A / 2 * sin phi) * 0))
             * (A / 2 * cos phi * INR n - A / 2 * sin phi * 0
                + (A / 2 * cos phi * 0 - - (A / 2 * sin phi) * 0))
             + (A / 2 * cos phi * 0 + A / 2 * sin phi * INR n
                + (A / 2 * cos phi * 0 + - (A / 2 * sin phi) * 0))
               * (A / 2 * cos phi * 0 + A / 2 * sin phi * INR n
                  + (A / 2 * cos phi * 0 + - (A / 2 * sin phi) * 0)))
      with ((A * INR n / 2) * (A * INR n / 2) * (Rsqr (sin phi) + Rsqr (cos phi)))
      by (unfold Rsqr; field).
    rewrite sin2_cos2, Rmult_1_r. apply sqrt_square.
    pose proof (pos_INR n). nra.
  - assert (H0 : Csum (fun t => cis (INR t * (2 * PI * INR k0 / INR n
                                              - 2 * PI * INR k / INR n))) n
                 = (0, 0)).
    { destruct (Nat.lt_ge_cases k k0) as [Hlt|Hge].
      - rewrite <- (proj1 (geom_root (k0 - k) n ltac:(lia))).
        apply Csum_ext. intros t _. f_equal. f_equal.
        rewrite minus_INR by lia. field. exact Hnz.
      - rewrite <- (proj2 (geom_root (k - k0) n ltac:(lia))).
        apply Csum_ext. intros t _. f_equal. f_equal.
        rewrite minus_INR by lia. field. exact Hnz. }
    rewrite H0. unfold Cabs, Cadd, Cmul. cbn [fst snd].
    match goal with |- sqrt ?x = 0 => replace x with 0 by ring end.
    apply sqrt_0.
Qed.

Lemma reals_of_entries (arr : list num) (m : nat) (v : nat -> R) :
  length arr = m -> (forall k, (k < m)%nat -> get arr k = Fin (v k)) ->
  arr = fins (map v (seq 0 m)).
Proof.
  intros Hlen Hget. unfold fins. rewrite map_map. apply (nth_ext _ _ NaN NaN).
  - now rewrite length_map, length_seq.
  - intros k Hk. rewrite Hlen in Hk.
    change (get arr k = get (map (fun x => Fin (v x)) (seq 0 m)) k).
    rewrite get_map_seq by assumption. now apply Hget.
Qed.

Lemma Rsum_app (a b : list R) : Rsum (a ++ b) = Rsum a + Rsum b.
Proof. induction a as [|x a IH]; simpl; [lra | rewrite IH; lra]. Qed.

Lemma Rsum_single (M : R) (k0 m : nat) :
  Rsum (map (fun k => if (k =? k0)%nat then M else 0) (seq 0 m))
  = if (k0 <? m)%nat then M else 0.
Proof.
  induction m as [|m IH]; [reflexivity|].
  rewrite seq_S, map_app, Rsum_app, IH. cbn [map Nat.add Rsum fold_right].
  destruct (Nat.eqb_spec m k0); destruct (Nat.ltb_spec k0 m);
    destruct (Nat.ltb_spec k0 (S m)); try lia; lra.
Qed.

(** The peak search on a spectrum with a single non-zero bin finds it. *)
Lemma peak_of_single (M : R) (k0 m : nat) :
  (1 <= k0 < m)%nat -> 0 < M ->
  peak_search (fins (map (fun k => if (k =? k0)%nat then M else 0) (seq 0 m)))
  = (k0, Fin M).
Proof.
  intros Hk HM.
  set (v := fun k => if (k =? k0)%nat then M else 0).
  assert (Hget : forall k, (k < m)%nat -> get (fins (map v (seq 0 m))) k = Fin (v k)).
  { intros k Hk'. unfold fins. rewrite map_map. now apply get_map_seq. }
  pose proof (peak_search_spec (fins (map v (seq 0 m)))) as Hps. cbv zeta in Hps.
  destruct (peak_search (fins (map v (seq 0 m)))) as [bestK best].
  cbn [fst snd] in Hps. destruct Hps as [Hshape Hmax].
  rewrite length_fins, length_map, length_seq in *.
  specialize (Hmax k0 Hk). rewrite Hget in Hmax by lia.
  unfold v in Hmax at 1. rewrite Nat.eqb_refl in Hmax.
  destruct Hshape as [[-> ->]|[Hb ->]].
  - unfold gt in Hmax. cbn [lt] in Hmax. rewrite Rltb_true in Hmax by lra.
    discriminate.
  - rewrite Hget in * by lia. unfold v in *.
    destruct (Nat.eqb_spec bestK k0) as [->|Hne]; [reflexivity|].
    unfold gt in Hmax. cbn [lt] in Hmax. rewrite Rltb_true in Hmax by lra.
    discriminate.
Qed.

Lemma padded_size_of_pow2 (e : nat) :
  (1 <= e)%nat -> Z.to_nat (padded_size (2 ^ e)) = (2 ^ e)%nat.
Proof.
  intros He. unfold padded_size.
  rewrite Nat2Z.inj_pow. change (Z.of_nat 2) with 2%Z.
  assert (H2 : (2 ^ 1 <= 2 ^ Z.of_nat e)%Z) by (apply Z.pow_le_mono_r; lia).
  rewrite Z.max_r by (change (2 ^ 1)%Z with 2%Z in H2; lia).
  rewrite Z.log2_up_pow2 by lia.
  rewrite Z2Nat.inj_pow by lia. now rewrite Nat2Z.id.
Qed.

(** X26.  The spectrum of a sinusoid: for [n = 2^e] samples, [2 <= e <= 29],
    of a sinusoid of amplitude [A > 0] and any phase that makes [k0] whole
    cycles over the samples, [1 <= k0 < n / 2], [magnitudeFFT] returns
    [A n / 2] in bin [k0] and 0 in every other bin, and [dominantFrequency]
    answers [k0 * rate / n] with the strength
    [(A n / 2) / (A n / 2 + 1e-9)] (with the arithmetic taken as exact). *)
Theorem pure_tone_peak (e k0 : nat) (A phi rate : R) :
  (2 <= e <= 29)%nat -> (1 <= k0 < 2 ^ e / 2)%nat -> 0 < A -> 0 < rate ->
  let n := (2 ^ e)%nat in
  exists mag,
    magnitudeFFT (fins (tone A phi k0 n)) = Some mag /\
    length mag = (n / 2)%nat /\
    (forall k, (k < n / 2)%nat ->
       get mag k = Fin (if (k =? k0)%nat then A * INR n / 2 else 0)) /\
    dominantFrequency mag (Fin rate)
    = {| peakFreqHz := Fin (INR k0 * rate / INR n);
         peakStrength := Fin (A * INR n / 2 / (A * INR n / 2 + 1 / 10 ^ 9)) |}.
Proof.
  intros He Hk0 HA Hrate n.
  assert (Hlen : length (tone A phi k0 n) = n)
    by (unfold tone; now rewrite length_map, length_seq).
  assert (Hn29 : (Z.of_nat n <= 2 ^ 29)%Z).
  { unfold n. rewrite Nat2Z.inj_pow. change (Z.of_nat 2) with 2%Z.
    apply Z.pow_le_mono_r; lia. }
  destruct (magnitudeFFT_bins (tone A phi k0 n)) as (mag & Hmag & Hl & H1 & H0 & Hk).
  { now rewrite Hlen. }
  rewrite Hlen in Hl, H1, Hk. unfold n in Hl, H1, Hk.
  rewrite padded_size_of_pow2 in Hl, H1, Hk by lia. fold n in Hl, H1, Hk, Hk0.
  assert (Hhalf : (n / 2 * 2 = n)%nat).
  { unfold n. replace e with (S (e - 1)) by lia.
    rewrite Nat.pow_succ_r', (Nat.mul_comm 2), Nat.div_mul by lia. reflexivity. }
  assert (Hn : 0 < INR n) by (apply lt_0_INR; lia).
  set (M := A * INR n / 2).
  assert (HM : 0 < M) by (unfold M; nra).
  assert (Hget : forall k, (k < n / 2)%nat ->
            get mag k = Fin (if (k =? k0)%nat then M else 0)).
  { intros k Hk'. destruct (Nat.eq_dec k 0) as [->|Hk1].
    - rewrite H0. destruct (Nat.eqb_spec 0 k0); [lia | reflexivity].
    - rewrite Hk by lia. f_equal. apply dft_tone; lia || lra. }
  exists mag. split; [exact Hmag|]. split; [exact Hl|]. split; [exact Hget|].
  rewrite (reals_of_entries mag (n / 2) _ Hl Hget).
  unfold dominantFrequency.
  rewrite peak_of_single by (lia || lra).
  rewrite sum_fins, Rsum_single, length_fins, length_map, length_seq, Hhalf.
  destruct (Nat.ltb_spec k0 (n / 2)); [|lia].
  unfold or_else. cbn [truthy]. rewrite Rzerob_false by lra. cbn [negb].
  unfold of_nat. cbn [mul add]. rewrite !div_Fin by lra. reflexivity.
Qed.

Lemma pure_tone_peak_witness :
  let n := (2 ^ 3)%nat in
  exists mag,
    magnitudeFFT (fins (tone 1 0 2 n)) = Some mag /\
    length mag = (n / 2)%nat /\
    (forall k, (k < n / 2)%nat ->
       get mag k = Fin (if (k =? 2)%nat then 1 * INR n / 2 else 0)) /\
    dominantFrequency mag (Fin 30)
    = {| peakFreqHz := Fin (INR 2 * 30 / INR n);
         peakStrength := Fin (1 * INR n / 2 / (1 * INR n / 2 + 1 / 10 ^ 9)) |}.
Proof.
  apply (pure_tone_peak 3 2 1 0 30); [lia | simpl; lia | lra | lra].
Defined.

(** ** Constant series *)

Lemma Rsum_repeat (x : R) (m : nat) : Rsum (repeat x m) = INR m * x.
Proof.
  induction m as [|m IH]; [simpl; lra|].
  change (Rsum (repeat x (S m))) with (x + Rsum (repeat x m)).
  rewrite IH, S_INR. ring.
Qed.

Lemma mean_R_repeat (x : R) (m : nat) : (1 <= m)%nat -> mean_R (repeat x m) = x.
Proof.
  intros Hm. unfold mean_R. rewrite Rsum_repeat, repeat_length.
  field. apply INR_pos_nonzero. lia.
Qed.

Lemma nth_repeat_in (x : R) (m k : nat) : (k < m)%nat -> nth k (repeat x m) 0 = x.
Proof.
  intros Hk. rewrite (nth_indep _ 0 x) by now rewrite repeat_length.
  apply nth_repeat.
Qed.

Lemma Sorted_repeat (x : R) (m : nat) : Sorted Rle (repeat x m).
Proof.
  induction m as [|m IH]; [constructor|].
  cbn [repeat]. constructor; [exact IH|].
  destruct m; cbn [repeat]; constructor. lra.
Qed.

Lemma sort_by_repeat (x : R) (m : nat) :
  sort_by (fun a b => sub a b) (fins (repeat x m)) = fins (repeat x m).
Proof.
  destruct (sort_by_fins (repeat x m)) as (T & -> & Hp & Hs).
  f_equal. apply sorted_perm_unique; [exact Hs | apply Sorted_repeat | exact Hp].
Qed.

(** The statistics of a series whose entries are all [x]. *)
Lemma summary_of_constant (x : R) (m : nat) :
  (1 <= m)%nat ->
  mean (fins (repeat x m)) = Fin x /\
  median (fins (repeat x m)) = Fin x /\
  stddev (fins (repeat x m)) = Fin 0 /\
  forall p, percentile (fins (repeat x m)) (Fin p) = Some (Fin x).
Proof.
  intros Hm.
  assert (Hne : repeat x m <> []) by (destruct m; [lia | discriminate]).
  split; [|split; [|split]].
  - rewrite mean_fins by assumption. now rewrite mean_R_repeat.
  - rewrite (median_fins _ (repeat x m)) by (try apply sort_by_repeat; auto).
    f_equal. unfold median_of_sorted. rewrite repeat_length.
    assert (Hhalf : (m / 2 < m)%nat) by (apply Nat.div_lt; lia).
    destruct (Nat.eqb_spec (m mod 2) 0) as [He|Ho].
    + rewrite !nth_repeat_in by lia. field.
    + now rewrite nth_repeat_in.
  - unfold stddev.
    destruct (Nat.lt_ge_cases m 2) as [Hlt|Hge].
    + rewrite variance_short by (rewrite length_fins, repeat_length; lia).
      rewrite sqrt_max0_Fin by lra. now rewrite sqrt_0.
    + rewrite variance_fins by (rewrite repeat_length; lia).
      assert (Hv : sample_variance (repeat x m) = 0).
      { unfold sample_variance. rewrite mean_R_repeat by lia.
        rewrite map_repeat, Rsum_repeat. unfold Rdiv. ring. }
      rewrite Hv, sqrt_max0_Fin by lra. now rewrite sqrt_0.
  - intros p.
    rewrite (percentile_fins _ p (repeat x m)) by (try apply sort_by_repeat; auto).
    rewrite repeat_length, nth_repeat_in; [reflexivity|].
    apply rank_index_bound. lia.
Qed.

Lemma recorded_media_times (trace : list Reading) (v : list R) :
  map currentTime trace = fins v ->
  map (fun r => or_else (currentTime r) (Fin 0)) trace = fins v.
Proof.
  intros Hv.
  rewrite <- (map_map currentTime (fun a => or_else a (Fin 0))), Hv.
  unfold fins. rewrite map_map. apply map_ext. intros x.
  unfold or_else, truthy. destruct (Req_dec_T x 0) as [->|Hne].
  - now rewrite Rzerob_true.
  - now rewrite Rzerob_false.
Qed.

(** The drift series of a run whose clocks are real numbers. *)
Lemma drift_of_reals (s v : list R) :
  length v = length s ->
  driftPerFrame_of (ifis_of (fins s)) (fins v)
  = fins (map (fun i => (nth i s 0 - nth (i - 1) s 0)
                        - (nth i v 0 - nth (i - 1) v 0) * 1000)
              (seq 1 (length s - 1))).
Proof.
  intros Hlen. unfold driftPerFrame_of, vdt_of, ifis_of.
  rewrite !diffs_fins, arraySub_entries.
  unfold fins. rewrite !length_map, !length_seq, !map_map, Hlen, Nat.min_id.
  match goal with
  | |- _ = map ?F _ =>
      transitivity (map F (map S (seq 0 (length s - 1))));
        [|now rewrite seq_shift]
  end.
  rewrite map_map.
  apply map_ext_in. intros i Hi. apply in_seq in Hi.
  unfold get.
  rewrite (nth_indep _ NaN (Fin (nth 1 s 0 - nth 0 s 0)))
    by (rewrite length_map, length_seq; lia).
  rewrite (map_nth (fun x => Fin (nth x s 0 - nth (x - 1) s 0))).
  rewrite (nth_indep _ NaN (mul (Fin (nth 1 v 0 - nth 0 v 0)) (Fin 1000)))
    by (rewrite length_map, length_seq; lia).
  rewrite (map_nth (fun x => mul (Fin (nth x v 0 - nth (x - 1) v 0)) (Fin 1000))).
  rewrite !seq_nth by lia. reflexivity.
Qed.

(** X27.  When the two clocks of a run are real numbers and every interval
    of the system clock exceeds the matching interval of the media clock (in
    ms) by the same [delta] (0 for a video that plays in step with the
    system clock), the drift block of the report is the rounded [delta] for
    the mean, the median and the 90th percentile, and 0 for the standard
    deviation. *)
Theorem steady_drift_report (useRVFC : bool) (opts : Options)
        (trace : list Reading) (s v : list R) (delta : R) :
  map now trace = fins s ->
  map currentTime trace = fins v ->
  (2 <= length trace)%nat -> (Z.of_nat (length trace) <= 2 ^ 29)%Z ->
  (forall i, (1 <= i < length trace)%nat ->
     (nth i s 0 - nth (i - 1) s 0) - (nth i v 0 - nth (i - 1) v 0) * 1000 = delta) ->
  exists r,
    runTimingProbe useRVFC opts trace = Some r /\
    drift r = {| meanMsPerFrame := Fin (toFixed delta 3);
                 medianMsPerFrame := Fin (toFixed delta 3);
                 stdMsPerFrame := Fin 0;
                 p90MsPerFrame := Fin (toFixed delta 3) |}.
Proof.
  intros Hs Hv Hn HN Hd.
  assert (Hls : length s = length trace)
    by (rewrite <- (length_fins s), <- Hs; apply length_map).
  assert (Hlv : length v = length trace)
    by (rewrite <- (length_fins v), <- Hv; apply length_map).
  destruct (runTimingProbe_returns useRVFC opts trace HN) as [r Hr].
  exists r. split; [exact Hr|].
  open_report Hr mag Hmag. cbn [drift].
  rewrite (recorded_media_times trace v Hv), Hs.
  rewrite drift_of_reals by congruence.
  rewrite (map_ext_in _ (fun _ => delta)).
  2:{ intros i Hi. apply in_seq in Hi. apply Hd. lia. }
  rewrite map_const, length_seq.
  destruct (summary_of_constant delta (length s - 1) ltac:(lia))
    as (Hmean & Hmed & Hstd & Hp).
  unfold summarize. cbn [s_mean s_median s_std s_p90].
  rewrite Hmean, Hmed, Hstd, Hp. cbn [round round_val].
  now rewrite toFixed_zero.
Qed.

Lemma steady_drift_report_witness :
  exists r,
    runTimingProbe true (mkOptions None None)
      [mkReading (Fin 0) (Fin 0); mkReading (Fin 40) (Fin (1 / 25));
       mkReading (Fin 100) (Fin (1 / 10))] = Some r /\
    drift r = {| meanMsPerFrame := Fin (toFixed 0 3);
                 medianMsPerFrame := Fin (toFixed 0 3);
                 stdMsPerFrame := Fin 0;
                 p90MsPerFrame := Fin (toFixed 0 3) |}.
Proof.
  apply (steady_drift_report true (mkOptions None None)
           [mkReading (Fin 0) (Fin 0); mkReading (Fin 40) (Fin (1 / 25));
            mkReading (Fin 100) (Fin (1 / 10))]
           [0; 40; 100] [0; 1 / 25; 1 / 10] 0).
  - reflexivity.
  - reflexivity.
  - simpl; lia.
  - simpl; lia.
  - intros i Hi. simpl in Hi.
    assert (Hc : i = 1%nat \/ i = 2%nat) by lia.
    destruct Hc as [-> | ->]; simpl; lra.
Defined.

(** ** A perfectly regular stream *)

(** X28.  A perfectly regular stream: when the system timestamps of a run
    are [n >= 2] reals, at most 2^29 of them, each [d > 0] after the one
    before, the report has [durationMs = (n - 1) d] and [fpsEst = 1000 / d];
    the mean, the median and the two percentiles of the intervals are the
    rounded [d]; the standard deviation and the coefficient of variation are
    0. *)
Theorem regular_stream_report (useRVFC : bool) (opts : Options)
        (trace : list Reading) (s : list R) (d : R) :
  map now trace = fins s ->
  (2 <= length trace)%nat -> (Z.of_nat (length trace) <= 2 ^ 29)%Z ->
  0 < d ->
  (forall i, (1 <= i < length trace)%nat -> nth i s 0 - nth (i - 1) s 0 = d) ->
  exists r,
    runTimingProbe useRVFC opts trace = Some r /\
    durationMs r = Fin (INR (length trace - 1) * d) /\
    fpsEst r = Fin (1000 / d) /\
    meanMs (ifi r) = Fin (toFixed d 3) /\
    medianMs (ifi r) = Fin (toFixed d 3) /\
    p90Ms (ifi r) = Fin (toFixed d 3) /\
    p99Ms (ifi r) = Fin (toFixed d 3) /\
    stdMs (ifi r) = Fin 0 /\
    cv (ifi r) = Fin 0.
Proof.
  intros Hs Hn HN Hd Hstep.
  assert (Hls : length s = length trace)
    by (rewrite <- (length_fins s), <- Hs; apply length_map).
  set (m := (length trace - 1)%nat).
  assert (Hm : (1 <= m)%nat) by (unfold m; lia).
  assert (Hifis : ifis_of (map now trace) = fins (repeat d m)).
  { rewrite Hs. unfold ifis_of. rewrite diffs_fins, Hls. fold m.
    rewrite (map_ext_in _ (fun _ => d)).
    - now rewrite map_const, length_seq.
    - intros i Hi. apply in_seq in Hi. apply Hstep. unfold m in Hi. lia. }
  assert (Hspan : nth (length s - 1) s 0 - nth 0 s 0 = INR m * d).
  { rewrite <- (Rsum_telescope (fun i => nth i s 0)), Hls. fold m.
    rewrite (map_ext_in _ (fun _ => d)).
    - now rewrite map_const, length_seq, Rsum_repeat.
    - intros i Hi. apply in_seq in Hi. apply Hstep. unfold m in Hi. lia. }
  destruct (summary_of_constant d m Hm) as (Hmean & Hmed & Hstd & Hp).
  assert (Hfps : fpsEst_of (Fin d) = Fin (1000 / d)).
  { unfold fpsEst_of, gt. cbn [lt]. rewrite Rltb_true by assumption.
    now rewrite div_Fin by lra. }
  destruct (runTimingProbe_returns useRVFC opts trace HN) as [r Hr].
  exists r. split; [exact Hr|].
  open_report Hr mag Hmag.
  cbn [durationMs fpsEst ifi meanMs medianMs p90Ms p99Ms stdMs cv].
  rewrite Hifis, Hmean, Hmed, Hstd, !Hp, Hfps.
  cbn [round round_val].
  unfold safeDiv. cbn [truthy]. rewrite Rzerob_false by lra. cbn [negb].
  rewrite div_Fin by lra. cbn [round].
  replace (0 / d) with 0 by (field; lra). rewrite !toFixed_zero.
  repeat split.
  unfold duration_of. rewrite Hs, length_fins.
  destruct (Nat.eqb_spec (length s) 0); [lia|].
  rewrite !get_fins by lia. cbn [sub]. now rewrite Hspan.
Qed.

Lemma regular_stream_report_witness :
  exists r,
    runTimingProbe true (mkOptions None None)
      [mkReading (Fin 0) (Fin 0); mkReading (Fin 40) (Fin 0);
       mkReading (Fin 80) (Fin 0)] = Some r /\
    durationMs r = Fin (INR (3 - 1) * 40) /\
    fpsEst r = Fin (1000 / 40) /\
    meanMs (ifi r) = Fin (toFixed 40 3) /\
    medianMs (ifi r) = Fin (toFixed 40 3) /\
    p90Ms (ifi r) = Fin (toFixed 40 3) /\
    p99Ms (ifi r) = Fin (toFixed 40 3) /\
    stdMs (ifi r) = Fin 0 /\
    cv (ifi r) = Fin 0.
Proof.
  apply (regular_stream_report true (mkOptions None None)
           [mkReading (Fin 0) (Fin 0); mkReading (Fin 40) (Fin 0);
            mkReading (Fin 80) (Fin 0)] [0; 40; 80] 40).
  - reflexivity.
  - simpl; lia.
  - simpl; lia.
  - lra.
  - intros i Hi. simpl in Hi.
    assert (Hc : i = 1%nat \/ i = 2%nat) by lia.
    destruct Hc as [-> | ->]; simpl; lra.
Defined.
